(** * Kerr black hole shaders: a shallow embedding and its verification

    The fragment shaders of the repository are pure functions from the
    uniforms and the pixel coordinate to a colour.  They are embedded here
    function by function.  A GLSL [float] is idealised as a real number
    (type [R]); the simplex noise, which only needs field operations,
    comparisons and [floor], is written once over an abstract scalar type
    and instantiated both at [R] (the model) and at [Q] (an executable
    mirror used to evaluate the noise at rational points).  The locals of
    the noise function are bound with [dlet], an ordinary [let] that
    reduction does not expand, so that its forty shared locals are never
    duplicated.

    Conventions of the idealisation:
    - division is the total division of [R] (so [x / 0 = 0]); GLSL leaves
      such results undefined;
    - [pow x y] is [x] to the power [y] for [0 < x]; it is [0] at [x = 0]
      (as in GLSL for [0 < y]) and fixed to [0] where GLSL leaves it
      undefined ([x < 0]);
    - the two-argument [atan] is the usual quadrant-aware arctangent;
    - the functions of physics.ts are read in the same way, a JavaScript
      number as a real; [Math.sqrt] of a negative number and [Math.pow]
      of a negative base, NaN in JavaScript, are [0] in the model, and the
      theorems on them are stated where these arguments are not
      negative. *)

From Stdlib Require Import Reals Lra Lia ZArith QArith Qreals Qround Bool List.
From Stdlib Require Import Psatz.

(** * Part I: definitions *)

(** ** Vectors *)

Record vec2 (F : Type) : Type := mkvec2 { x2 : F; y2 : F }.
Record vec3 (F : Type) : Type := mkvec3 { x3 : F; y3 : F; z3 : F }.
Record vec4 (F : Type) : Type := mkvec4 { x4 : F; y4 : F; z4 : F; w4 : F }.

Arguments mkvec2 {F} _ _.
Arguments mkvec3 {F} _ _ _.
Arguments mkvec4 {F} _ _ _ _.
Arguments x2 {F} _.
Arguments y2 {F} _.
Arguments x3 {F} _.
Arguments y3 {F} _.
Arguments z3 {F} _.
Arguments x4 {F} _.
Arguments y4 {F} _.
Arguments z4 {F} _.
Arguments w4 {F} _.

Definition map3 {F G : Type} (f : F -> G) (v : vec3 F) : vec3 G :=
  mkvec3 (f (x3 v)) (f (y3 v)) (f (z3 v)).

Definition zip3 {F G H : Type} (f : F -> G -> H) (a : vec3 F) (b : vec3 G) : vec3 H :=
  mkvec3 (f (x3 a) (x3 b)) (f (y3 a) (y3 b)) (f (z3 a) (z3 b)).

Definition map4 {F G : Type} (f : F -> G) (v : vec4 F) : vec4 G :=
  mkvec4 (f (x4 v)) (f (y4 v)) (f (z4 v)) (f (w4 v)).

Definition zip4 {F G H : Type} (f : F -> G -> H) (a : vec4 F) (b : vec4 G) : vec4 H :=
  mkvec4 (f (x4 a) (x4 b)) (f (y4 a) (y4 b)) (f (z4 a) (z4 b)) (f (w4 a) (w4 b)).

(** ** The scalar interface of the noise functions *)

Class Scalar (F : Type) : Type := {
  lit : Q -> F;              (* a numeric literal of the shader text *)
  add : F -> F -> F;
  sub : F -> F -> F;
  mul : F -> F -> F;
  div : F -> F -> F;
  floor : F -> F;
  ltb : F -> F -> bool       (* [ltb a b] is the test [a < b] *)
}.

(** [Let_In a f] is [let x := a in f x], kept as an application so that a
    function with many shared locals is traversed once, local by local. *)
Definition Let_In {A B : Type} (a : A) (f : A -> B) : B := f a.

Notation "'dlet' x := a 'in' b" := (Let_In a (fun x => b))
  (at level 10, x name, a at level 200, b at level 200, only parsing).

Declare Scope glsl_scope.
Delimit Scope glsl_scope with G.
Infix "+" := add : glsl_scope.
Infix "-" := sub : glsl_scope.
Infix "*" := mul : glsl_scope.
Infix "/" := div : glsl_scope.

Module Noise.
Section Generic.

Context {F : Type} {SF : Scalar F}.
Local Open Scope glsl_scope.

(** GLSL built-ins on scalars. *)
Definition gneg (a : F) : F := lit 0 - a.
Definition gmin (a b : F) : F := if ltb b a then b else a.
Definition gmax (a b : F) : F := if ltb a b then b else a.
Definition gabs (a : F) : F := if ltb a (lit 0) then gneg a else a.
Definition gstep (edge a : F) : F := if ltb a edge then lit 0 else lit 1.
Definition gmod (a b : F) : F := a - b * floor (a / b).

Definition dot3 (a b : vec3 F) : F :=
x3 a * x3 b + y3 a * y3 b + z3 a * z3 b.
Definition dot4 (a b : vec4 F) : F :=
x4 a * x4 b + y4 a * y4 b + z4 a * z4 b + w4 a * w4 b.

(** [vec4 permute(vec4 x) { return mod(((x * 34.0) + 1.0) * x, 289.0); }] *)
Definition permute (x : vec4 F) : vec4 F :=
map4 (fun t => gmod (((t * lit 34) + lit 1) * t) (lit 289)) x.

(** [vec4 taylorInvSqrt(vec4 r)] *)
Definition taylorInvSqrt (r : vec4 F) : vec4 F :=
map4 (fun t => lit 1.79284291400159 - lit 0.85373472095314 * t) r.

(** [float snoise(vec3 v)], statement by statement; each local is bound
  with [dlet]. *)
Definition snoise (v : vec3 F) : F :=
dlet C := mkvec2 (lit 1 / lit 6) (lit 1 / lit 3) in
dlet D := mkvec4 (lit 0) (lit 0.5) (lit 1) (lit 2) in
dlet Cyyy := mkvec3 (y2 C) (y2 C) (y2 C) in
dlet Cxxx := mkvec3 (x2 C) (x2 C) (x2 C) in
(* vec3 i = floor(v + dot(v, C.yyy)); *)
dlet dv := dot3 v Cyyy in
dlet i := map3 (fun t => floor (t + dv)) v in
(* vec3 x0 = v - i + dot(i, C.xxx); *)
dlet di := dot3 i Cxxx in
dlet x0 := zip3 (fun a b => a - b + di) v i in
(* vec3 g = step(x0.yzx, x0.xyz); vec3 l = 1.0 - g; *)
dlet g := zip3 gstep (mkvec3 (y3 x0) (z3 x0) (x3 x0)) x0 in
dlet l := map3 (fun t => lit 1 - t) g in
(* vec3 i1 = min(g.xyz, l.zxy); vec3 i2 = max(g.xyz, l.zxy); *)
dlet lzxy := mkvec3 (z3 l) (x3 l) (y3 l) in
dlet i1 := zip3 gmin g lzxy in
dlet i2 := zip3 gmax g lzxy in
(* x1, x2, x3 *)
dlet x1 := zip3 (fun a b => a - b + lit 1 * x2 C) x0 i1 in
dlet x2_ := zip3 (fun a b => a - b + lit 2 * x2 C) x0 i2 in
dlet x3_ := map3 (fun a => a - lit 1 + lit 3 * x2 C) x0 in
(* i = mod(i, 289.0); *)
dlet i := map3 (fun t => gmod t (lit 289)) i in
(* vec4 p = permute(permute(permute(i.z + vec4(0.0, i1.z, i2.z, 1.0))
             + i.y + vec4(0.0, i1.y, i2.y, 1.0))
             + i.x + vec4(0.0, i1.x, i2.x, 1.0)); *)
dlet pz := permute (map4 (fun t => z3 i + t)
            (mkvec4 (lit 0) (z3 i1) (z3 i2) (lit 1))) in
dlet py := permute (zip4 (fun a b => a + y3 i + b) pz
            (mkvec4 (lit 0) (y3 i1) (y3 i2) (lit 1))) in
dlet p := permute (zip4 (fun a b => a + x3 i + b) py
            (mkvec4 (lit 0) (x3 i1) (x3 i2) (lit 1))) in
(* float n_ = 1.0 / 7.0; vec3 ns = n_ * D.wyz - D.xzx; *)
dlet n_ := lit 1 / lit 7 in
dlet ns := mkvec3 (n_ * w4 D - x4 D) (n_ * y4 D - z4 D) (n_ * z4 D - x4 D) in
(* vec4 j = p - 49.0 * floor(p * ns.z * ns.z); *)
dlet j := map4 (fun t => t - lit 49 * floor (t * z3 ns * z3 ns)) p in
(* vec4 x_ = floor(j * ns.z); vec4 y_ = floor(j - 7.0 * x_); *)
dlet x_ := map4 (fun t => floor (t * z3 ns)) j in
dlet y_ := zip4 (fun a b => floor (a - lit 7 * b)) j x_ in
(* vec4 x = x_ * ns.x + ns.yyyy; vec4 y = y_ * ns.x + ns.yyyy; *)
dlet x := map4 (fun t => t * x3 ns + y3 ns) x_ in
dlet y := map4 (fun t => t * x3 ns + y3 ns) y_ in
(* vec4 h = 1.0 - abs(x) - abs(y); *)
dlet h := zip4 (fun a b => lit 1 - gabs a - gabs b) x y in
(* vec4 b0 = vec4(x.xy, y.xy); vec4 b1 = vec4(x.zw, y.zw); *)
dlet b0 := mkvec4 (x4 x) (y4 x) (x4 y) (y4 y) in
dlet b1 := mkvec4 (z4 x) (w4 x) (z4 y) (w4 y) in
(* vec4 s0 = floor(b0) * 2.0 + 1.0; vec4 s1 = floor(b1) * 2.0 + 1.0; *)
dlet s0 := map4 (fun t => floor t * lit 2 + lit 1) b0 in
dlet s1 := map4 (fun t => floor t * lit 2 + lit 1) b1 in
(* vec4 sh = -step(h, vec4(0.0)); *)
dlet sh := map4 (fun t => gneg (gstep t (lit 0))) h in
(* vec4 a0 = b0.xzyw + s0.xzyw * sh.xxyy;
   vec4 a1 = b1.xzyw + s1.xzyw * sh.zzww; *)
dlet a0 := mkvec4 (x4 b0 + x4 s0 * x4 sh) (z4 b0 + z4 s0 * x4 sh)
                 (y4 b0 + y4 s0 * y4 sh) (w4 b0 + w4 s0 * y4 sh) in
dlet a1 := mkvec4 (x4 b1 + x4 s1 * z4 sh) (z4 b1 + z4 s1 * z4 sh)
                 (y4 b1 + y4 s1 * w4 sh) (w4 b1 + w4 s1 * w4 sh) in
(* vec3 p0 = vec3(a0.xy, h.x); ... vec3 p3 = vec3(a1.zw, h.w); *)
dlet p0 := mkvec3 (x4 a0) (y4 a0) (x4 h) in
dlet p1 := mkvec3 (z4 a0) (w4 a0) (y4 h) in
dlet p2 := mkvec3 (x4 a1) (y4 a1) (z4 h) in
dlet p3 := mkvec3 (z4 a1) (w4 a1) (w4 h) in
(* vec4 norm = taylorInvSqrt(vec4(dot(p0,p0), ..., dot(p3,p3))); *)
dlet norm := taylorInvSqrt
              (mkvec4 (dot3 p0 p0) (dot3 p1 p1) (dot3 p2 p2) (dot3 p3 p3)) in
(* p0 *= norm.x; p1 *= norm.y; p2 *= norm.z; p3 *= norm.w; *)
dlet p0 := map3 (fun t => t * x4 norm) p0 in
dlet p1 := map3 (fun t => t * y4 norm) p1 in
dlet p2 := map3 (fun t => t * z4 norm) p2 in
dlet p3 := map3 (fun t => t * w4 norm) p3 in
(* vec4 m = max(0.6 - vec4(dot(x0,x0), ..., dot(x3,x3)), 0.0); m = m * m; *)
dlet m := map4 (fun t => gmax (lit 0.6 - t) (lit 0))
           (mkvec4 (dot3 x0 x0) (dot3 x1 x1) (dot3 x2_ x2_) (dot3 x3_ x3_)) in
dlet m := zip4 mul m m in
(* return 42.0 * dot(m * m, vec4(dot(p0,x0), ..., dot(p3,x3))); *)
lit 42 * dot4 (zip4 mul m m)
           (mkvec4 (dot3 p0 x0) (dot3 p1 x1) (dot3 p2 x2_) (dot3 p3 x3_)).

End Generic.
End Noise.

(** The executable instance: rational numbers. *)
#[export] Instance ScalarQ : Scalar Q := {|
  lit := fun q => q;
  add := Qplus;
  sub := Qminus;
  mul := Qmult;
  div := Qdiv;
  floor := fun q => inject_Z (Qfloor q);
  ltb := fun a b => negb (Qle_bool b a)
|}.

(** The model instance: real numbers. *)
#[export] Instance ScalarR : Scalar R := {|
  lit := Q2R;
  add := Rplus;
  sub := Rminus;
  mul := Rmult;
  div := Rdiv;
  floor := fun r => IZR (Zfloor r);
  ltb := fun a b => if Rlt_dec a b then true else false
|}.


Local Open Scope R_scope.

(** A rational and a real are related when the real is the image of the
    rational; vectors are related componentwise. *)
Module NoiseRel.

Definition rl (q : Q) (r : R) : Prop := r = Q2R q.
Definition rl2 (a : vec2 Q) (b : vec2 R) : Prop :=
  rl (x2 a) (x2 b) /\ rl (y2 a) (y2 b).
Definition rl3 (a : vec3 Q) (b : vec3 R) : Prop :=
  rl (x3 a) (x3 b) /\ rl (y3 a) (y3 b) /\ rl (z3 a) (z3 b).
Definition rl4 (a : vec4 Q) (b : vec4 R) : Prop :=
  rl (x4 a) (x4 b) /\ rl (y4 a) (y4 b) /\ rl (z4 a) (z4 b) /\ rl (w4 a) (w4 b).

End NoiseRel.

(** ** GLSL built-ins on real numbers *)

Module Glsl.

Definition clamp (x lo hi : R) : R := Rmin (Rmax x lo) hi.

Definition mix (x y a : R) : R := x * (1 - a) + y * a.

Definition smoothstep (edge0 edge1 x : R) : R :=
  let t := clamp ((x - edge0) / (edge1 - edge0)) 0 1 in
  t * t * (3 - 2 * t).

Definition step (edge x : R) : R := if Rlt_dec x edge then 0 else 1.

Definition fract (x : R) : R := x - IZR (Zfloor x).

Definition pow (x y : R) : R := if Rlt_dec 0 x then Rpower x y else 0.

(** [atan(y, x)] with two arguments. *)
Definition atan2 (y x : R) : R :=
  if Rlt_dec 0 x then atan (y / x)
  else if Rlt_dec x 0 then
         (if Rle_dec 0 y then atan (y / x) + PI else atan (y / x) - PI)
  else if Rlt_dec 0 y then PI / 2
  else if Rlt_dec y 0 then - (PI / 2)
  else 0.

Definition vadd (a b : vec3 R) : vec3 R := zip3 Rplus a b.
Definition vsub (a b : vec3 R) : vec3 R := zip3 Rminus a b.
Definition vmul (a b : vec3 R) : vec3 R := zip3 Rmult a b.
Definition vdiv (a b : vec3 R) : vec3 R := zip3 Rdiv a b.
(** [v * s], [s * v] and [v / s] for a scalar [s]. *)
Definition vscale (v : vec3 R) (s : R) : vec3 R := map3 (fun t => t * s) v.
Definition sscale (s : R) (v : vec3 R) : vec3 R := map3 (fun t => s * t) v.
Definition vdivs (v : vec3 R) (s : R) : vec3 R := map3 (fun t => t / s) v.
Definition vec3s (s : R) : vec3 R := mkvec3 s s s.

Definition dot (a b : vec3 R) : R :=
  x3 a * x3 b + y3 a * y3 b + z3 a * z3 b.
Definition dot2 (a b : vec2 R) : R := x2 a * x2 b + y2 a * y2 b.
Definition length (v : vec3 R) : R := sqrt (dot v v).
Definition length2 (v : vec2 R) : R := sqrt (dot2 v v).
Definition normalize (v : vec3 R) : vec3 R := vdivs v (length v).
Definition cross (a b : vec3 R) : vec3 R :=
  mkvec3 (y3 a * z3 b - z3 a * y3 b)
         (z3 a * x3 b - x3 a * z3 b)
         (x3 a * y3 b - y3 a * x3 b).

(** Componentwise order on colours. *)
Definition vle (a b : vec3 R) : Prop :=
  x3 a <= x3 b /\ y3 a <= y3 b /\ z3 a <= z3 b.

End Glsl.

(** ** lib/blackhole/physics.ts *)

Module Physics.

Definition schwarzschildRadius (mass : R) : R := 2.0 * mass.

(** [kerrEventHorizon(mass, spin)]: r+ = M + sqrt(M^2 - a^2), a = spin * M. *)
Definition kerrEventHorizon (mass spin : R) : R :=
  let a := spin * mass in
  mass + sqrt (mass * mass - a * a).

(** [SCHWARZSCHILD_PHYSICS] and [KERR_PHYSICS]. *)
Definition EVENT_HORIZON : R := 2.0.
Definition PHOTON_SPHERE : R := 3.0.
Definition CRITICAL_IMPACT : R := 3.0 * sqrt 3.
Definition ISCO : R := 6.0.
Definition EVENT_HORIZON_EXTREMAL : R := 1.0.
Definition ISCO_PROGRADE_EXTREMAL : R := 1.0.
Definition ISCO_RETROGRADE_EXTREMAL : R := 9.0.

Definition photonSphereRadius (mass : R) : R := 3.0 * mass.

Definition criticalImpactParameter (mass : R) : R := 3.0 * sqrt 3 * mass.

(** [if (r <= rs) return 0; return Math.sqrt(1.0 - rs / r);] *)
Definition gravitationalRedshift (r mass : R) : R :=
  let rs := schwarzschildRadius mass in
  if Rle_dec r rs then 0 else sqrt (1.0 - rs / r).

(** [if (b < 0.01) return Math.PI; return (4.0 * mass) / b;] *)
Definition deflectionAngle (b mass : R) : R :=
  if Rlt_dec b 0.01 then PI else (4.0 * mass) / b.

Definition isPhotonCaptured (b mass : R) : bool :=
  if Rlt_dec b (criticalImpactParameter mass) then true else false.

Definition normalizeRadius (r mass : R) : R := r / schwarzschildRadius mass.

(** [Math.pow] on a non-negative base. *)
Definition Math_pow (x y : R) : R := Glsl.pow x y.

Definition kerrISCOPrograde (mass spin : R) : R :=
  let a := spin * mass in
  let z1 := 1 + Math_pow (1 - a * a / (mass * mass)) (1 / 3) *
                (Math_pow (1 + a / mass) (1 / 3) + Math_pow (1 - a / mass) (1 / 3)) in
  let z2 := sqrt (3 * a * a / (mass * mass) + z1 * z1) in
  mass * (3 + z2 - sqrt ((3 - z1) * (3 + z1 + 2 * z2))).

Definition frameDraggingOmega (r mass spin : R) : R :=
  let a := spin * mass in
  let numerator := 2 * mass * a * r in
  let denominator := r * r * r + a * a * r + 2 * mass * a * a in
  numerator / denominator.

End Physics.

(** ** kerr_postprocess.glsl and kerr_blackhole.glsl

    The two files have the same text for every function from [permute] to
    [lookAt]; they differ in their entry point ([mainImage] and [main]). *)

Module KerrShader.
Import Glsl.

Record Uniforms : Type := mkUniforms {
  uResolution : vec2 R;
  uCamPos : vec3 R;
  uTime : R;
  uMass : R;
  uSpin : R;
  uDiskInner : R;
  uDiskOuter : R;
  uDiskThickness : R;
  uDiskRotationSpeed : R;
  uGlowIntensity : R;
  (* declared in kerr_blackhole.glsl only, and never sampled *)
  uBgTexture : vec2 R -> vec4 R
}.

Definition PI : R := 3.14159265359.
Definition EPSILON : R := 0.0001.
Definition MAX_STEPS : nat := 300.
Definition STEP_SIZE : R := 0.1.

Definition snoise (v : vec3 R) : R := Noise.snoise v.

(** *** Utility functions *)

Definition quadFromAxisAngle (axis : vec3 R) (angle : R) : vec4 R :=
  let half_angle := (angle * 0.5) * PI / 180.0 in
  mkvec4 (x3 axis * sin half_angle)
         (y3 axis * sin half_angle)
         (z3 axis * sin half_angle)
         (cos half_angle).

Definition quadConj (q : vec4 R) : vec4 R :=
  mkvec4 (- x4 q) (- y4 q) (- z4 q) (w4 q).

Definition quat_mult (q1 q2 : vec4 R) : vec4 R :=
  mkvec4
    ((w4 q1 * x4 q2) + (x4 q1 * w4 q2) + (y4 q1 * z4 q2) - (z4 q1 * y4 q2))
    ((w4 q1 * y4 q2) - (x4 q1 * z4 q2) + (y4 q1 * w4 q2) + (z4 q1 * x4 q2))
    ((w4 q1 * z4 q2) + (x4 q1 * y4 q2) - (y4 q1 * x4 q2) + (z4 q1 * w4 q2))
    ((w4 q1 * w4 q2) - (x4 q1 * x4 q2) - (y4 q1 * y4 q2) - (z4 q1 * z4 q2)).

Definition rotateVector (position axis : vec3 R) (angle : R) : vec3 R :=
  let qr := quadFromAxisAngle axis angle in
  let qr_conj := quadConj qr in
  let q_pos := mkvec4 (x3 position) (y3 position) (z3 position) 0.0 in
  let q_tmp := quat_mult qr q_pos in
  let qr := quat_mult q_tmp qr_conj in
  mkvec3 (x4 qr) (y4 qr) (z4 qr).

Definition toSpherical (p : vec3 R) : vec3 R :=
  let rho := length p in
  let theta := atan2 (z3 p) (x3 p) in
  let phi := asin (clamp (y3 p / rho) (-1.0) 1.0) in
  mkvec3 rho theta phi.

(** [vec3 accel(float h2, vec3 pos)] *)
Definition accel (h2 : R) (pos : vec3 R) : vec3 R :=
  let r2 := dot pos pos in
  let r := sqrt r2 in
  if Rlt_dec r 1.0 then vec3s 0.0
  else
    let r5 := pow r2 2.5 in
    let acc := vdivs (sscale (-1.5 * h2) pos) r5 in
    acc.

Section WithUniforms.

Variable u : Uniforms.

(** *** Accretion disk: [adiskColor]

    The body of [adiskColor] is split along its three groups of
    statements: the density with its two early returns
    ([diskDensity], [None] standing for [return]), the noise loop
    ([diskNoise]) and the colour ([diskColor]); [adiskColor] is their
    composition in the final accumulation statement. *)

Definition diskDensity (pos : vec3 R) : option R :=
  let innerRadius := uDiskInner u in
  let outerRadius := uDiskOuter u in
  let density :=
    Rmax 0.0 (1.0 - length (vdiv pos (mkvec3 outerRadius (uDiskThickness u) outerRadius))) in
  if Rlt_dec density 0.001 then None
  else
    let density := density * pow (1.0 - Rabs (y3 pos) / uDiskThickness u) 2.0 in
    let density := density * smoothstep innerRadius (innerRadius * 1.1) (length pos) in
    if Rlt_dec density 0.001 then None
    else
      let sphericalCoord := toSpherical pos in
      let density := density * (1.0 / pow (x3 sphericalCoord) 4.0) in
      let density := density * 32000.0 in
      Some density.

(** The position scaled to the unit ellipsoid of the disk:
    [pos.xyz / vec3(outerRadius, uDiskThickness, outerRadius)]. *)
Definition scaledPos (pos : vec3 R) : vec3 R :=
  vdiv pos (mkvec3 (uDiskOuter u) (uDiskThickness u) (uDiskOuter u)).

(** The value of the local [density] after its first assignment, the
    one that the first test [if (density < 0.001) return;] reads. *)
Definition ellipsoidDensity (pos : vec3 R) : R :=
  let outerRadius := uDiskOuter u in
  Rmax 0.0 (1.0 - length (vdiv pos (mkvec3 outerRadius (uDiskThickness u) outerRadius))).

(** The weight with which a sample enters the colour: the final value of
    [density], and zero when [adiskColor] returns early. *)
Definition densityValue (pos : vec3 R) : R :=
  match diskDensity pos with
  | Some density => density
  | None => 0
  end.

(** One iteration of [for (int i = 0; i < 5; i++)]. *)
Definition noiseStep (st : R * vec3 R) (i : nat) : R * vec3 R :=
  let (noise, sphericalCoord) := st in
  let noise :=
    noise * (0.5 * snoise (vscale (vscale sphericalCoord (pow (INR i) 2.0)) 0.8) + 0.5) in
  let sphericalCoord :=
    if Nat.eqb (i mod 2) 0
    then mkvec3 (x3 sphericalCoord)
                (y3 sphericalCoord + uTime u * uDiskRotationSpeed u)
                (z3 sphericalCoord)
    else mkvec3 (x3 sphericalCoord)
                (y3 sphericalCoord - uTime u * uDiskRotationSpeed u)
                (z3 sphericalCoord) in
  (noise, sphericalCoord).

Definition diskNoise (pos : vec3 R) : R :=
  let sphericalCoord := toSpherical pos in
  let sphericalCoord :=
    mkvec3 (x3 sphericalCoord) (y3 sphericalCoord * 2.0) (z3 sphericalCoord * 4.0) in
  fst (fold_left noiseStep (seq 0 5) (1.0, sphericalCoord)).

Definition diskColor (pos : vec3 R) : vec3 R :=
  let innerRadius := uDiskInner u in
  let outerRadius := uDiskOuter u in
  let r := length2 (mkvec2 (x3 pos) (z3 pos)) in
  let angle := atan2 (z3 pos) (x3 pos) in
  let temp := smoothstep outerRadius innerRadius r in
  let temp := pow temp 0.75 in
  let orbitalVel := 1.0 / sqrt (Rmax r 0.1) in
  let rotAngle := angle - uTime u * uDiskRotationSpeed u * orbitalVel in
  let dopplerFactor := sin rotAngle in
  let beaming := 1.0 + dopplerFactor * 0.7 in
  let blueshifted := mkvec3 0.3 0.6 2.0 in
  let neutral := mkvec3 1.2 1.0 0.7 in
  let redshifted := mkvec3 2.0 0.3 0.05 in
  let diskColor :=
    if Rlt_dec 0.0 dopplerFactor
    then zip3 (fun a b => mix a b dopplerFactor) neutral blueshifted
    else zip3 (fun a b => mix a b (- dopplerFactor)) neutral redshifted in
  let diskColor :=
    zip3 (fun a b => mix a b (temp * 0.8)) diskColor (mkvec3 1.8 1.6 1.4) in
  let brightness := (temp * 12.0 + 2.0) * beaming in
  vscale diskColor brightness.

(** [void adiskColor(vec3 pos, inout vec3 color, inout float alpha)]:
    the two [inout] parameters are returned as a pair. *)
Definition adiskColor (pos color : vec3 R) (alpha : R) : vec3 R * R :=
  match diskDensity pos with
  | None => (color, alpha)
  | Some density =>
      (vadd color
         (vscale (vscale (sscale (density * 0.8) (diskColor pos)) alpha)
                 (Rabs (diskNoise pos))),
       alpha)
  end.

(** *** Background *)

(** The [uv] local of [sampleBackground]. *)
Definition backgroundUV (dir : vec3 R) : vec2 R :=
  let dir := rotateVector dir (mkvec3 0.0 1.0 0.0) (uTime u * 10.0) in
  mkvec2 (0.5 - atan2 (z3 dir) (x3 dir) / (2.0 * PI))
         (0.5 - asin (clamp (y3 dir) (-1.0) 1.0) / PI).

(** One iteration of [for (float i = 0.0; i < 3.0; i++)]. *)
Definition starStep (uv : vec2 R) (stars : R) (i : nat) : R :=
  let fi := INR i in
  let scale := pow 2.0 fi in
  let coord := mkvec2 (x2 uv * 30.0 * scale) (y2 uv * 30.0 * scale) in
  let n := fract (sin (dot2 coord (mkvec2 127.1 311.7)) * 43758.5453123) in
  stars + step (0.995 - fi * 0.003) n * (1.0 - fi * 0.25).

Definition sampleBackground (dir : vec3 R) : vec3 R :=
  let uv := backgroundUV dir in
  let stars := fold_left (starStep uv) (seq 0 3) 0.0 in
  vscale (vec3s stars) 0.9.

(** *** Ray tracing: [traceColor] *)

Record RayState : Type := mkRay {
  pos : vec3 R;
  dir : vec3 R;
  color : vec3 R;
  alpha : R
}.

Inductive Step : Type :=
| Return (c : vec3 R)
| Continue (s : RayState).

Definition eventHorizon : R := 2.0 * uMass u * (1.0 - uSpin u * 0.5).

(** The body of the [for] loop of [traceColor]. *)
Definition traceStep (h2 : R) (s : RayState) : Step :=
  let r := length (pos s) in
  if Rlt_dec r eventHorizon then Return (color s)
  else if Rlt_dec 100.0 r then
    Return (vadd (color s) (vscale (sampleBackground (normalize (dir s))) (alpha s)))
  else
    let (color', alpha') := adiskColor (pos s) (color s) (alpha s) in
    let acc := accel h2 (pos s) in
    let dir' := vadd (dir s) acc in
    let pos' := vadd (pos s) dir' in
    Continue (mkRay pos' dir' color' alpha').

(** [n] is the number of iterations left. *)
Fixpoint traceLoop (n : nat) (h2 : R) (s : RayState) : vec3 R :=
  match n with
  | O => vadd (color s) (vscale (sampleBackground (normalize (dir s))) (alpha s))
  | S n' =>
      match traceStep h2 s with
      | Return c => c
      | Continue s' => traceLoop n' h2 s'
      end
  end.

(** The state of the ray before the first iteration. *)
Definition initRay (pos dir : vec3 R) : RayState :=
  mkRay pos (vscale dir STEP_SIZE) (vec3s 0.0) 1.0.

Definition angularMomentum2 (pos dir : vec3 R) : R :=
  let h := cross pos (vscale dir STEP_SIZE) in
  dot h h.

Definition traceColor (pos dir : vec3 R) : vec3 R :=
  traceLoop MAX_STEPS (angularMomentum2 pos dir) (initRay pos dir).

(** The state of the ray at the start of iteration [n], when no earlier
    iteration has returned. *)
Fixpoint rayState (n : nat) (h2 : R) (s : RayState) : option RayState :=
  match n with
  | O => Some s
  | S n' =>
      match traceStep h2 s with
      | Return _ => None
      | Continue s' => rayState n' h2 s'
      end
  end.

Definition rayAt (n : nat) (pos dir : vec3 R) : option RayState :=
  rayState n (angularMomentum2 pos dir) (initRay pos dir).

(** *** Camera and entry points *)

(** [mat3 lookAt(vec3 origin, vec3 target, float roll)]; the result is
    the triple of columns. *)
Definition lookAt (origin target : vec3 R) (roll : R) : vec3 R * vec3 R * vec3 R :=
  let rr := mkvec3 (sin roll) (cos roll) 0.0 in
  let ww := normalize (vsub target origin) in
  let uu := normalize (cross ww rr) in
  let vv := normalize (cross uu ww) in
  (uu, vv, ww).

(** [view * dir] for a matrix given by its columns. *)
Definition mat3_mul (m : vec3 R * vec3 R * vec3 R) (v : vec3 R) : vec3 R :=
  let '(c0, c1, c2) := m in
  vadd (vadd (vscale c0 (x3 v)) (vscale c1 (y3 v))) (vscale c2 (z3 v)).

(** The common tail of both entry points, from the screen coordinate. *)
Definition shade (screenUv : vec2 R) : vec4 R :=
  let cameraPos := uCamPos u in
  let target := mkvec3 0.0 0.0 0.0 in
  let view := lookAt cameraPos target 0.0 in
  let dir := normalize (mkvec3 (- x2 screenUv) (y2 screenUv) 1.0) in
  let dir := mat3_mul view dir in
  let finalColor := traceColor cameraPos dir in
  let vignette := 1.0 - length2 screenUv * 0.15 in
  let finalColor := vscale finalColor vignette in
  let finalColor := map3 (fun c => pow c 0.85) finalColor in
  mkvec4 (x3 finalColor) (y3 finalColor) (z3 finalColor) 1.0.

(** kerr_postprocess.glsl:
    [void mainImage(const in vec4 inputColor, const in vec2 uv, out vec4 outputColor)] *)
Definition mainImage (inputColor : vec4 R) (uv : vec2 R) : vec4 R :=
  let screenUv := mkvec2 (x2 uv * 2.0 - 1.0) (y2 uv * 2.0 - 1.0) in
  let screenUv :=
    mkvec2 (x2 screenUv * (x2 (uResolution u) / y2 (uResolution u))) (y2 screenUv) in
  shade screenUv.

(** kerr_blackhole.glsl: [void main()], reading [gl_FragCoord] and the
    varyings and writing [gl_FragColor]. *)
Definition main (gl_FragCoord : vec4 R) (vUv : vec2 R) (vPosition : vec3 R) : vec4 R :=
  let uv := mkvec2 (x4 gl_FragCoord / x2 (uResolution u) - 0.5)
                   (y4 gl_FragCoord / y2 (uResolution u) - 0.5) in
  let uv := mkvec2 (x2 uv * (x2 (uResolution u) / y2 (uResolution u))) (y2 uv) in
  shade uv.

End WithUniforms.

End KerrShader.

(** ** public/shaders/blackhole/gravitational_lensing.glsl *)

Module Lensing.
Import Glsl.

Record Uniforms : Type := mkUniforms {
  uTime : R;
  uResolution : vec2 R;
  uCamPos : vec3 R;
  uMass : R;
  uSpin : R;
  uDiskInner : R;
  uDiskOuter : R;
  uDiskThickness : R;
  uDiskRotationSpeed : R;
  uGlowIntensity : R;
  uBgTexture : vec2 R -> vec4 R
}.

Definition PI : R := 3.14159265359.
Definition SCHWARZSCHILD_RADIUS : R := 2.0.
Definition PHOTON_SPHERE : R := 3.0.
Definition MAX_STEPS : nat := 256.
Definition STEP_SIZE : R := 0.1.
Definition MIN_DISTANCE : R := 0.01.

Definition hash (p : vec2 R) : R :=
  fract (sin (dot2 p (mkvec2 127.1 311.7)) * 43758.5453123).

Definition noise (p : vec2 R) : R :=
  let i := mkvec2 (IZR (Zfloor (x2 p))) (IZR (Zfloor (y2 p))) in
  let f := mkvec2 (fract (x2 p)) (fract (y2 p)) in
  let f := mkvec2 (x2 f * x2 f * (3.0 - 2.0 * x2 f))
                  (y2 f * y2 f * (3.0 - 2.0 * y2 f)) in
  let a := hash i in
  let b := hash (mkvec2 (x2 i + 1.0) (y2 i + 0.0)) in
  let c := hash (mkvec2 (x2 i + 0.0) (y2 i + 1.0)) in
  let d := hash (mkvec2 (x2 i + 1.0) (y2 i + 1.0)) in
  mix (mix a b (x2 f)) (mix c d (x2 f)) (y2 f).

Definition metricCoeff (r : R) : R := 1.0 - SCHWARZSCHILD_RADIUS / r.

(** [vec3 geodesicAcceleration(vec3 pos, vec3 vel)] *)
Definition geodesicAcceleration (pos vel : vec3 R) : vec3 R :=
  let r := length pos in
  if Rlt_dec r (SCHWARZSCHILD_RADIUS * 1.01) then vec3s 0.0
  else
    let rhat := vdivs pos r in
    let vr := dot vel rhat in
    let factor := SCHWARZSCHILD_RADIUS / (r * r * metricCoeff r) in
    let accel_radial := sscale (- factor * (dot vel vel - vr * vr)) rhat in
    let accel_tangential :=
      sscale (- factor * 2.0 * vr) (vsub vel (sscale vr rhat)) in
    vadd accel_radial accel_tangential.

(** The velocity of [rk4Step] just before [vel = normalize(vel)]; the
    position update is the first component. *)
Definition rk4Update (pos vel : vec3 R) (dt : R) : vec3 R * vec3 R :=
  let k1_v := geodesicAcceleration pos vel in
  let k1_p := vel in
  let k2_v := geodesicAcceleration (vadd pos (sscale (0.5 * dt) k1_p))
                                   (vadd vel (sscale (0.5 * dt) k1_v)) in
  let k2_p := vadd vel (sscale (0.5 * dt) k1_v) in
  let k3_v := geodesicAcceleration (vadd pos (sscale (0.5 * dt) k2_p))
                                   (vadd vel (sscale (0.5 * dt) k2_v)) in
  let k3_p := vadd vel (sscale (0.5 * dt) k2_v) in
  let k4_v := geodesicAcceleration (vadd pos (sscale dt k3_p))
                                   (vadd vel (sscale dt k3_v)) in
  let k4_p := vadd vel (sscale dt k3_v) in
  let pos := vadd pos (sscale (dt / 6.0)
               (vadd (vadd (vadd k1_p (sscale 2.0 k2_p)) (sscale 2.0 k3_p)) k4_p)) in
  let vel := vadd vel (sscale (dt / 6.0)
               (vadd (vadd (vadd k1_v (sscale 2.0 k2_v)) (sscale 2.0 k3_v)) k4_v)) in
  (pos, vel).

(** [void rk4Step(inout vec3 pos, inout vec3 vel, float dt)] *)
Definition rk4Step (pos vel : vec3 R) (dt : R) : vec3 R * vec3 R :=
  let (pos, vel) := rk4Update pos vel dt in
  let vel := normalize vel in
  (pos, vel).

Section WithUniforms.

Variable u : Uniforms.

(** [bool intersectDisk(vec3 pos, out vec3 hitPoint)]: [Some hitPoint]
    for [true]. *)
Definition intersectDisk (pos : vec3 R) : option (vec3 R) :=
  if Rlt_dec (Rabs (z3 pos)) (uDiskThickness u) then
    let r := length2 (mkvec2 (x3 pos) (y3 pos)) in
    if Rle_dec (uDiskInner u) r then
      if Rle_dec r (uDiskOuter u) then Some pos else None
    else None
  else None.

Definition getDiskColor (hitPoint : vec3 R) : vec3 R :=
  let r := length2 (mkvec2 (x3 hitPoint) (y3 hitPoint)) in
  let angle := atan2 (y3 hitPoint) (x3 hitPoint) in
  let temp := smoothstep (uDiskOuter u) (uDiskInner u) r in
  let temp := pow temp 0.75 in
  let orbitalVel := 1.0 / sqrt (Rmax r 0.1) in
  let rotAngle := angle - uTime u * uDiskRotationSpeed u * orbitalVel in
  let dopplerFactor := sin rotAngle in
  let beaming := 1.0 + dopplerFactor * 0.7 in
  let blueshifted := mkvec3 0.3 0.6 1.3 in
  let neutral := mkvec3 1.0 0.9 0.6 in
  let redshifted := mkvec3 1.3 0.3 0.05 in
  let diskColor :=
    if Rlt_dec 0.0 dopplerFactor
    then zip3 (fun a b => mix a b (dopplerFactor * 0.9)) neutral blueshifted
    else zip3 (fun a b => mix a b (- dopplerFactor * 0.9)) neutral redshifted in
  let diskColor :=
    zip3 (fun a b => mix a b (temp * 0.8)) diskColor (mkvec3 1.5 1.4 1.2) in
  let brightness := (temp * 5.0 + 0.5) * beaming in
  let diskColor := vscale diskColor brightness in
  let turb := noise (mkvec2 (r * 8.0) (angle * 5.0 + uTime u * 0.5)) in
  let diskColor := vscale diskColor (0.6 + turb * 0.8) in
  let innerEdge := smoothstep (uDiskInner u - 0.2) (uDiskInner u + 0.3) r in
  let outerEdge := 1.0 - smoothstep (uDiskOuter u - 0.5) (uDiskOuter u + 0.1) r in
  let diskColor := vscale diskColor (innerEdge * outerEdge) in
  let glow := exp (- (r - uDiskInner u) * 2.0) * uGlowIntensity u in
  vadd diskColor (vscale (mkvec3 1.2 0.9 0.5) glow).

(** The [uv] local of [sampleBackground]. *)
Definition backgroundUV (dir : vec3 R) : vec2 R :=
  mkvec2 (atan2 (z3 dir) (x3 dir) / (2.0 * PI) + 0.5)
         (asin (clamp (y3 dir) (-1.0) 1.0) / PI + 0.5).

Definition starStep (uv : vec2 R) (stars : R) (i : nat) : R :=
  let fi := INR i in
  let scale := pow 2.0 fi in
  let coord := mkvec2 (x2 uv * 30.0 * scale) (y2 uv * 30.0 * scale) in
  let n := noise coord in
  stars + step (0.995 - fi * 0.003) n * (1.0 - fi * 0.25).

Definition sampleBackground (dir : vec3 R) : vec3 R :=
  let uv := backgroundUV dir in
  let stars := fold_left (starStep uv) (seq 0 3) 0.0 in
  vscale (vec3s stars) 0.9.

(** *** [main]: the ray loop *)

Inductive Step : Type :=
| Break (finalColor : vec3 R)          (* [hitSomething = true; break;] *)
| Continue (pos vel : vec3 R).

Definition marchStep (pos vel : vec3 R) : Step :=
  let r := length pos in
  if Rlt_dec r (SCHWARZSCHILD_RADIUS * 1.05) then Break (vec3s 0.0)
  else if Rlt_dec 100.0 r then Break (sampleBackground (normalize vel))
  else
    match intersectDisk pos with
    | Some hitPoint => Break (getDiskColor hitPoint)
    | None =>
        let (pos', vel') := rk4Step pos vel STEP_SIZE in
        Continue pos' vel'
    end.

(** The loop followed by [if (!hitSomething) ...]; [n] is the number of
    iterations left. *)
Fixpoint march (n : nat) (pos vel : vec3 R) : vec3 R :=
  match n with
  | O => sampleBackground (normalize vel)
  | S n' =>
      match marchStep pos vel with
      | Break finalColor => finalColor
      | Continue pos' vel' => march n' pos' vel'
      end
  end.

(** Position and velocity at the start of iteration [n], when no
    earlier iteration has left the loop. *)
Fixpoint marchState (n : nat) (pos vel : vec3 R) : option (vec3 R * vec3 R) :=
  match n with
  | O => Some (pos, vel)
  | S n' =>
      match marchStep pos vel with
      | Break _ => None
      | Continue pos' vel' => marchState n' pos' vel'
      end
  end.

Definition screenUV (vUv : vec2 R) : vec2 R :=
  mkvec2 ((x2 vUv * 2.0 - 1.0) * (x2 (uResolution u) / y2 (uResolution u)))
         ((y2 vUv * 2.0 - 1.0) * 1.0).

Definition rayDir (vUv : vec2 R) : vec3 R :=
  let uv := screenUV vUv in
  normalize (mkvec3 (x2 uv) (y2 uv) (-1.5)).

(** The value of [finalColor] after the loop and the [!hitSomething]
    test. *)
Definition rayColor (vUv : vec2 R) : vec3 R :=
  march MAX_STEPS (uCamPos u) (rayDir vUv).

Definition main (vUv : vec2 R) (vPosition : vec3 R) : vec4 R :=
  let uv := screenUV vUv in
  let finalColor := rayColor vUv in
  let camR := length (uCamPos u) in
  let distToPhotonSphere := Rabs (camR - PHOTON_SPHERE) in
  let photonGlow := exp (- distToPhotonSphere * 3.0) * 0.4 * uGlowIntensity u in
  let finalColor := vadd finalColor (vscale (mkvec3 0.3 0.5 1.0) photonGlow) in
  let vignette := 1.0 - length2 uv * 0.15 in
  let finalColor := vscale finalColor vignette in
  let finalColor := map3 (fun c => pow c 0.85) finalColor in
  mkvec4 (x3 finalColor) (y3 finalColor) (z3 finalColor) 1.0.

End WithUniforms.

End Lensing.

(** ** The Kerr variant of gravitational_lensing.glsl (horizon and sky)

    Its [hash] and [noise] have the text of those of the Schwarzschild
    variant above, which are used here. *)

Module KerrLensing.
Import Glsl.

Definition PI : R := 3.14159265359.

Section WithUniforms.

Variables (uMass uSpin : R).
Variable uBgTexture : vec2 R -> vec4 R.

Definition schwarzschildRadius : R := 2.0 * uMass.

Definition kerrEventHorizon : R :=
  let a := clamp uSpin 0.0 0.999 in
  let m := Rmax uMass 0.0001 in
  m + sqrt (Rmax (m * m - (a * m) * (a * m)) 0.0).

(** The [uv] local of [sampleBackground] and of [proceduralStars]. *)
Definition backgroundUV (dir : vec3 R) : vec2 R :=
  mkvec2 (atan2 (z3 dir) (x3 dir) / (2.0 * PI) + 0.5)
         (asin (clamp (y3 dir) (-1.0) 1.0) / PI + 0.5).

(** [texture2D(uBgTexture, uv).rgb] *)
Definition sampleBackground (dir : vec3 R) : vec3 R :=
  let uv := backgroundUV dir in
  let t := uBgTexture uv in
  mkvec3 (x4 t) (y4 t) (z4 t).

Definition starStep (uv : vec2 R) (stars : R) (i : nat) : R :=
  let fi := INR i in
  let scale := pow 2.0 fi in
  let coord := mkvec2 (x2 uv * 30.0 * scale) (y2 uv * 30.0 * scale) in
  let n := Lensing.noise coord in
  stars + step (0.995 - fi * 0.003) n * (1.0 - fi * 0.25).

Definition proceduralStars (dir : vec3 R) : vec3 R :=
  let uv := backgroundUV dir in
  let stars := fold_left (starStep uv) (seq 0 3) 0.0 in
  vscale (vec3s stars) 0.9.

Definition sampleSky (dir : vec3 R) : vec3 R :=
  let tex := sampleBackground dir in
  let stars := proceduralStars dir in
  zip3 Rmax tex stars.

End WithUniforms.

Section Geodesic.

Variables (uMass uSpin uLensStrength uLensSharpness : R).

Definition kerrPhotonSphere : R :=
  let a := clamp uSpin 0.0 0.999 in
  let m := Rmax uMass 0.0001 in
  let cosTerm := cos ((2.0 / 3.0) * acos (- a)) in
  2.0 * m * (1.0 + cosTerm).

Definition metricCoeff (r : R) : R := 1.0 - schwarzschildRadius uMass / r.

(** [vec3 geodesicAcceleration(vec3 pos, vec3 vel)] with frame dragging. *)
Definition geodesicAcceleration (pos vel : vec3 R) : vec3 R :=
  let r := length pos in
  if Rlt_dec r (kerrEventHorizon uMass uSpin * 1.01) then vec3s 0.0
  else
    let rhat := vdivs pos r in
    let vr := dot vel rhat in
    let lensBoost := mix 0.65 1.6 (clamp uLensStrength 0.0 1.0) in
    let factor := (schwarzschildRadius uMass * lensBoost) / (r * r * metricCoeff r + 0.001) in
    let accel_radial := sscale (- factor * (dot vel vel - vr * vr)) rhat in
    let accel_tangential := sscale (- factor * 2.0 * vr) (vsub vel (sscale vr rhat)) in
    let a := clamp uSpin 0.0 0.999 in
    let spinAxis := mkvec3 0.0 1.0 0.0 in
    let omega := (a * uMass) / pow (Rmax r 0.2) 3.0 in
    let frameDrag :=
      vscale (sscale omega (cross vel spinAxis)) (0.5 + uLensSharpness * 0.35) in
    vadd (vadd accel_radial accel_tangential) frameDrag.

End Geodesic.

End KerrLensing.

(** ** The formulas of the specification *)

Module Spec.
Import Glsl.

(** The acceleration law as the specification words it:
    a(r) = -k h^2 rhat / r^5 with k = 1.5, r = |pos| and rhat = pos / r. *)
Definition accelLaw (h2 : R) (pos : vec3 R) : vec3 R :=
  let r := length pos in
  let rhat := vdivs pos r in
  vdivs (sscale (-1.5 * h2) rhat) (r ^ 5).

(** The equirectangular map as the specification words it:
    u = atan2(dz, dx) / 2 pi + 0.5, v = asin(clamp(dy, -1, 1)) / pi + 0.5,
    with pi read as the constant [PI] of the shaders. *)
Definition equirectUV (d : vec3 R) : vec2 R :=
  mkvec2 (atan2 (z3 d) (x3 d) / (2 * KerrShader.PI) + 0.5)
         (asin (clamp (y3 d) (-1) 1) / KerrShader.PI + 0.5).

End Spec.

(** ** lib/blackhole/config.ts and the uniforms the page creates *)

Module Config.

Record BlackHoleConfig : Type := mkConfig {
  mass : R;
  spin : R;
  observerDistance : R;
  shadowRadius : R;
  photonSphereRadius : R;
  diskInnerRadius : R;
  diskOuterRadius : R;
  diskThickness : R;
  diskTemperature : R;
  lensStrength : R;
  lensSharpness : R;
  vignetteStrength : R;
  glowIntensity : R;
  diskRotationSpeed : R;
  cameraOrbitSpeed : R
}.

Definition DEFAULT_CONFIG : BlackHoleConfig := {|
  mass := 1.0;
  spin := 0.0;
  observerDistance := 15.0;
  shadowRadius := 1.0;
  photonSphereRadius := 1.3;
  diskInnerRadius := 3.0;            (* SCHWARZSCHILD_PHYSICS.PHOTON_SPHERE *)
  diskOuterRadius := 6.0 * 1.5;      (* SCHWARZSCHILD_PHYSICS.ISCO * 1.5 *)
  diskThickness := 0.3;
  diskTemperature := 1.0;
  lensStrength := 0.7;
  lensSharpness := 0.9;
  vignetteStrength := 0.4;
  glowIntensity := 1.2;
  diskRotationSpeed := 0.1;
  cameraOrbitSpeed := 0.15
|}.

Definition INTERSTELLAR_CONFIG : BlackHoleConfig := {|
  mass := 1.0;
  spin := 0.998;
  observerDistance := 15.0;
  shadowRadius := 1.0;
  photonSphereRadius := 1.5;
  diskInnerRadius := 2.6;
  diskOuterRadius := 12.0;
  diskThickness := 0.2;
  diskTemperature := 1.0;
  lensStrength := 0.98;
  lensSharpness := 1.4;
  glowIntensity := 2.2;
  vignetteStrength := 0.3;
  diskRotationSpeed := 0.5;
  cameraOrbitSpeed := 0.1
|}.

(** The uniforms of BlackHoleShaderPlane.tsx for a configuration, at a
    given time, window size and camera position. *)
Definition kerrUniforms (c : BlackHoleConfig) (time : R) (resolution : vec2 R)
    (camPos : vec3 R) (tex : vec2 R -> vec4 R) : KerrShader.Uniforms :=
  KerrShader.mkUniforms resolution camPos time (mass c) (spin c)
    (diskInnerRadius c) (diskOuterRadius c) (diskThickness c)
    (diskRotationSpeed c) (glowIntensity c) tex.

Definition lensingUniforms (c : BlackHoleConfig) (time : R) (resolution : vec2 R)
    (camPos : vec3 R) (tex : vec2 R -> vec4 R) : Lensing.Uniforms :=
  Lensing.mkUniforms time resolution camPos (mass c) (spin c)
    (diskInnerRadius c) (diskOuterRadius c) (diskThickness c)
    (diskRotationSpeed c) (glowIntensity c) tex.

End Config.

(** ** Concrete scenes used to exercise the model *)

Module Scene.

Definition noTexture (uv : vec2 R) : vec4 R := mkvec4 0 0 0 0.

(** The page at start-up ([uTime = 0]) with the camera on the x axis,
    inside the disk at radius 3.75. *)
Definition inDisk : KerrShader.Uniforms :=
  Config.kerrUniforms Config.INTERSTELLAR_CONFIG 0 (mkvec2 1920 1080)
    (mkvec3 3.75 0 0) noTexture.

(** The ray from that camera straight to the centre. *)
Definition inDiskPos : vec3 R := mkvec3 3.75 0 0.
Definition inwards : vec3 R := mkvec3 (-1) 0 0.

(** The camera at distance 15 on the x axis, and the ray pointing away
    from the hole. *)
Definition farPos : vec3 R := mkvec3 15 0 0.
Definition outwards : vec3 R := mkvec3 1 0 0.
Definition farAway : KerrShader.Uniforms :=
  Config.kerrUniforms Config.INTERSTELLAR_CONFIG 0 (mkvec2 1920 1080)
    farPos noTexture.

(** gravitational_lensing.glsl with the default configuration: the camera
    on the z axis at distance 15 in front of the hole (the ray of the
    centre pixel runs down the axis to the hole), and behind it (the same
    ray runs away from the hole). *)
Definition lensFront : Lensing.Uniforms :=
  Config.lensingUniforms Config.DEFAULT_CONFIG 0 (mkvec2 1920 1080)
    (mkvec3 0 0 15) noTexture.
Definition lensBehind : Lensing.Uniforms :=
  Config.lensingUniforms Config.DEFAULT_CONFIG 0 (mkvec2 1920 1080)
    (mkvec3 0 0 (-15)) noTexture.

(** A thick disk: inner radius 2.4, outer radius 8, thickness 1.75. *)
Definition thickDisk : KerrShader.Uniforms :=
  KerrShader.mkUniforms (mkvec2 1920 1080) (mkvec3 0 0 15) 0 1 0 2.4 8 1.75 0.1 1.2
    noTexture.

End Scene.

(** ** Predicates on vectors *)

Module Predicates.
Import Glsl.

(** [w] lies in the plane through the origin with normal [n]. *)
Definition inPlane (n w : vec3 R) : Prop := dot n w = 0.

(** A colour with no negative component. *)
Definition nonneg3 (c : vec3 R) : Prop := vle (mkvec3 0 0 0) c.

End Predicates.

(** * Part II: verification *)

(** ** Real-number facts used throughout *)

Section RealFacts.

Lemma sqrt_ge_1 (x : R) : 1 <= sqrt x -> 1 <= x.
Proof.
  intros H.
  destruct (Rle_dec 0 x) as [Hx|Hx].
  - rewrite <- (sqrt_sqrt x Hx). nra.
  - rewrite sqrt_neg_0 in H by lra. lra.
Qed.

Lemma Rpower_5_2 (x : R) : 0 < x -> Rpower x 2.5 = sqrt x ^ 5.
Proof.
  intros Hx.
  replace 2.5 with (/ 2 * INR 5) by (simpl; lra).
  rewrite <- Rpower_mult, Rpower_sqrt by assumption.
  apply Rpower_pow. now apply sqrt_lt_R0.
Qed.

Lemma Rpower_nat2 (x : R) : 0 < x -> Rpower x 2.0 = x * x.
Proof.
  intros Hx. replace 2.0 with (INR 2) by (simpl; lra).
  rewrite Rpower_pow by assumption. simpl. ring.
Qed.

Lemma Rpower_nat4 (x : R) : 0 < x -> Rpower x 4.0 = x * x * x * x.
Proof.
  intros Hx. replace 4.0 with (INR 4) by (simpl; lra).
  rewrite Rpower_pow by assumption. simpl. ring.
Qed.

Lemma Rpower_pos (x y : R) : 0 < Rpower x y.
Proof. unfold Rpower. apply exp_pos. Qed.

Lemma Rpower_le_1 (x y : R) : 0 < x <= 1 -> 0 <= y -> Rpower x y <= 1.
Proof.
  intros [Hx0 Hx1] Hy. unfold Rpower.
  rewrite <- exp_0.
  destruct (Req_dec (y * ln x) 0) as [->|Hne]; [lra|].
  left. apply exp_increasing.
  assert (ln x <= 0).
  { destruct (Req_dec x 1) as [->|Hx]; [rewrite ln_1; lra|].
    left. rewrite <- ln_1. apply ln_increasing; lra. }
  nra.
Qed.

End RealFacts.

(** ** GLSL built-ins *)

Module GlslFacts.
Import Glsl.

Lemma clamp_bounds (x lo hi : R) : lo <= hi -> lo <= clamp x lo hi <= hi.
Proof.
  intros H. unfold clamp.
  unfold Rmax; destruct (Rle_dec x lo); unfold Rmin;
    match goal with |- context [Rle_dec ?a ?b] => destruct (Rle_dec a b) end; lra.
Qed.

Lemma clamp_id (x lo hi : R) : lo <= x <= hi -> clamp x lo hi = x.
Proof.
  intros H. unfold clamp.
  unfold Rmax; destruct (Rle_dec x lo); unfold Rmin;
    match goal with |- context [Rle_dec ?a ?b] => destruct (Rle_dec a b) end; lra.
Qed.

Lemma smoothstep_bounds (e0 e1 x : R) : 0 <= smoothstep e0 e1 x <= 1.
Proof.
  unfold smoothstep.
  pose proof (clamp_bounds ((x - e0) / (e1 - e0)) 0 1 ltac:(lra)) as Ht.
  set (t := clamp _ 0 1) in *. cbv zeta. split.
  - apply Rmult_le_pos; nra.
  - assert (0 <= ((1 - t) * (1 - t)) * (1 + 2 * t)) by (apply Rmult_le_pos; nra).
    replace (t * t * (3 - 2 * t)) with (1 - ((1 - t) * (1 - t)) * (1 + 2 * t)) by ring.
    lra.
Qed.

Lemma pow_nonneg (x y : R) : 0 <= pow x y.
Proof.
  unfold pow. destruct (Rlt_dec 0 x); [left; apply Rpower_pos | lra].
Qed.

Lemma pow_le_1 (x y : R) : 0 <= x <= 1 -> 0 <= y -> pow x y <= 1.
Proof.
  intros Hx Hy. unfold pow. destruct (Rlt_dec 0 x); [|lra].
  apply Rpower_le_1; lra.
Qed.

Lemma pow_pos (x y : R) : 0 < x -> pow x y = Rpower x y.
Proof. intros Hx. unfold pow. destruct (Rlt_dec 0 x); [reflexivity|lra]. Qed.

Lemma mix_nonneg (a b t : R) : 0 <= a -> 0 <= b -> 0 <= t <= 1 -> 0 <= mix a b t.
Proof. intros Ha Hb Ht. unfold mix. nra. Qed.

Lemma dot_nonneg (v : vec3 R) : 0 <= dot v v.
Proof. unfold dot. nra. Qed.

Lemma length_nonneg (v : vec3 R) : 0 <= length v.
Proof. unfold length. apply sqrt_pos. Qed.

Lemma length_axis_x (a : R) : length (mkvec3 a 0 0) = Rabs a.
Proof.
  unfold length, dot; simpl.
  replace (a * a + 0 * 0 + 0 * 0) with (Rsqr a) by (unfold Rsqr; ring).
  apply sqrt_Rsqr_abs.
Qed.

Lemma length_axis_z (a : R) : length (mkvec3 0 0 a) = Rabs a.
Proof.
  unfold length, dot; simpl.
  replace (0 * 0 + 0 * 0 + a * a) with (Rsqr a) by (unfold Rsqr; ring).
  apply sqrt_Rsqr_abs.
Qed.

Lemma vec3_eq (a b : vec3 R) :
  x3 a = x3 b -> y3 a = y3 b -> z3 a = z3 b -> a = b.
Proof. destruct a, b; simpl; intros; subst; reflexivity. Qed.

(** [normalize] yields unit length on every non-zero vector. *)
Lemma length_normalize (v : vec3 R) : length v <> 0 -> length (normalize v) = 1.
Proof.
  intros Hv. pose proof (length_nonneg v) as Hn.
  unfold normalize, vdivs, map3. unfold length at 1. unfold dot; simpl.
  replace (x3 v / length v * (x3 v / length v) + y3 v / length v * (y3 v / length v)
           + z3 v / length v * (z3 v / length v))
    with (dot v v / (length v * length v)) by (unfold dot; field; assumption).
  unfold length. rewrite sqrt_sqrt by apply dot_nonneg.
  unfold Rdiv. rewrite Rinv_r; [apply sqrt_1|].
  intros H0. apply Hv. unfold length. rewrite H0. apply sqrt_0.
Qed.

End GlslFacts.

(** ** The executable noise

    The values of [snoise] at the origin and at a rational point, computed
    over [Q]. *)

Example snoise_origin :
  Qred (Noise.snoise (mkvec3 0 0 0))%Q =
    (-174508483434765473681 # 423360000000000000000)%Q.
Proof. vm_compute. reflexivity. Qed.

Example snoise_sample :
  Qred (Noise.snoise (mkvec3 (13 # 10) (-27 # 10) (5 # 7)))%Q =
    (6032494341642835846139592630361 # 24716584287500000000000000000000)%Q.
Proof. vm_compute. reflexivity. Qed.

(** ** The noise at rational points

    [Q2R] commutes with every operation of the scalar interface, hence with
    [snoise]: the noise of the model at a rational point is the image of
    the noise computed over [Q]. *)

Module NoiseTransfer.
Import NoiseRel.

Lemma rl_lit q : rl (lit q) (lit q).
Proof. reflexivity. Qed.

Lemma rl_add a a' b b' : rl a a' -> rl b b' -> rl (add a b) (add a' b').
Proof. unfold rl; simpl; intros -> ->. now rewrite Q2R_plus. Qed.

Lemma rl_sub a a' b b' : rl a a' -> rl b b' -> rl (sub a b) (sub a' b').
Proof. unfold rl; simpl; intros -> ->. now rewrite Q2R_minus. Qed.

Lemma rl_mul a a' b b' : rl a a' -> rl b b' -> rl (mul a b) (mul a' b').
Proof. unfold rl; simpl; intros -> ->. now rewrite Q2R_mult. Qed.

Lemma Q2R_inv_total (q : Q) : Q2R (/ q) = / Q2R q.
Proof.
  rewrite RMicromega.Q2R_inv_ext.
  destruct (Qeq_bool q 0) eqn:E; [|reflexivity].
  apply Qeq_bool_eq in E. rewrite (Qeq_eqR _ _ E).
  unfold Q2R; simpl. rewrite Rmult_0_l, Rinv_0. reflexivity.
Qed.

Lemma rl_div a a' b b' : rl a a' -> rl b b' -> rl (div a b) (div a' b').
Proof.
  unfold rl; simpl; intros -> ->.
  unfold Qdiv, Rdiv. now rewrite Q2R_mult, Q2R_inv_total.
Qed.

Lemma Q2R_inject_Z (z : Z) : Q2R (inject_Z z) = IZR z.
Proof. unfold Q2R, inject_Z; simpl. field. Qed.

Lemma rl_floor a a' : rl a a' -> rl (floor a) (floor a').
Proof.
  unfold rl; simpl; intros ->. rewrite Q2R_inject_Z. f_equal.
  apply Zfloor_eq. split.
  - rewrite <- Q2R_inject_Z. apply Qle_Rle, Qfloor_le.
  - replace (IZR (Qfloor a) + 1) with (IZR (Qfloor a + 1)) by (rewrite plus_IZR; reflexivity).
    rewrite <- Q2R_inject_Z. apply Qlt_Rlt, Qlt_floor.
Qed.

Lemma rl_ltb a a' b b' : rl a a' -> rl b b' -> ltb a b = ltb a' b'.
Proof.
  unfold rl; simpl; intros -> ->.
  destruct (Rlt_dec (Q2R a) (Q2R b)) as [H|H].
  - apply Rlt_Qlt in H. destruct (Qle_bool b a) eqn:E; [|reflexivity].
    apply Qle_bool_iff in E. exfalso. apply (Qlt_not_le _ _ H E).
  - destruct (Qle_bool b a) eqn:E; [reflexivity|].
    exfalso. apply H. apply Qlt_Rlt. apply Qnot_le_lt. intros C.
    apply Qle_bool_iff in C. congruence.
Qed.

Create HintDb rl.
#[local] Hint Resolve rl_lit rl_add rl_sub rl_mul rl_div rl_floor : rl.

Lemma rl_gneg a a' : rl a a' -> rl (Noise.gneg a) (Noise.gneg a').
Proof. unfold Noise.gneg; auto with rl. Qed.

Lemma rl_if (c c' : bool) a a' b b' :
  c = c' -> rl a a' -> rl b b' -> rl (if c then a else b) (if c' then a' else b').
Proof. intros -> ? ?. now destruct c'. Qed.

Lemma rl_gmin a a' b b' : rl a a' -> rl b b' -> rl (Noise.gmin a b) (Noise.gmin a' b').
Proof. intros. unfold Noise.gmin. apply rl_if; auto using rl_ltb. Qed.

Lemma rl_gmax a a' b b' : rl a a' -> rl b b' -> rl (Noise.gmax a b) (Noise.gmax a' b').
Proof. intros. unfold Noise.gmax. apply rl_if; auto using rl_ltb. Qed.

Lemma rl_gabs a a' : rl a a' -> rl (Noise.gabs a) (Noise.gabs a').
Proof.
  intros. unfold Noise.gabs.
  apply rl_if; auto using rl_ltb, rl_gneg, rl_lit.
Qed.

Lemma rl_gstep a a' b b' : rl a a' -> rl b b' -> rl (Noise.gstep a b) (Noise.gstep a' b').
Proof. intros. unfold Noise.gstep. apply rl_if; auto using rl_ltb, rl_lit. Qed.

Lemma rl_gmod a a' b b' : rl a a' -> rl b b' -> rl (Noise.gmod a b) (Noise.gmod a' b').
Proof. intros. unfold Noise.gmod. auto 6 with rl. Qed.

#[local] Hint Resolve rl_gneg rl_gmin rl_gmax rl_gabs rl_gstep rl_gmod : rl.

Lemma rl_x2 a b : rl2 a b -> rl (x2 a) (x2 b). Proof. now intros []. Qed.
Lemma rl_y2 a b : rl2 a b -> rl (y2 a) (y2 b). Proof. now intros []. Qed.
Lemma rl_x3 a b : rl3 a b -> rl (x3 a) (x3 b). Proof. now intros (?&?&?). Qed.
Lemma rl_y3 a b : rl3 a b -> rl (y3 a) (y3 b). Proof. now intros (?&?&?). Qed.
Lemma rl_z3 a b : rl3 a b -> rl (z3 a) (z3 b). Proof. now intros (?&?&?). Qed.
Lemma rl_x4 a b : rl4 a b -> rl (x4 a) (x4 b). Proof. now intros (?&?&?&?). Qed.
Lemma rl_y4 a b : rl4 a b -> rl (y4 a) (y4 b). Proof. now intros (?&?&?&?). Qed.
Lemma rl_z4 a b : rl4 a b -> rl (z4 a) (z4 b). Proof. now intros (?&?&?&?). Qed.
Lemma rl_w4 a b : rl4 a b -> rl (w4 a) (w4 b). Proof. now intros (?&?&?&?). Qed.

Lemma rl_mk2 a a' b b' : rl a a' -> rl b b' -> rl2 (mkvec2 a b) (mkvec2 a' b').
Proof. now split. Qed.
Lemma rl_mk3 a a' b b' c c' :
  rl a a' -> rl b b' -> rl c c' -> rl3 (mkvec3 a b c) (mkvec3 a' b' c').
Proof. now repeat split. Qed.
Lemma rl_mk4 a a' b b' c c' d d' :
  rl a a' -> rl b b' -> rl c c' -> rl d d' ->
  rl4 (mkvec4 a b c d) (mkvec4 a' b' c' d').
Proof. now repeat split. Qed.

#[local] Hint Resolve rl_x2 rl_y2 rl_x3 rl_y3 rl_z3 rl_x4 rl_y4 rl_z4 rl_w4
  rl_mk2 rl_mk3 rl_mk4 : rl.

Lemma rl_map3 (f : Q -> Q) (f' : R -> R) v v' :
  (forall a a', rl a a' -> rl (f a) (f' a')) -> rl3 v v' -> rl3 (map3 f v) (map3 f' v').
Proof. intros Hf (?&?&?). unfold map3. auto with rl. Qed.

Lemma rl_zip3 (f : Q -> Q -> Q) (f' : R -> R -> R) v v' w w' :
  (forall a a' b b', rl a a' -> rl b b' -> rl (f a b) (f' a' b')) ->
  rl3 v v' -> rl3 w w' -> rl3 (zip3 f v w) (zip3 f' v' w').
Proof. intros Hf (?&?&?) (?&?&?). unfold zip3. auto with rl. Qed.

Lemma rl_map4 (f : Q -> Q) (f' : R -> R) v v' :
  (forall a a', rl a a' -> rl (f a) (f' a')) -> rl4 v v' -> rl4 (map4 f v) (map4 f' v').
Proof. intros Hf (?&?&?&?). unfold map4. auto with rl. Qed.

Lemma rl_zip4 (f : Q -> Q -> Q) (f' : R -> R -> R) v v' w w' :
  (forall a a' b b', rl a a' -> rl b b' -> rl (f a b) (f' a' b')) ->
  rl4 v v' -> rl4 w w' -> rl4 (zip4 f v w) (zip4 f' v' w').
Proof. intros Hf (?&?&?&?) (?&?&?&?). unfold zip4. auto with rl. Qed.

Lemma rl_dot3 v v' w w' : rl3 v v' -> rl3 w w' -> rl (Noise.dot3 v w) (Noise.dot3 v' w').
Proof. intros. unfold Noise.dot3. auto 7 with rl. Qed.

Lemma rl_dot4 v v' w w' : rl4 v v' -> rl4 w w' -> rl (Noise.dot4 v w) (Noise.dot4 v' w').
Proof. intros. unfold Noise.dot4. auto 8 with rl. Qed.

Lemma rl_permute v v' : rl4 v v' -> rl4 (Noise.permute v) (Noise.permute v').
Proof.
  intros. unfold Noise.permute. apply rl_map4; [|assumption].
  intros. auto 8 with rl.
Qed.

Lemma rl_taylorInvSqrt v v' :
  rl4 v v' -> rl4 (Noise.taylorInvSqrt v) (Noise.taylorInvSqrt v').
Proof.
  intros. unfold Noise.taylorInvSqrt. apply rl_map4; [|assumption].
  intros. auto 8 with rl.
Qed.

#[local] Hint Resolve rl_dot3 rl_dot4 rl_permute rl_taylorInvSqrt : rl.

Ltac rl_fun :=
  first [ apply rl_map3; [intros|] | apply rl_zip3; [intros|..]
        | apply rl_map4; [intros|] | apply rl_zip4; [intros|..] ].

Ltac rl1 :=
  lazymatch goal with
  | H : ?G |- ?G => exact H
  | |- rl (lit _) _ => apply rl_lit
  | |- rl (add _ _) _ => apply rl_add
  | |- rl (sub _ _) _ => apply rl_sub
  | |- rl (mul _ _) _ => apply rl_mul
  | |- rl (div _ _) _ => apply rl_div
  | |- rl (floor _) _ => apply rl_floor
  | |- rl (Noise.gneg _) _ => apply rl_gneg
  | |- rl (Noise.gmin _ _) _ => apply rl_gmin
  | |- rl (Noise.gmax _ _) _ => apply rl_gmax
  | |- rl (Noise.gabs _) _ => apply rl_gabs
  | |- rl (Noise.gstep _ _) _ => apply rl_gstep
  | |- rl (Noise.gmod _ _) _ => apply rl_gmod
  | |- rl (Noise.dot3 _ _) _ => apply rl_dot3
  | |- rl (Noise.dot4 _ _) _ => apply rl_dot4
  | |- rl (x2 _) _ => apply rl_x2
  | |- rl (y2 _) _ => apply rl_y2
  | |- rl (x3 _) _ => apply rl_x3
  | |- rl (y3 _) _ => apply rl_y3
  | |- rl (z3 _) _ => apply rl_z3
  | |- rl (x4 _) _ => apply rl_x4
  | |- rl (y4 _) _ => apply rl_y4
  | |- rl (z4 _) _ => apply rl_z4
  | |- rl (w4 _) _ => apply rl_w4
  | |- rl2 (mkvec2 _ _) _ => apply rl_mk2
  | |- rl3 (mkvec3 _ _ _) _ => apply rl_mk3
  | |- rl4 (mkvec4 _ _ _ _) _ => apply rl_mk4
  | |- rl3 (map3 _ _) _ => apply rl_map3; [intros|]
  | |- rl3 (zip3 _ _ _) _ => apply rl_zip3; [intros|..]
  | |- rl4 (map4 _ _) _ => apply rl_map4; [intros|]
  | |- rl4 (zip4 _ _ _) _ => apply rl_zip4; [intros|..]
  | |- rl4 (Noise.permute _) _ => apply rl_permute
  | |- rl4 (Noise.taylorInvSqrt _) _ => apply rl_taylorInvSqrt
  end.

Ltac rl_solve := repeat rl1.

Lemma rl_Let_In {A A' B B' : Type} (RA : A -> A' -> Prop) (RB : B -> B' -> Prop)
      (a : A) (a' : A') (f : A -> B) (f' : A' -> B') :
  RA a a' -> (forall x x', RA x x' -> RB (f x) (f' x')) ->
  RB (Let_In a f) (Let_In a' f').
Proof. intros Ha Hf. unfold Let_In. now apply Hf. Qed.

Ltac rl_let RA :=
  apply (rl_Let_In RA); [ rl_solve | intros ? ? ?; cbv beta ].

Ltac rl_step :=
  lazymatch goal with
  | |- _ (Let_In ?a _) _ =>
      let T := type of a in
      lazymatch T with
      | vec2 _ => rl_let rl2
      | vec3 _ => rl_let rl3
      | vec4 _ => rl_let rl4
      | _ => rl_let rl
      end
  end.

Lemma rl_snoise v v' : rl3 v v' -> rl (Noise.snoise v) (Noise.snoise v').
Proof.
  intros Hv. cbv beta delta [Noise.snoise].
  repeat rl_step.
  rl_solve.
Qed.

Lemma snoise_Q2R (a b c : Q) :
  Noise.snoise (mkvec3 (Q2R a) (Q2R b) (Q2R c)) = Q2R (Noise.snoise (mkvec3 a b c)).
Proof. apply rl_snoise. repeat split. Qed.
End NoiseTransfer.

(** ** Facts about kerr_postprocess.glsl / kerr_blackhole.glsl *)

Module KerrFacts.
Import Glsl GlslFacts KerrShader.

Ltac vec_eq := apply vec3_eq; simpl; try lra.

Lemma accel_no_angular_momentum (p : vec3 R) : accel 0 p = mkvec3 0 0 0.
Proof.
  unfold accel. destruct (Rlt_dec _ _).
  - vec_eq.
  - unfold vdivs, sscale, map3; simpl. vec_eq; unfold Rdiv; ring.
Qed.

Lemma accel_outside (h2 : R) (p : vec3 R) :
  1 <= length p -> accel h2 p = vdivs (sscale (-1.5 * h2) p) (length p ^ 5).
Proof.
  intros Hr. unfold accel. fold (length p).
  destruct (Rlt_dec (length p) 1.0) as [H|_]; [lra|].
  f_equal. rewrite pow_pos.
  - apply Rpower_5_2. pose proof (sqrt_ge_1 _ Hr). lra.
  - pose proof (sqrt_ge_1 _ Hr). lra.
Qed.

Section Facts.
Variable u : Uniforms.

Lemma adiskColor_alpha (p c : vec3 R) (a : R) : snd (adiskColor u p c a) = a.
Proof. unfold adiskColor. destruct (diskDensity u p); reflexivity. Qed.

Lemma Rdiv_1_nonneg (x : R) : 0 <= x -> 0 <= 1.0 / x.
Proof.
  intros [Hx| <-].
  - apply Rlt_le, Rdiv_lt_0_compat; lra.
  - unfold Rdiv. rewrite Rinv_0. lra.
Qed.

Lemma diskDensity_nonneg (p : vec3 R) (d : R) : diskDensity u p = Some d -> 0 <= d.
Proof.
  unfold diskDensity.
  destruct (Rlt_dec _ 0.001) as [|H1]; [discriminate|].
  destruct (Rlt_dec _ 0.001) as [|H2]; [discriminate|].
  intros [= <-].
  apply Rmult_le_pos; [|lra].
  apply Rmult_le_pos; [lra|].
  apply Rdiv_1_nonneg, pow_nonneg.
Qed.

Lemma diskColor_pos (p : vec3 R) :
  0 < x3 (diskColor u p) /\ 0 < y3 (diskColor u p) /\ 0 < z3 (diskColor u p).
Proof.
  unfold diskColor.
  set (temp := pow _ 0.75).
  set (dop := sin _).
  assert (Htemp : 0 <= temp <= 1).
  { split; [apply pow_nonneg | apply pow_le_1; [apply smoothstep_bounds | lra]]. }
  assert (Hdop : -1 <= dop <= 1) by apply SIN_bound.
  assert (Hb : 0 < (temp * 12.0 + 2.0) * (1.0 + dop * 0.7)) by (apply Rmult_lt_0_compat; nra).
  destruct (Rlt_dec 0.0 dop) as [Hd|Hd]; unfold vscale, zip3, map3, mix; simpl;
    repeat split; apply Rmult_lt_0_compat; try assumption; nra.
Qed.

Lemma contribution_nonneg (d c a n : R) :
  0 <= d -> 0 <= c -> 0 <= a -> 0 <= n -> 0 <= d * 0.8 * c * a * n.
Proof.
  intros. apply Rmult_le_pos; [apply Rmult_le_pos; [apply Rmult_le_pos; lra | lra] | lra].
Qed.

Lemma adiskColor_mono (p c : vec3 R) (a : R) :
  0 <= a -> vle c (fst (adiskColor u p c a)).
Proof.
  intros Ha. unfold adiskColor.
  destruct (diskDensity u p) as [d|] eqn:Hd; simpl.
  - apply diskDensity_nonneg in Hd.
    destruct (diskColor_pos p) as (Hx & Hy & Hz).
    pose proof (Rabs_pos (diskNoise u p)) as Hn.
    set (dc := diskColor u p) in *. clearbody dc.
    set (nz := Rabs (diskNoise u p)) in *. clearbody nz.
    unfold vle, vadd, vscale, sscale, zip3, map3; simpl.
    repeat split;
      match goal with |- ?c <= ?c + ?t => cut (0 <= t); [lra|] end;
      apply contribution_nonneg; lra.
  - unfold vle; lra.
Qed.

(** *** The loop *)

Lemma traceStep_Continue (h2 : R) (s s' : RayState) :
  traceStep u h2 s = Continue s' ->
  ~ length (pos s) < eventHorizon u /\ ~ 100.0 < length (pos s) /\
  s' = mkRay (vadd (pos s) (vadd (dir s) (accel h2 (pos s))))
             (vadd (dir s) (accel h2 (pos s)))
             (fst (adiskColor u (pos s) (color s) (alpha s)))
             (snd (adiskColor u (pos s) (color s) (alpha s))).
Proof.
  unfold traceStep.
  destruct (Rlt_dec _ _) as [|H1]; [discriminate|].
  destruct (Rlt_dec _ _) as [|H2]; [discriminate|].
  destruct (adiskColor u (pos s) (color s) (alpha s)) as [c a]; simpl.
  intros [= <-]. auto.
Qed.

Lemma traceStep_active (h2 : R) (s : RayState) :
  ~ length (pos s) < eventHorizon u -> ~ 100.0 < length (pos s) ->
  traceStep u h2 s =
    Continue (mkRay (vadd (pos s) (vadd (dir s) (accel h2 (pos s))))
                    (vadd (dir s) (accel h2 (pos s)))
                    (fst (adiskColor u (pos s) (color s) (alpha s)))
                    (snd (adiskColor u (pos s) (color s) (alpha s)))).
Proof.
  intros H1 H2. unfold traceStep.
  destruct (Rlt_dec _ _); [contradiction|].
  destruct (Rlt_dec _ _); [contradiction|].
  destruct (adiskColor u (pos s) (color s) (alpha s)); reflexivity.
Qed.

Lemma traceStep_absorbed (h2 : R) (s : RayState) :
  length (pos s) < eventHorizon u -> traceStep u h2 s = Return (color s).
Proof. intros H. unfold traceStep. destruct (Rlt_dec _ _); [reflexivity|contradiction]. Qed.

Lemma traceStep_escaped (h2 : R) (s : RayState) :
  ~ length (pos s) < eventHorizon u -> 100.0 < length (pos s) ->
  traceStep u h2 s =
    Return (vadd (color s) (vscale (sampleBackground u (normalize (dir s))) (alpha s))).
Proof.
  intros H1 H2. unfold traceStep.
  destruct (Rlt_dec _ _); [contradiction|].
  destruct (Rlt_dec _ _); [reflexivity|contradiction].
Qed.

(** The state at iteration [S n] is one step after the state at [n]. *)
Lemma rayState_S (n : nat) (h2 : R) (s : RayState) :
  rayState u (S n) h2 s =
    match rayState u n h2 s with
    | Some s1 => match traceStep u h2 s1 with
                 | Continue s2 => Some s2
                 | Return _ => None
                 end
    | None => None
    end.
Proof.
  revert s. induction n as [|n IH]; intros s.
  - simpl. destruct (traceStep u h2 s); reflexivity.
  - change (rayState u (S (S n)) h2 s)
      with (match traceStep u h2 s with
            | Return _ => None
            | Continue s' => rayState u (S n) h2 s'
            end).
    destruct (traceStep u h2 s) as [c|s'] eqn:E.
    + simpl. rewrite E. reflexivity.
    + rewrite IH. simpl. rewrite E. reflexivity.
Qed.

Lemma rayState_prefix (n m : nat) (h2 : R) (s s' : RayState) :
  rayState u (n + m) h2 s = Some s' ->
  exists s1, rayState u n h2 s = Some s1 /\ rayState u m h2 s1 = Some s'.
Proof.
  revert s. induction n as [|n IH]; intros s H.
  - exists s. split; [reflexivity|exact H].
  - simpl in *. destruct (traceStep u h2 s); [discriminate|]. now apply IH.
Qed.

Lemma traceLoop_from (n m : nat) (h2 : R) (s s1 : RayState) :
  rayState u n h2 s = Some s1 -> traceLoop u (n + m) h2 s = traceLoop u m h2 s1.
Proof.
  revert s. induction n as [|n IH]; intros s H; simpl in *.
  - now injection H as ->.
  - destruct (traceStep u h2 s); [discriminate|]. now apply IH.
Qed.

Lemma rayState_alpha (n : nat) (h2 : R) (s s' : RayState) :
  rayState u n h2 s = Some s' -> alpha s' = alpha s.
Proof.
  revert s. induction n as [|n IH]; intros s H; simpl in H.
  - now injection H as ->.
  - destruct (traceStep u h2 s) as [|s1] eqn:E; [discriminate|].
    apply IH in H. rewrite H.
    apply traceStep_Continue in E as (_ & _ & ->). simpl. apply adiskColor_alpha.
Qed.

Lemma vle_refl (a : vec3 R) : vle a a.
Proof. unfold vle; lra. Qed.

Lemma vle_trans (a b c : vec3 R) : vle a b -> vle b c -> vle a c.
Proof. unfold vle; intros (?&?&?) (?&?&?); repeat split; lra. Qed.

Lemma rayState_color_mono (n : nat) (h2 : R) (s s' : RayState) :
  0 <= alpha s -> rayState u n h2 s = Some s' -> vle (color s) (color s').
Proof.
  revert s. induction n as [|n IH]; intros s Ha H; simpl in H.
  - injection H as ->. apply vle_refl.
  - destruct (traceStep u h2 s) as [|s1] eqn:E; [discriminate|].
    apply traceStep_Continue in E as (_ & _ & E).
    apply vle_trans with (color s1).
    + rewrite E; simpl. now apply adiskColor_mono.
    + apply IH; [|assumption]. rewrite E; simpl. now rewrite adiskColor_alpha.
Qed.

(** A ray along the x axis has no angular momentum and keeps its
    direction: it advances by [d] at each iteration it stays active. *)
Lemma radial_ray (n : nat) (a d al : R) (c : vec3 R) :
  (forall k : nat, (k < n)%nat ->
     eventHorizon u <= Rabs (a + INR k * d) <= 100) ->
  exists s, rayState u n 0 (mkRay (mkvec3 a 0 0) (mkvec3 d 0 0) c al) = Some s /\
            pos s = mkvec3 (a + INR n * d) 0 0 /\ dir s = mkvec3 d 0 0 /\ alpha s = al.
Proof.
  induction n as [|n IH]; intros Hk.
  - eexists; split; [reflexivity|]. simpl. repeat split. vec_eq.
  - destruct IH as (s & Hs & Hp & Hd & Ha). { intros k Hlt. apply Hk. lia. }
    rewrite rayState_S, Hs.
    specialize (Hk n (Nat.lt_succ_diag_r n)).
    rewrite traceStep_active.
    + eexists; split; [reflexivity|]. cbn [pos dir alpha].
      rewrite Hp, Hd, accel_no_angular_momentum, adiskColor_alpha, S_INR.
      repeat split; try assumption; apply vec3_eq; cbn [vadd zip3 x3 y3 z3]; lra.
    + rewrite Hp, length_axis_x. lra.
    + rewrite Hp, length_axis_x. lra.
Qed.

End Facts.
End KerrFacts.

(** ** Facts about gravitational_lensing.glsl *)

Module LensingFacts.
Import Glsl GlslFacts Lensing.

(** On the z axis position and velocity are parallel and the geodesic
    acceleration vanishes. *)
Lemma geodesicAcceleration_axis (a b : R) :
  geodesicAcceleration (mkvec3 0 0 a) (mkvec3 0 0 b) = mkvec3 0 0 0.
Proof.
  unfold geodesicAcceleration. rewrite length_axis_z.
  destruct (Rlt_dec _ _) as [|Hr]; [apply vec3_eq; simpl; lra|].
  assert (Ha : 0 < Rabs a) by (unfold SCHWARZSCHILD_RADIUS in Hr; lra).
  set (q := a / Rabs a).
  assert (Hq : q * q = 1).
  { unfold q. replace (a / Rabs a * (a / Rabs a)) with ((a * a) / (Rabs a * Rabs a))
      by (field; lra).
    replace (Rabs a * Rabs a) with (a * a).
    - field. intros H0. assert (a = 0) by nra. subst a. rewrite Rabs_R0 in Ha. lra.
    - unfold Rabs; destruct (Rcase_abs a); ring. }
  set (f := SCHWARZSCHILD_RADIUS / _). clearbody f.
  unfold vadd, vsub, sscale, vdivs, dot, zip3, map3; cbn [x3 y3 z3]. fold q.
  apply vec3_eq; cbn [x3 y3 z3].
  - unfold Rdiv; ring.
  - unfold Rdiv; ring.
  - replace (0 * (0 / Rabs a) + 0 * (0 / Rabs a) + b * q) with (b * q) by (unfold Rdiv; ring).
    replace (- f * (0 * 0 + 0 * 0 + b * b - b * q * (b * q)) * q + - f * 2.0 * (b * q) * (b - b * q * q))
      with (- f * (b * b * (1 - q * q)) * q + - f * 2.0 * (b * q) * (b * (1 - q * q))) by ring.
    rewrite Hq. ring.
Qed.

Lemma rk4Update_axis (a b dt : R) :
  rk4Update (mkvec3 0 0 a) (mkvec3 0 0 b) dt = (mkvec3 0 0 (a + dt * b), mkvec3 0 0 b).
Proof.
  unfold rk4Update.
  rewrite geodesicAcceleration_axis.
  replace (vadd (mkvec3 0 0 b) (sscale (0.5 * dt) (mkvec3 0 0 0))) with (mkvec3 0 0 b)
    by (apply vec3_eq; simpl; lra).
  replace (vadd (mkvec3 0 0 a) (sscale (0.5 * dt) (mkvec3 0 0 b)))
    with (mkvec3 0 0 (a + 0.5 * dt * b)) by (apply vec3_eq; simpl; lra).
  rewrite geodesicAcceleration_axis.
  replace (vadd (mkvec3 0 0 b) (sscale (0.5 * dt) (mkvec3 0 0 0))) with (mkvec3 0 0 b)
    by (apply vec3_eq; simpl; lra).
  rewrite geodesicAcceleration_axis.
  replace (vadd (mkvec3 0 0 b) (sscale dt (mkvec3 0 0 0))) with (mkvec3 0 0 b)
    by (apply vec3_eq; simpl; lra).
  replace (vadd (mkvec3 0 0 a) (sscale dt (mkvec3 0 0 b)))
    with (mkvec3 0 0 (a + dt * b)) by (apply vec3_eq; simpl; lra).
  rewrite geodesicAcceleration_axis.
  f_equal; apply vec3_eq; simpl; try lra; field.
Qed.

Lemma rk4Step_unit (p v : vec3 R) (dt : R) :
  length (snd (rk4Update p v dt)) <> 0 -> length (snd (rk4Step p v dt)) = 1.
Proof.
  intros H. unfold rk4Step. destruct (rk4Update p v dt) as [p' v']; simpl in *.
  now apply length_normalize.
Qed.

Lemma normalize_axis_down : normalize (mkvec3 0 0 (-1)) = mkvec3 0 0 (-1).
Proof.
  unfold normalize. rewrite length_axis_z.
  replace (Rabs (-1)) with 1 by (unfold Rabs; destruct (Rcase_abs (-1)); lra).
  apply vec3_eq; simpl; lra.
Qed.

Lemma rk4Step_axis_down (a : R) :
  rk4Step (mkvec3 0 0 a) (mkvec3 0 0 (-1)) STEP_SIZE =
    (mkvec3 0 0 (a - 0.1), mkvec3 0 0 (-1)).
Proof.
  unfold rk4Step. rewrite rk4Update_axis, normalize_axis_down.
  f_equal. apply vec3_eq; unfold STEP_SIZE; simpl; lra.
Qed.

Section Facts.
Variable u : Uniforms.

Lemma marchStep_absorbed (p v : vec3 R) :
  length p < SCHWARZSCHILD_RADIUS * 1.05 -> marchStep u p v = Break (mkvec3 0 0 0).
Proof.
  intros H. unfold marchStep. destruct (Rlt_dec _ _); [|contradiction].
  f_equal. apply vec3_eq; simpl; lra.
Qed.

Lemma marchStep_escaped (p v : vec3 R) :
  ~ length p < SCHWARZSCHILD_RADIUS * 1.05 -> 100.0 < length p ->
  marchStep u p v = Break (sampleBackground (normalize v)).
Proof.
  intros H1 H2. unfold marchStep.
  destruct (Rlt_dec _ _); [contradiction|].
  destruct (Rlt_dec _ _); [reflexivity|contradiction].
Qed.

Lemma marchStep_active (p v : vec3 R) :
  ~ length p < SCHWARZSCHILD_RADIUS * 1.05 -> ~ 100.0 < length p ->
  intersectDisk u p = None ->
  marchStep u p v = Continue (fst (rk4Step p v STEP_SIZE)) (snd (rk4Step p v STEP_SIZE)).
Proof.
  intros H1 H2 H3. unfold marchStep.
  destruct (Rlt_dec _ _); [contradiction|].
  destruct (Rlt_dec _ _); [contradiction|].
  rewrite H3. destruct (rk4Step p v STEP_SIZE); reflexivity.
Qed.

Lemma marchState_S (n : nat) (p v : vec3 R) :
  marchState u (S n) p v =
    match marchState u n p v with
    | Some (p1, v1) => match marchStep u p1 v1 with
                       | Continue p2 v2 => Some (p2, v2)
                       | Break _ => None
                       end
    | None => None
    end.
Proof.
  revert p v. induction n as [|n IH]; intros p v.
  - simpl. destruct (marchStep u p v); reflexivity.
  - change (marchState u (S (S n)) p v)
      with (match marchStep u p v with
            | Break _ => None
            | Continue p' v' => marchState u (S n) p' v'
            end).
    destruct (marchStep u p v) as [c|p' v'] eqn:E.
    + simpl. rewrite E. reflexivity.
    + rewrite IH. simpl. rewrite E. reflexivity.
Qed.

Lemma march_from (n m : nat) (p v p1 v1 : vec3 R) :
  marchState u n p v = Some (p1, v1) -> march u (n + m) p v = march u m p1 v1.
Proof.
  revert p v. induction n as [|n IH]; intros p v H; simpl in *.
  - now injection H as -> ->.
  - destruct (marchStep u p v); [discriminate|]. now apply IH.
Qed.

Lemma intersectDisk_off_plane (p : vec3 R) :
  uDiskThickness u <= Rabs (z3 p) -> intersectDisk u p = None.
Proof.
  intros H. unfold intersectDisk. destruct (Rlt_dec _ _); [lra|reflexivity].
Qed.

(** A ray going down the z axis advances by 0.1 per iteration while it
    stays active and off the disk plane. *)
Lemma axis_ray (n : nat) (a : R) :
  (forall k : nat, (k < n)%nat ->
     SCHWARZSCHILD_RADIUS * 1.05 <= Rabs (a - INR k * 0.1) <= 100 /\
     uDiskThickness u <= Rabs (a - INR k * 0.1)) ->
  marchState u n (mkvec3 0 0 a) (mkvec3 0 0 (-1)) =
    Some (mkvec3 0 0 (a - INR n * 0.1), mkvec3 0 0 (-1)).
Proof.
  induction n as [|n IH]; intros Hk.
  - simpl. do 2 f_equal. apply vec3_eq; simpl; lra.
  - rewrite marchState_S, IH by (intros k Hlt; apply Hk; lia).
    destruct (Hk n (Nat.lt_succ_diag_r n)) as [Hr Hd].
    rewrite marchStep_active.
    + rewrite rk4Step_axis_down. cbn [fst snd]. do 2 f_equal.
      apply vec3_eq; cbn [x3 y3 z3]; try reflexivity. rewrite S_INR. lra.
    + rewrite length_axis_z. lra.
    + rewrite length_axis_z. lra.
    + apply intersectDisk_off_plane. exact Hd.
Qed.

End Facts.
End LensingFacts.

(** ** The scenes *)

Module SceneFacts.
Import Glsl GlslFacts KerrShader KerrFacts.

Lemma diskDensity_unfold (u : Uniforms) (p : vec3 R) :
  diskDensity u p =
    if Rlt_dec (ellipsoidDensity u p) 0.001 then None
    else if Rlt_dec (ellipsoidDensity u p
                     * pow (1.0 - Rabs (y3 p) / uDiskThickness u) 2.0
                     * smoothstep (uDiskInner u) (uDiskInner u * 1.1) (length p)) 0.001
         then None
         else Some (ellipsoidDensity u p
                    * pow (1.0 - Rabs (y3 p) / uDiskThickness u) 2.0
                    * smoothstep (uDiskInner u) (uDiskInner u * 1.1) (length p)
                    * (1.0 / pow (length p) 4.0) * 32000.0).
Proof. reflexivity. Qed.

Lemma diskDensity_Some (u : Uniforms) (p : vec3 R) :
  0.001 <= ellipsoidDensity u p ->
  0.001 <= ellipsoidDensity u p * pow (1.0 - Rabs (y3 p) / uDiskThickness u) 2.0
           * smoothstep (uDiskInner u) (uDiskInner u * 1.1) (length p) ->
  diskDensity u p =
    Some (ellipsoidDensity u p
          * pow (1.0 - Rabs (y3 p) / uDiskThickness u) 2.0
          * smoothstep (uDiskInner u) (uDiskInner u * 1.1) (length p)
          * (1.0 / pow (length p) 4.0) * 32000.0).
Proof.
  intros H1 H2. rewrite diskDensity_unfold.
  destruct (Rlt_dec _ _); [lra|]. destruct (Rlt_dec _ _); [lra|]. reflexivity.
Qed.

Lemma Rmax_right (a b : R) : a <= b -> Rmax a b = b.
Proof. intros H. unfold Rmax. destruct (Rle_dec a b); lra. Qed.

Lemma smoothstep_above (e0 e1 x : R) : e0 < e1 -> e1 <= x -> smoothstep e0 e1 x = 1.
Proof.
  intros H0 H1. unfold smoothstep.
  assert (Ht : 1 <= (x - e0) / (e1 - e0)).
  { apply Rmult_le_reg_r with (e1 - e0); [lra|]. unfold Rdiv.
    rewrite Rmult_assoc, Rinv_l by lra. lra. }
  unfold clamp. rewrite (Rmax_left _ 0) by lra.
  rewrite Rmin_right by lra. ring.
Qed.

Lemma smoothstep_below (e0 e1 x : R) : e0 < e1 -> x <= e0 -> smoothstep e0 e1 x = 0.
Proof.
  intros H0 H1. unfold smoothstep.
  assert (Ht : (x - e0) / (e1 - e0) <= 0).
  { apply Rmult_le_reg_r with (e1 - e0); [lra|]. unfold Rdiv.
    rewrite Rmult_assoc, Rinv_l by lra. lra. }
  unfold clamp. rewrite (Rmax_right _ 0) by lra.
  rewrite Rmin_left by lra. ring.
Qed.

Lemma pow_1 (y : R) : pow 1 y = 1.
Proof.
  rewrite pow_pos by lra. unfold Rpower. rewrite ln_1, Rmult_0_r. apply exp_0.
Qed.

Lemma pow_0 (y : R) : pow 0 y = 0.
Proof. unfold pow. destruct (Rlt_dec 0 0); [lra|reflexivity]. Qed.

Lemma pow_square (x : R) : 0 < x -> pow x 2.0 = x * x.
Proof. intros H. rewrite pow_pos by assumption. now apply Rpower_nat2. Qed.

Lemma pow_fourth (x : R) : 0 < x -> pow x 4.0 = x * x * x * x.
Proof. intros H. rewrite pow_pos by assumption. now apply Rpower_nat4. Qed.

(** *** The camera inside the disk *)

Lemma inDisk_ellipsoid : ellipsoidDensity Scene.inDisk Scene.inDiskPos = 0.6875.
Proof.
  unfold ellipsoidDensity, Scene.inDiskPos; cbn.
  replace (vdiv _ _) with (mkvec3 0.3125 0 0) by (apply vec3_eq; simpl; lra).
  rewrite length_axis_x, Rabs_pos_eq by lra.
  rewrite Rmax_right by lra. lra.
Qed.

Lemma inDisk_vertical :
  ellipsoidDensity Scene.inDisk Scene.inDiskPos
    * pow (1.0 - Rabs (y3 Scene.inDiskPos) / uDiskThickness Scene.inDisk) 2.0 = 0.6875.
Proof.
  rewrite inDisk_ellipsoid.
  unfold Scene.inDiskPos; cbn.
  rewrite Rabs_R0. replace (1.0 - 0 / 0.2) with 1 by lra.
  rewrite pow_1. lra.
Qed.

Lemma inDisk_length : length Scene.inDiskPos = 3.75.
Proof. unfold Scene.inDiskPos. rewrite length_axis_x, Rabs_pos_eq; lra. Qed.

Lemma inDisk_density :
  exists d, diskDensity Scene.inDisk Scene.inDiskPos = Some d /\ 0 < d.
Proof.
  assert (Hs : smoothstep (uDiskInner Scene.inDisk) (uDiskInner Scene.inDisk * 1.1)
                 (length Scene.inDiskPos) = 1).
  { rewrite inDisk_length. apply smoothstep_above; cbn; lra. }
  eexists. split.
  - apply diskDensity_Some.
    + rewrite inDisk_ellipsoid. lra.
    + rewrite inDisk_vertical, Hs. lra.
  - rewrite inDisk_vertical, Hs, inDisk_length, pow_fourth by lra.
    apply Rmult_lt_0_compat; [|lra].
    apply Rmult_lt_0_compat; [lra|].
    apply Rdiv_lt_0_compat; lra.
Qed.

Lemma noiseStep_frozen (u : Uniforms) (n : R) (sc : vec3 R) (i : nat) :
  uTime u = 0 ->
  noiseStep u (n, sc) i =
    (n * (0.5 * snoise (vscale (vscale sc (pow (INR i) 2.0)) 0.8) + 0.5), sc).
Proof.
  intros Ht. unfold noiseStep. f_equal.
  destruct (Nat.eqb (i mod 2) 0); destruct sc as [a b c];
    apply vec3_eq; cbn [x3 y3 z3]; rewrite ?Ht; lra.
Qed.

(** The noise argument of octave [i] on the x axis at radius 3.75. *)
Lemma octave_argument (i : nat) (q : Q) :
  Q2R q = 3 * (INR i * INR i) ->
  vscale (vscale (mkvec3 3.75 0 0) (pow (INR i) 2.0)) 0.8 =
    mkvec3 (Q2R q) (Q2R 0) (Q2R 0).
Proof.
  intros Hq.
  assert (Hp : pow (INR i) 2.0 = INR i * INR i).
  { destruct i as [|i].
    - simpl. rewrite pow_0. ring.
    - apply pow_square. apply lt_0_INR. lia. }
  rewrite Hp, Hq. apply vec3_eq; cbn [vscale map3 x3 y3 z3]; lra.
Qed.

Lemma octave_positive (i : nat) (q : Q) :
  Q2R q = 3 * (INR i * INR i) ->
  0 < 0.5 * Q2R (Noise.snoise (mkvec3 q 0%Q 0%Q)) + 0.5 ->
  0 < 0.5 * snoise (vscale (vscale (mkvec3 3.75 0 0) (pow (INR i) 2.0)) 0.8) + 0.5.
Proof.
  intros Hq Hv. rewrite (octave_argument i q Hq).
  unfold snoise. now rewrite NoiseTransfer.snoise_Q2R.
Qed.

Ltac octave q :=
  apply (octave_positive _ q);
  [ unfold Q2R; simpl; lra
  | match goal with
    | |- context [Q2R (Noise.snoise ?v)] =>
        let r := eval vm_compute in (Qred (Noise.snoise v)) in
        replace (Q2R (Noise.snoise v)) with (Q2R r)
          by (apply Qeq_eqR; vm_compute; reflexivity)
    end; unfold Q2R; simpl; lra ].

Lemma inDisk_noise : 0 < diskNoise Scene.inDisk Scene.inDiskPos.
Proof.
  unfold diskNoise, toSpherical.
  rewrite inDisk_length.
  replace (atan2 (z3 Scene.inDiskPos) (x3 Scene.inDiskPos)) with 0.
  2:{ unfold atan2, Scene.inDiskPos; cbn [x3 y3 z3].
      destruct (Rlt_dec 0 3.75); [|lra].
      replace (0 / 3.75) with 0 by lra. now rewrite atan_0. }
  replace (asin _) with 0.
  2:{ unfold Scene.inDiskPos; cbn [x3 y3 z3].
      replace (0 / 3.75) with 0 by lra.
      rewrite clamp_id by lra. now rewrite asin_0. }
  cbn [x3 y3 z3].
  replace (mkvec3 3.75 (0 * 2.0) (0 * 4.0)) with (mkvec3 3.75 0 0)
    by (apply vec3_eq; simpl; lra).
  cbn [seq fold_left].
  rewrite !noiseStep_frozen by reflexivity. cbn [fst].
  do 5 (apply Rmult_lt_0_compat; [|shelve]). lra.
  Unshelve.
  all: match goal with
       | |- context [pow (INR ?i) 2.0] =>
           let q := eval vm_compute in (inject_Z (3 * Z.of_nat i * Z.of_nat i)) in
           octave q
       end.
Qed.

(** The first iteration of the ray from inside the disk adds light. *)
Lemma inDisk_first_sample :
  0 < x3 (fst (adiskColor Scene.inDisk Scene.inDiskPos (vec3s 0.0) 1.0)).
Proof.
  unfold adiskColor.
  destruct inDisk_density as (d & -> & Hd).
  destruct (diskColor_pos Scene.inDisk Scene.inDiskPos) as (Hx & _).
  pose proof inDisk_noise as Hn.
  rewrite (Rabs_pos_eq (diskNoise _ _)) by lra.
  cbn [fst vadd vscale sscale vec3s zip3 map3 x3].
  set (c := x3 (diskColor _ _)) in *. set (nz := diskNoise _ _) in *.
  assert (0 < d * 0.8 * c * 1.0 * nz).
  { do 4 (apply Rmult_lt_0_compat; [|lra]). assumption. }
  lra.
Qed.


(** *** Rays along the x axis *)

Lemma rayAt_radial (u : Uniforms) (n : nat) (a b : R) :
  (forall k : nat, (k < n)%nat ->
     eventHorizon u <= Rabs (a + INR k * (b * 0.1)) <= 100) ->
  exists s, rayAt u n (mkvec3 a 0 0) (mkvec3 b 0 0) = Some s /\
            pos s = mkvec3 (a + INR n * (b * 0.1)) 0 0 /\
            dir s = mkvec3 (b * 0.1) 0 0 /\ alpha s = 1.0.
Proof.
  intros Hk. unfold rayAt, angularMomentum2, initRay.
  replace (vscale (mkvec3 b 0 0) STEP_SIZE) with (mkvec3 (b * 0.1) 0 0)
    by (apply vec3_eq; unfold STEP_SIZE; simpl; lra).
  replace (dot _ _) with 0 by (unfold dot, cross; simpl; ring).
  now apply radial_ray.
Qed.

Lemma traceColor_absorbed (u : Uniforms) (p d : vec3 R) (n : nat) (s : RayState) :
  (n < MAX_STEPS)%nat -> rayAt u n p d = Some s ->
  length (pos s) < eventHorizon u -> traceColor u p d = color s.
Proof.
  intros Hn Hs Hr. unfold traceColor.
  replace MAX_STEPS with (n + S (MAX_STEPS - S n))%nat by lia.
  rewrite (traceLoop_from u n _ _ _ s Hs).
  simpl. now rewrite traceStep_absorbed.
Qed.

Lemma traceColor_exhausted (u : Uniforms) (p d : vec3 R) (s : RayState) :
  rayAt u MAX_STEPS p d = Some s ->
  traceColor u p d =
    vadd (color s) (vscale (sampleBackground u (normalize (dir s))) (alpha s)).
Proof.
  intros Hs. unfold traceColor.
  replace MAX_STEPS with (MAX_STEPS + 0)%nat at 1 by lia.
  now rewrite (traceLoop_from u MAX_STEPS _ _ _ s Hs).
Qed.

Lemma rayAt_first (u : Uniforms) (p d : vec3 R) (s : RayState) :
  rayAt u 1 p d = Some s ->
  color s = fst (adiskColor u p (vec3s 0.0) 1.0).
Proof.
  unfold rayAt. simpl.
  destruct (traceStep _ _ _) as [|s1] eqn:E; [discriminate|].
  intros [= <-]. apply traceStep_Continue in E as (_ & _ & ->). reflexivity.
Qed.

Lemma INR_bound (k n : nat) : (k < S n)%nat -> 0 <= INR k <= INR n.
Proof. intros H. split; [apply pos_INR | apply le_INR; lia]. Qed.

Lemma horizon_inDisk : eventHorizon Scene.inDisk = 1.002.
Proof. unfold eventHorizon; cbn. lra. Qed.

(** The ray from inside the disk to the centre is active for 28
    iterations and is absorbed at the 29th with light on board. *)
Lemma inDisk_ray :
  exists s, rayAt Scene.inDisk 28 Scene.inDiskPos Scene.inwards = Some s /\
            length (pos s) < eventHorizon Scene.inDisk /\
            0 < x3 (color s).
Proof.
  destruct (rayAt_radial Scene.inDisk 28 3.75 (-1)) as (s & Hs & Hp & Hd & Ha).
  { intros k Hk. apply INR_bound in Hk. rewrite (INR_IZR_INZ 27) in Hk. cbn in Hk.
    rewrite horizon_inDisk. rewrite Rabs_pos_eq; lra. }
  exists s. split; [exact Hs|]. split.
  - rewrite Hp, length_axis_x, horizon_inDisk.
    rewrite (INR_IZR_INZ 28). cbn. rewrite Rabs_pos_eq; lra.
  - unfold rayAt in Hs.
    apply (rayState_prefix Scene.inDisk 1 27) in Hs as (s1 & H1 & H27).
    apply rayAt_first in H1 as Hc.
    apply rayState_color_mono in H27 as (Hx & _).
    + eapply Rlt_le_trans; [|exact Hx]. rewrite Hc. apply inDisk_first_sample.
    + apply rayState_alpha in H1. rewrite H1. simpl. lra.
Qed.

End SceneFacts.

(** ** Remaining helper lemmas *)

Module ClaimFacts.
Import Glsl GlslFacts KerrShader KerrFacts SceneFacts.

Lemma march_absorbed (u : Lensing.Uniforms) (p v p' v' : vec3 R) (n : nat) :
  (n < Lensing.MAX_STEPS)%nat ->
  Lensing.marchState u n p v = Some (p', v') ->
  length p' < Lensing.SCHWARZSCHILD_RADIUS * 1.05 ->
  Lensing.march u Lensing.MAX_STEPS p v = mkvec3 0 0 0.
Proof.
  intros Hn Hs Hr.
  replace Lensing.MAX_STEPS with (n + S (Lensing.MAX_STEPS - S n))%nat by lia.
  rewrite (LensingFacts.march_from u n _ _ _ _ _ Hs).
  simpl. now rewrite LensingFacts.marchStep_absorbed.
Qed.

Lemma march_exhausted (u : Lensing.Uniforms) (p v p' v' : vec3 R) :
  Lensing.marchState u Lensing.MAX_STEPS p v = Some (p', v') ->
  Lensing.march u Lensing.MAX_STEPS p v = Lensing.sampleBackground (normalize v').
Proof.
  intros Hs.
  replace Lensing.MAX_STEPS with (Lensing.MAX_STEPS + 0)%nat at 1 by lia.
  now rewrite (LensingFacts.march_from u _ _ _ _ _ _ Hs).
Qed.

Lemma INR_lit (n : nat) : INR n = IZR (Z.of_nat n).
Proof. apply INR_IZR_INZ. Qed.

(** The ray of the centre pixel from the front camera runs down the axis
    and reaches the horizon test at iteration 130. *)
Lemma lensFront_ray :
  Lensing.marchState Scene.lensFront 130 (mkvec3 0 0 15) (mkvec3 0 0 (-1)) =
    Some (mkvec3 0 0 (15 - INR 130 * 0.1), mkvec3 0 0 (-1)).
Proof.
  apply LensingFacts.axis_ray. intros k Hk.
  apply INR_bound in Hk. rewrite (INR_lit 129) in Hk. cbn in Hk.
  unfold Lensing.SCHWARZSCHILD_RADIUS. cbn.
  rewrite Rabs_pos_eq by lra. lra.
Qed.

(** From the camera behind the hole the same ray never terminates within
    the step budget. *)
Lemma lensBehind_ray :
  Lensing.marchState Scene.lensBehind Lensing.MAX_STEPS (mkvec3 0 0 (-15)) (mkvec3 0 0 (-1)) =
    Some (mkvec3 0 0 (-15 - INR Lensing.MAX_STEPS * 0.1), mkvec3 0 0 (-1)).
Proof.
  apply LensingFacts.axis_ray. intros k Hk.
  apply INR_bound in Hk. rewrite (INR_lit 255) in Hk. cbn in Hk.
  unfold Lensing.SCHWARZSCHILD_RADIUS. cbn.
  rewrite <- Rabs_Ropp, Rabs_pos_eq by lra. lra.
Qed.

Lemma horizon_farAway : eventHorizon Scene.farAway = 1.002.
Proof. unfold eventHorizon; cbn. lra. Qed.

(** The ray pointing away from the hole exhausts the step budget. *)
Lemma farAway_ray :
  exists s, rayAt Scene.farAway MAX_STEPS Scene.farPos Scene.outwards = Some s.
Proof.
  destruct (rayAt_radial Scene.farAway MAX_STEPS 15 1) as (s & Hs & _).
  { intros k Hk. apply INR_bound in Hk. rewrite (INR_lit 299) in Hk. cbn in Hk.
    rewrite horizon_farAway, Rabs_pos_eq by lra. lra. }
  now exists s.
Qed.

Lemma rayAt_alpha (u : Uniforms) (p d : vec3 R) (n : nat) (s : RayState) :
  rayAt u n p d = Some s -> alpha s = 1.0.
Proof. intros H. apply rayState_alpha in H. exact H. Qed.

Lemma rayAt_next (u : Uniforms) (p d : vec3 R) (n : nat) (s s' : RayState) :
  rayAt u n p d = Some s -> rayAt u (S n) p d = Some s' ->
  traceStep u (angularMomentum2 p d) s = Continue s'.
Proof.
  unfold rayAt. intros Hs. rewrite rayState_S, Hs.
  destruct (traceStep _ _ s); [discriminate|]. now intros [= ->].
Qed.

Lemma kerrLensing_horizon_spin0 (M : R) :
  KerrLensing.kerrEventHorizon M 0 = 2 * Rmax M 0.0001.
Proof.
  unfold KerrLensing.kerrEventHorizon.
  rewrite clamp_id by lra.
  set (m := Rmax M 0.0001).
  assert (Hm : 0 < m) by (unfold m, Rmax; destruct (Rle_dec M 0.0001); lra).
  replace (m * m - 0 * m * (0 * m)) with (m * m) by ring.
  rewrite (Rmax_left (m * m) 0.0) by nra.
  rewrite sqrt_square by lra. lra.
Qed.

Lemma length_xy (a b r : R) : 0 <= r -> a * a + b * b = r * r -> length (mkvec3 a b 0) = r.
Proof.
  intros Hr E. unfold length, dot; cbn [x3 y3 z3].
  replace (a * a + b * b + 0 * 0) with (r * r) by lra.
  now apply sqrt_square.
Qed.

Lemma thickDisk_on_plane : densityValue Scene.thickDisk (mkvec3 2.4 0 0) = 0.
Proof.
  unfold densityValue. rewrite diskDensity_unfold.
  destruct (Rlt_dec _ _); [reflexivity|].
  rewrite length_axis_x, (Rabs_pos_eq 2.4) by lra.
  rewrite smoothstep_below by (cbn; lra).
  destruct (Rlt_dec _ _) as [|H]; [reflexivity|]. exfalso. apply H. lra.
Qed.

Lemma thickDisk_scaled_above :
  length (scaledPos Scene.thickDisk (mkvec3 2.4 0.7 0)) = 0.5.
Proof.
  unfold scaledPos; cbn.
  replace (vdiv _ _) with (mkvec3 0.3 0.4 0) by (apply vec3_eq; simpl; lra).
  apply length_xy; lra.
Qed.

Lemma thickDisk_above :
  0 < densityValue Scene.thickDisk (mkvec3 2.4 0.7 0).
Proof.
  assert (He : ellipsoidDensity Scene.thickDisk (mkvec3 2.4 0.7 0) = 0.5).
  { unfold ellipsoidDensity. fold (scaledPos Scene.thickDisk (mkvec3 2.4 0.7 0)).
    rewrite thickDisk_scaled_above, Rmax_right by lra. lra. }
  assert (Hv : ellipsoidDensity Scene.thickDisk (mkvec3 2.4 0.7 0)
               * pow (1.0 - Rabs (y3 (mkvec3 2.4 0.7 0)) / uDiskThickness Scene.thickDisk) 2.0
               = 0.18).
  { rewrite He. cbn.
    rewrite Rabs_pos_eq by lra.
    replace (1.0 - 0.7 / 1.75) with 0.6 by lra.
    rewrite pow_square by lra. lra. }
  assert (Hl : length (mkvec3 2.4 0.7 0) = 2.5) by (apply length_xy; lra).
  assert (Hs : smoothstep (uDiskInner Scene.thickDisk) (uDiskInner Scene.thickDisk * 1.1)
                 (length (mkvec3 2.4 0.7 0)) = 650 / 1728).
  { rewrite Hl. unfold smoothstep; cbn.
    replace ((2.5 - 2.4) / (2.4 * 1.1 - 2.4)) with (5 / 12) by lra.
    rewrite clamp_id by lra. lra. }
  unfold densityValue. rewrite diskDensity_Some.
  - rewrite Hv, Hs, Hl, pow_fourth by lra.
    apply Rmult_lt_0_compat; [|lra].
    apply Rmult_lt_0_compat; [lra|].
    apply Rdiv_lt_0_compat; lra.
  - rewrite He. lra.
  - rewrite Hv, Hs. lra.
Qed.

Lemma diskDensity_outside (u : Uniforms) (p : vec3 R) :
  1 <= length (scaledPos u p) -> diskDensity u p = None.
Proof.
  intros H. rewrite diskDensity_unfold.
  destruct (Rlt_dec _ _) as [|H1]; [reflexivity|].
  exfalso. apply H1. unfold ellipsoidDensity. fold (scaledPos u p).
  rewrite Rmax_left by lra. lra.
Qed.

Lemma scaled_height (u : Uniforms) (x y z : R) :
  0 < uDiskThickness u ->
  Rabs y / uDiskThickness u <= length (scaledPos u (mkvec3 x y z)).
Proof.
  intros HT. unfold scaledPos, length, dot, vdiv, zip3; cbn [x3 y3 z3].
  set (T := uDiskThickness u) in *. set (o := uDiskOuter u).
  rewrite <- (sqrt_square (Rabs y / T)).
  - apply sqrt_le_1_alt.
    replace (Rabs y / T * (Rabs y / T)) with (y / T * (y / T)).
    + nra.
    + unfold Rdiv. unfold Rabs. destruct (Rcase_abs y); ring.
  - apply Rmult_le_pos; [apply Rabs_pos | left; now apply Rinv_0_lt_compat].
Qed.

Lemma scaled_monotone (u : Uniforms) (x z y1 y2 : R) :
  0 < uDiskThickness u -> Rabs y1 < Rabs y2 ->
  length (scaledPos u (mkvec3 x y1 z)) < length (scaledPos u (mkvec3 x y2 z)).
Proof.
  intros HT Hy. unfold scaledPos, length, dot, vdiv, zip3; cbn [x3 y3 z3].
  set (T := uDiskThickness u) in *. set (o := uDiskOuter u).
  apply sqrt_lt_1_alt. split; [nra|].
  assert (H : y1 / T * (y1 / T) < y2 / T * (y2 / T)).
  { assert (E : forall y, y / T * (y / T) = (Rabs y / T) * (Rabs y / T)).
    { intros y. unfold Rdiv, Rabs. destruct (Rcase_abs y); ring. }
    rewrite (E y1), (E y2).
    assert (0 <= Rabs y1 / T) by (apply Rmult_le_pos; [apply Rabs_pos | left; now apply Rinv_0_lt_compat]).
    assert (Rabs y1 / T < Rabs y2 / T).
    { unfold Rdiv. apply Rmult_lt_compat_r; [now apply Rinv_0_lt_compat | assumption]. }
    nra. }
  lra.
Qed.

Lemma length_height_monotone (x z y1 y2 : R) :
  Rabs y1 < Rabs y2 -> length (mkvec3 x y1 z) < length (mkvec3 x y2 z).
Proof.
  intros Hy. unfold length, dot; cbn [x3 y3 z3].
  apply sqrt_lt_1_alt. split; [nra|].
  assert (E : forall y, y * y = Rabs y * Rabs y).
  { intros y. unfold Rabs. destruct (Rcase_abs y); ring. }
  rewrite (E y1), (E y2). pose proof (Rabs_pos y1). nra.
Qed.

(** Inside the ellipsoid the first two factors of the density are the
    plain expressions: [max] and [pow] take their regular branch. *)
Lemma density_factors (u : Uniforms) (p : vec3 R) :
  0 < uDiskThickness u -> length (scaledPos u p) < 1 ->
  ellipsoidDensity u p = 1 - length (scaledPos u p) /\
  pow (1.0 - Rabs (y3 p) / uDiskThickness u) 2.0 =
    (1 - Rabs (y3 p) / uDiskThickness u) * (1 - Rabs (y3 p) / uDiskThickness u) /\
  0 < 1 - Rabs (y3 p) / uDiskThickness u <= 1.
Proof.
  intros HT HL. destruct p as [x y z]. cbn [y3].
  pose proof (scaled_height u x y z HT) as Hh.
  assert (Hb0 : 0 <= Rabs y / uDiskThickness u).
  { apply Rmult_le_pos; [apply Rabs_pos | left; now apply Rinv_0_lt_compat]. }
  split; [|split].
  - unfold ellipsoidDensity. fold (scaledPos u (mkvec3 x y z)).
    rewrite Rmax_right by lra. lra.
  - replace (1.0 - Rabs y / uDiskThickness u) with (1 - Rabs y / uDiskThickness u) by lra.
    apply pow_square. lra.
  - lra.
Qed.

(** The density that [adiskColor] uses, with its two early returns. *)
Lemma diskDensity_iff (u : Uniforms) (p : vec3 R) (d : R) :
  0 < uDiskThickness u ->
  diskDensity u p = Some d <->
  0.001 <= 1 - length (scaledPos u p) /\
  0.001 <= (1 - length (scaledPos u p))
           * ((1 - Rabs (y3 p) / uDiskThickness u) * (1 - Rabs (y3 p) / uDiskThickness u))
           * smoothstep (uDiskInner u) (uDiskInner u * 1.1) (length p) /\
  d = (1 - length (scaledPos u p))
      * ((1 - Rabs (y3 p) / uDiskThickness u) * (1 - Rabs (y3 p) / uDiskThickness u))
      * smoothstep (uDiskInner u) (uDiskInner u * 1.1) (length p)
      * (1.0 / pow (length p) 4.0) * 32000.0.
Proof.
  intros HT. rewrite diskDensity_unfold. split.
  - destruct (Rlt_dec (ellipsoidDensity u p) 0.001) as [|He]; [discriminate|].
    assert (HL : 0.001 <= 1 - length (scaledPos u p)).
    { destruct (Rle_dec 0.001 (1 - length (scaledPos u p))) as [|Hn]; [assumption|].
      exfalso. apply He. unfold ellipsoidDensity. fold (scaledPos u p).
      unfold Rmax. destruct (Rle_dec _ _); lra. }
    destruct (density_factors u p HT ltac:(lra)) as (E1 & E2 & _).
    rewrite E1, E2.
    destruct (Rlt_dec _ _) as [|Hw]; [discriminate|].
    intros [= <-]. repeat split; lra.
  - intros (HL & Hw & ->).
    destruct (density_factors u p HT ltac:(lra)) as (E1 & E2 & _).
    rewrite E1, E2.
    destruct (Rlt_dec _ _); [lra|]. destruct (Rlt_dec _ _); [lra|]. reflexivity.
Qed.

Lemma diskDensity_positive (u : Uniforms) (p : vec3 R) (d : R) :
  0 < uDiskInner u -> 0 < uDiskThickness u ->
  diskDensity u p = Some d -> uDiskInner u < length p /\ 0 < d.
Proof.
  intros Hi HT H. apply (diskDensity_iff u p d HT) in H. destruct H as (HL & Hw & ->).
  assert (Hr : uDiskInner u < length p).
  { destruct (Rlt_dec (uDiskInner u) (length p)) as [|Hn]; [assumption|]. exfalso.
    rewrite smoothstep_below in Hw by lra. lra. }
  split; [assumption|].
  assert (H0 : 0 < length p) by lra.
  rewrite pow_fourth by assumption.
  assert (H4 : 0 < length p * length p * length p * length p).
  { repeat apply Rmult_lt_0_compat; assumption. }
  apply Rmult_lt_0_compat; [|lra].
  apply Rmult_lt_0_compat; [lra|].
  apply Rdiv_lt_0_compat; lra.
Qed.

(** At fixed horizontal coordinates and from [|pos| = 1.1 innerRadius] on,
    where the inner-edge [smoothstep] is 1, a sample that emits has a
    strictly denser sample below it. *)
Lemma diskDensity_decreasing (u : Uniforms) (x z y1 y2 d2 : R) :
  0 < uDiskInner u -> 0 < uDiskThickness u -> Rabs y1 < Rabs y2 ->
  uDiskInner u * 1.1 <= length (mkvec3 x y1 z) ->
  diskDensity u (mkvec3 x y2 z) = Some d2 ->
  exists d1 : R, diskDensity u (mkvec3 x y1 z) = Some d1 /\ d2 < d1.
Proof.
  intros Hi HT Hy Hr H2.
  apply (diskDensity_iff u _ d2 HT) in H2. destruct H2 as (HL2 & Hw2 & ->).
  pose proof (scaled_monotone u x z y1 y2 HT Hy) as HL.
  pose proof (length_height_monotone x z y1 y2 Hy) as Hlen.
  pose proof (length_nonneg (scaledPos u (mkvec3 x y1 z))) as HL0.
  destruct (density_factors u (mkvec3 x y2 z) HT ltac:(lra)) as (_ & _ & Hb2).
  cbn [y3] in *.
  set (L1 := length (scaledPos u (mkvec3 x y1 z))) in *.
  set (L2 := length (scaledPos u (mkvec3 x y2 z))) in *.
  set (r1 := length (mkvec3 x y1 z)) in *.
  set (r2 := length (mkvec3 x y2 z)) in *.
  set (T := uDiskThickness u) in *.
  assert (Hb : Rabs y1 / T < Rabs y2 / T).
  { unfold Rdiv. apply Rmult_lt_compat_r; [now apply Rinv_0_lt_compat | assumption]. }
  assert (Hb0 : 0 <= Rabs y1 / T).
  { apply Rmult_le_pos; [apply Rabs_pos | left; now apply Rinv_0_lt_compat]. }
  set (b1 := 1 - Rabs y1 / T) in *. set (b2 := 1 - Rabs y2 / T) in *.
  assert (Hbb : 0 < b2 < b1) by (split; [apply Hb2 | unfold b1, b2; lra]).
  assert (Hsq : 0 < b2 * b2 < b1 * b1) by nra.
  assert (Hw : (1 - L2) * (b2 * b2) < (1 - L1) * (b1 * b1)) by nra.
  assert (Hs1 : smoothstep (uDiskInner u) (uDiskInner u * 1.1) r1 = 1)
    by (apply smoothstep_above; lra).
  assert (Hs2 : smoothstep (uDiskInner u) (uDiskInner u * 1.1) r2 = 1)
    by (apply smoothstep_above; lra).
  rewrite Hs2 in Hw2 |- *.
  assert (H1 : 0 < r1) by lra.
  assert (Hq1 : 0 < r1 * r1 * r1 * r1) by (repeat apply Rmult_lt_0_compat; assumption).
  assert (Hq : r1 * r1 * r1 * r1 < r2 * r2 * r2 * r2).
  { assert (r1 * r1 < r2 * r2) by nra. nra. }
  assert (Hinv : / (r2 * r2 * r2 * r2) < / (r1 * r1 * r1 * r1))
    by (apply Rinv_lt_contravar; [apply Rmult_lt_0_compat; lra | assumption]).
  assert (Hinv0 : 0 < / (r2 * r2 * r2 * r2)) by (apply Rinv_0_lt_compat; lra).
  eexists. split.
  - apply (diskDensity_iff u (mkvec3 x y1 z) _ HT). cbn [y3].
    fold L1 r1 T b1. rewrite Hs1. repeat split; lra.
  - rewrite !pow_fourth by lra. replace 1.0 with 1 by lra.
    unfold Rdiv. rewrite !Rmult_1_r, !Rmult_1_l.
    apply Rmult_lt_compat_r; [lra|].
    apply Rle_lt_trans with ((1 - L2) * (b2 * b2) * / (r1 * r1 * r1 * r1)).
    + apply Rmult_le_compat_l; lra.
    + apply Rmult_lt_compat_r; [apply Rinv_0_lt_compat; lra | assumption].
Qed.

Lemma densityValue_nonneg (u : Uniforms) (p : vec3 R) : 0 <= densityValue u p.
Proof.
  unfold densityValue. destruct (diskDensity u p) as [d|] eqn:E; [|lra].
  now apply (diskDensity_nonneg u p d).
Qed.

Lemma densityValue_monotone (u : Uniforms) (x z y1 y2 : R) :
  0 < uDiskInner u -> 0 < uDiskThickness u -> Rabs y1 < Rabs y2 ->
  uDiskInner u * 1.1 <= length (mkvec3 x y1 z) \/
  length (mkvec3 x y2 z) <= uDiskInner u ->
  densityValue u (mkvec3 x y2 z) <= densityValue u (mkvec3 x y1 z) /\
  (0 < densityValue u (mkvec3 x y2 z) ->
   densityValue u (mkvec3 x y2 z) < densityValue u (mkvec3 x y1 z)).
Proof.
  intros Hi HT Hy Hr.
  pose proof (densityValue_nonneg u (mkvec3 x y1 z)) as H1.
  unfold densityValue in *.
  destruct (diskDensity u (mkvec3 x y2 z)) as [d2|] eqn:E2; [|lra].
  destruct Hr as [Hr | Hr].
  - destruct (diskDensity_decreasing u x z y1 y2 d2 Hi HT Hy Hr E2) as (d1 & -> & Hd).
    lra.
  - destruct (diskDensity_positive u _ d2 Hi HT E2) as [Hin _]. lra.
Qed.

(** *** Two samples of the thick disk outside the inner ramp *)

Lemma thickDisk_outer_sample :
  exists d : R,
    diskDensity Scene.thickDisk (mkvec3 3.2 0.525 0) = Some d /\ 0 < d.
Proof.
  assert (HL : length (scaledPos Scene.thickDisk (mkvec3 3.2 0.525 0)) = 0.5).
  { unfold scaledPos; cbn.
    replace (vdiv _ _) with (mkvec3 0.4 0.3 0) by (apply vec3_eq; simpl; lra).
    apply length_xy; lra. }
  assert (Hr : 3.2 < length (mkvec3 3.2 0.525 0)).
  { replace 3.2 with (length (mkvec3 3.2 0 0)) at 1
      by (rewrite length_axis_x, Rabs_pos_eq; lra).
    apply length_height_monotone. rewrite Rabs_R0, Rabs_pos_eq; lra. }
  assert (Hs : smoothstep (uDiskInner Scene.thickDisk) (uDiskInner Scene.thickDisk * 1.1)
                 (length (mkvec3 3.2 0.525 0)) = 1)
    by (apply smoothstep_above; cbn; lra).
  eexists. split.
  - apply diskDensity_iff; [cbn; lra|].
    rewrite HL, Hs. cbn [y3 uDiskThickness Scene.thickDisk].
    rewrite (Rabs_pos_eq 0.525) by lra.
    split; [lra | split; [lra | reflexivity]].
  - rewrite pow_fourth by lra.
    assert (H4 : 0 < length (mkvec3 3.2 0.525 0) * length (mkvec3 3.2 0.525 0)
                   * length (mkvec3 3.2 0.525 0) * length (mkvec3 3.2 0.525 0)).
    { repeat apply Rmult_lt_0_compat; lra. }
    apply Rmult_lt_0_compat; [|lra].
    apply Rmult_lt_0_compat; [lra|].
    apply Rdiv_lt_0_compat; lra.
Qed.

Lemma rotateVector_still (d axis : vec3 R) (angle : R) :
  angle = 0 -> rotateVector d axis angle = d.
Proof.
  intros ->. unfold rotateVector, quadFromAxisAngle.
  replace (0 * 0.5 * PI / 180.0) with 0 by (unfold PI; lra).
  rewrite sin_0, cos_0.
  destruct d as [a b c]. apply vec3_eq; cbn; ring.
Qed.

End ClaimFacts.

(** * Part III: the claims *)

Import Glsl GlslFacts KerrShader KerrFacts SceneFacts ClaimFacts.

(** C1, as stated, fails on [traceColor]: the ray that starts inside the
    disk and runs to the centre is stopped by the horizon test at
    iteration 28 and the colour returned for it is not black. *)
Lemma C1_absorbed_ray_not_black :
  exists s : RayState,
    rayAt Scene.inDisk 28 Scene.inDiskPos Scene.inwards = Some s /\
    (28 < MAX_STEPS)%nat /\
    length (pos s) < eventHorizon Scene.inDisk /\
    traceColor Scene.inDisk Scene.inDiskPos Scene.inwards <> mkvec3 0 0 0.
Proof.
  destruct inDisk_ray as (s & Hs & Hr & Hc).
  exists s. repeat split; try assumption.
  - unfold MAX_STEPS. lia.
  - rewrite (traceColor_absorbed _ _ _ 28%nat s) by (try assumption; unfold MAX_STEPS; lia).
    intros E. rewrite E in Hc. simpl in Hc. lra.
Qed.

(** C1, amended: when the loop of [traceColor] stops at the horizon test,
    the colour returned is exactly the colour accumulated by the earlier
    iterations, with nothing added at termination; in
    gravitational_lensing.glsl, whose loop accumulates nothing, the colour
    of the ray is then exactly black. *)
Theorem C1_absorbed_returns_accumulated :
  (forall (u : Uniforms) (p d : vec3 R) (n : nat) (s : RayState),
      (n < MAX_STEPS)%nat -> rayAt u n p d = Some s ->
      length (pos s) < eventHorizon u ->
      traceColor u p d = color s) /\
  (forall (u : Lensing.Uniforms) (p v p' v' : vec3 R) (n : nat),
      (n < Lensing.MAX_STEPS)%nat ->
      Lensing.marchState u n p v = Some (p', v') ->
      length p' < Lensing.SCHWARZSCHILD_RADIUS * 1.05 ->
      Lensing.march u Lensing.MAX_STEPS p v = mkvec3 0 0 0).
Proof.
  split.
  - intros u p d n s. apply traceColor_absorbed.
  - intros u p v p' v' n. apply march_absorbed.
Qed.

(** The amended C1 at the ray from inside the disk (absorbed at iteration
    28) and at the centre ray of the front camera of the lensing shader
    (absorbed at iteration 130). *)
Lemma C1_witness :
  (exists s : RayState,
      rayAt Scene.inDisk 28 Scene.inDiskPos Scene.inwards = Some s /\
      traceColor Scene.inDisk Scene.inDiskPos Scene.inwards = color s) /\
  Lensing.march Scene.lensFront Lensing.MAX_STEPS (mkvec3 0 0 15) (mkvec3 0 0 (-1)) =
    mkvec3 0 0 0.
Proof.
  split.
  - destruct inDisk_ray as (s & Hs & Hr & _).
    exists s. split; [exact Hs|].
    apply (proj1 C1_absorbed_returns_accumulated _ _ _ 28%nat s);
      [unfold MAX_STEPS; lia | exact Hs | exact Hr].
  - refine (proj2 C1_absorbed_returns_accumulated Scene.lensFront _ _ _ _ 130%nat
                    _ lensFront_ray _); [unfold Lensing.MAX_STEPS; lia|].
    rewrite length_axis_z, (INR_lit 130). cbn.
    unfold Lensing.SCHWARZSCHILD_RADIUS. rewrite Rabs_pos_eq; lra.
Defined.

(** C2, as stated, fails: at [pos = (2, 0, 0)] and [h2 = 1] the shader
    returns [-1.5 * pos / 2^5], twice the value of the law
    [-1.5 * rhat / 2^5] of the specification. *)
Lemma C2_accel_differs_from_law :
  1 <= length (mkvec3 2 0 0) /\ 0 <= 1 /\
  accel 1 (mkvec3 2 0 0) <> Spec.accelLaw 1 (mkvec3 2 0 0).
Proof.
  assert (Hl : length (mkvec3 2 0 0) = 2) by (rewrite length_axis_x, Rabs_pos_eq; lra).
  split; [rewrite Hl; lra|]. split; [lra|].
  rewrite accel_outside by (rewrite Hl; lra).
  unfold Spec.accelLaw. rewrite Hl.
  intros E. apply (f_equal x3) in E. cbn in E. lra.
Qed.

(** C2, amended: for [|pos| >= 1] the shader returns
    [-1.5 * h2 * pos / r^5], that is [-1.5 * h2 * rhat / r^4], with
    [r = |pos|] and [rhat = pos / r]. *)
Theorem C2_accel_inverse_fourth_power (h2 : R) (p : vec3 R) :
  1 <= length p ->
  accel h2 p = vdivs (sscale (-1.5 * h2) p) (length p ^ 5) /\
  accel h2 p = vdivs (sscale (-1.5 * h2) (vdivs p (length p))) (length p ^ 4).
Proof.
  intros Hr. rewrite accel_outside by assumption. split; [reflexivity|].
  apply vec3_eq; cbn [vdivs sscale map3 x3 y3 z3]; field; lra.
Qed.

(** The amended C2 at [pos = (2, 0, 0)], [h2 = 1]. *)
Lemma C2_witness :
  accel 1 (mkvec3 2 0 0) = vdivs (sscale (-1.5 * 1) (mkvec3 2 0 0)) (length (mkvec3 2 0 0) ^ 5).
Proof.
  apply (C2_accel_inverse_fourth_power 1 (mkvec3 2 0 0)).
  rewrite length_axis_x, Rabs_pos_eq; lra.
Defined.

(** C3, as stated, fails for the Kerr formula of the lensing shader: its
    mass is floored at 0.0001, so at [M = 0.00005] and spin 0 the radius is
    0.0002 and not [2 M = 0.0001]. *)
Lemma C3_small_mass_horizon :
  0 < 0.00005 /\ KerrLensing.kerrEventHorizon 0.00005 0 <> 2 * 0.00005.
Proof.
  split; [lra|]. rewrite kerrLensing_horizon_spin0.
  rewrite Rmax_right by lra. lra.
Qed.

(** C3, amended: at spin 0 and for every mass [M > 0] the reduced formula
    of [traceColor] and the TypeScript [kerrEventHorizon] give [2 M]; the
    Kerr formula of the lensing shader gives [2 max(M, 0.0001)], which is
    [2 M] from [M = 0.0001] on. *)
Theorem C3_horizon_at_spin_zero (u : Uniforms) (M : R) :
  0 < M -> uMass u = M -> uSpin u = 0 ->
  eventHorizon u = 2 * M /\
  Physics.kerrEventHorizon M 0 = 2 * M /\
  KerrLensing.kerrEventHorizon M 0 = 2 * Rmax M 0.0001 /\
  (0.0001 <= M -> KerrLensing.kerrEventHorizon M 0 = 2 * M).
Proof.
  intros HM Hu Hs. repeat split.
  - unfold eventHorizon. rewrite Hu, Hs. lra.
  - unfold Physics.kerrEventHorizon.
    replace (M * M - 0 * M * (0 * M)) with (M * M) by ring.
    rewrite sqrt_square by lra. lra.
  - apply kerrLensing_horizon_spin0.
  - intros H. rewrite kerrLensing_horizon_spin0, Rmax_left by lra. reflexivity.
Qed.

(** The amended C3 at mass 1. *)
Lemma C3_witness :
  eventHorizon Scene.thickDisk = 2 * 1 /\
  Physics.kerrEventHorizon 1 0 = 2 * 1 /\
  KerrLensing.kerrEventHorizon 1 0 = 2 * 1.
Proof.
  destruct (C3_horizon_at_spin_zero Scene.thickDisk 1) as (H1 & H2 & _ & H4);
    [lra | reflexivity | reflexivity |].
  repeat split; [exact H1 | exact H2 | apply H4; lra].
Defined.

(** C4: a ray still active after [MAX_STEPS] iterations gets the colour
    that the escape branch computes from the same direction, colour and
    alpha: the background sampled at the normalised final direction, added
    to the accumulated colour in [traceColor], taken as the colour in
    gravitational_lensing.glsl.  The functions are total: there is no
    failure. *)
Theorem C4_budget_exhaustion_as_escape :
  (forall (u : Uniforms) (p d : vec3 R) (s : RayState),
      rayAt u MAX_STEPS p d = Some s ->
      traceColor u p d =
        vadd (color s) (vscale (sampleBackground u (normalize (dir s))) (alpha s)) /\
      forall (h2 : R) (s' : RayState),
        dir s' = dir s -> color s' = color s -> alpha s' = alpha s ->
        ~ length (pos s') < eventHorizon u -> 100.0 < length (pos s') ->
        traceStep u h2 s' = Return (traceColor u p d)) /\
  (forall (u : Lensing.Uniforms) (p v p' v' : vec3 R),
      Lensing.marchState u Lensing.MAX_STEPS p v = Some (p', v') ->
      Lensing.march u Lensing.MAX_STEPS p v = Lensing.sampleBackground (normalize v') /\
      forall q : vec3 R,
        ~ length q < Lensing.SCHWARZSCHILD_RADIUS * 1.05 -> 100.0 < length q ->
        Lensing.marchStep u q v' = Lensing.Break (Lensing.march u Lensing.MAX_STEPS p v)).
Proof.
  split.
  - intros u p d s Hs. pose proof (traceColor_exhausted u p d s Hs) as E.
    split; [exact E|].
    intros h2 s' Hd Hc Ha H1 H2.
    rewrite (traceStep_escaped u h2 s' H1 H2), E, Hd, Hc, Ha. reflexivity.
  - intros u p v p' v' Hs. pose proof (march_exhausted u p v p' v' Hs) as E.
    split; [exact E|].
    intros q H1 H2. rewrite (LensingFacts.marchStep_escaped u q v' H1 H2), E. reflexivity.
Qed.

(** C4 at the ray pointing away from the hole, which is still active
    after 300 iterations, and at the ray leaving the hole behind the camera
    of the lensing shader, still active after 256. *)
Lemma C4_witness :
  (exists s : RayState,
      rayAt Scene.farAway MAX_STEPS Scene.farPos Scene.outwards = Some s /\
      traceColor Scene.farAway Scene.farPos Scene.outwards =
        vadd (color s)
             (vscale (sampleBackground Scene.farAway (normalize (dir s))) (alpha s))) /\
  Lensing.march Scene.lensBehind Lensing.MAX_STEPS (mkvec3 0 0 (-15)) (mkvec3 0 0 (-1)) =
    Lensing.sampleBackground (normalize (mkvec3 0 0 (-1))).
Proof.
  split.
  - destruct farAway_ray as (s & Hs).
    exists s. split; [exact Hs|].
    exact (proj1 (proj1 C4_budget_exhaustion_as_escape _ _ _ s Hs)).
  - exact (proj1 (proj2 C4_budget_exhaustion_as_escape _ _ _ _ _ lensBehind_ray)).
Defined.

(** C5, as stated, fails in its second half: in the thick disk the points
    (2.4, 0, 0) and (2.4, 0.7, 0) are both inside the ellipsoid, with the
    same horizontal coordinates, and the density is 0 at [|y| = 0] and
    positive at [|y| = 0.7]. *)
Lemma C5_density_grows_with_height :
  length (scaledPos Scene.thickDisk (mkvec3 2.4 0 0)) < 1 /\
  length (scaledPos Scene.thickDisk (mkvec3 2.4 0.7 0)) < 1 /\
  Rabs 0 < Rabs 0.7 /\
  densityValue Scene.thickDisk (mkvec3 2.4 0 0)
    < densityValue Scene.thickDisk (mkvec3 2.4 0.7 0).
Proof.
  repeat split.
  - unfold scaledPos; cbn.
    replace (vdiv _ _) with (mkvec3 0.3 0 0) by (apply vec3_eq; simpl; lra).
    rewrite length_axis_x, Rabs_pos_eq; lra.
  - rewrite thickDisk_scaled_above. lra.
  - rewrite Rabs_R0, Rabs_pos_eq; lra.
  - rewrite thickDisk_on_plane. apply thickDisk_above.
Qed.

(** C5, amended: outside the ellipsoid the density is zero and
    [adiskColor] leaves the colour unchanged.  Inside it, the density that
    weights the colour is
    [(1 - |pos'|) (1 - |y|/thickness)^2 smoothstep(inner, 1.1 inner, |pos|)
    32000 / |pos|^4], with [pos'] the position scaled to the ellipsoid, when
    [1 - |pos'|] and the product of the first three factors both reach
    0.001, and zero otherwise.  At fixed horizontal coordinates it does
    not increase with [|y|], and is strictly decreasing in [|y|] wherever
    it is positive, when the lower point is past the inner-edge ramp
    ([|pos| >= 1.1 inner]); it does not increase either when the higher
    point is within the inner radius, where it is zero.  For a pair of
    points across the ramp it can grow with [|y|]. *)
Theorem C5_disk_density (u : Uniforms) :
  (forall (p c : vec3 R) (a : R),
      1 <= length (scaledPos u p) ->
      diskDensity u p = None /\ densityValue u p = 0 /\ adiskColor u p c a = (c, a)) /\
  (forall x z y1 y2 : R,
      0 < uDiskInner u -> 0 < uDiskThickness u -> Rabs y1 < Rabs y2 ->
      uDiskInner u * 1.1 <= length (mkvec3 x y1 z) \/
      length (mkvec3 x y2 z) <= uDiskInner u ->
      densityValue u (mkvec3 x y2 z) <= densityValue u (mkvec3 x y1 z) /\
      (0 < densityValue u (mkvec3 x y2 z) ->
       densityValue u (mkvec3 x y2 z) < densityValue u (mkvec3 x y1 z))) /\
  (forall (p : vec3 R) (d : R),
      0 < uDiskThickness u ->
      (diskDensity u p = Some d <->
       0.001 <= 1 - length (scaledPos u p) /\
       0.001 <= (1 - length (scaledPos u p))
                * ((1 - Rabs (y3 p) / uDiskThickness u)
                   * (1 - Rabs (y3 p) / uDiskThickness u))
                * smoothstep (uDiskInner u) (uDiskInner u * 1.1) (length p) /\
       d = (1 - length (scaledPos u p))
           * ((1 - Rabs (y3 p) / uDiskThickness u)
              * (1 - Rabs (y3 p) / uDiskThickness u))
           * smoothstep (uDiskInner u) (uDiskInner u * 1.1) (length p)
           * (1.0 / pow (length p) 4.0) * 32000.0)) /\
  (forall (p c : vec3 R) (a d : R),
      diskDensity u p = Some d ->
      densityValue u p = d /\
      adiskColor u p c a =
        (vadd c (vscale (vscale (sscale (d * 0.8) (diskColor u p)) a)
                        (Rabs (diskNoise u p))), a)).
Proof.
  split; [|split; [|split]].
  - intros p c a H. pose proof (diskDensity_outside u p H) as E.
    split; [exact E|]. unfold densityValue, adiskColor. now rewrite E.
  - apply densityValue_monotone.
  - intros p d. apply diskDensity_iff.
  - intros p c a d E. unfold densityValue, adiskColor. now rewrite E.
Qed.

(** The amended C5 in the thick disk (inner radius 2.4, outer radius 8,
    thickness 1.75): nothing at the outer rim (8, 0, 0); at [x = 3.2],
    past the inner ramp, strictly less density at height 0.525 than on the
    plane; and the sample at height 0.525 emits, within the first
    threshold. *)
Lemma C5_witness :
  adiskColor Scene.thickDisk (mkvec3 8 0 0) (vec3s 0.0) 1.0 = (vec3s 0.0, 1.0) /\
  densityValue Scene.thickDisk (mkvec3 3.2 0.525 0)
    < densityValue Scene.thickDisk (mkvec3 3.2 0 0) /\
  exists d : R,
    diskDensity Scene.thickDisk (mkvec3 3.2 0.525 0) = Some d /\
    densityValue Scene.thickDisk (mkvec3 3.2 0.525 0) = d /\
    0.001 <= 1 - length (scaledPos Scene.thickDisk (mkvec3 3.2 0.525 0)).
Proof.
  split; [|split].
  3: {
    destruct thickDisk_outer_sample as (d & E & _).
    exists d. split; [exact E|]. split.
    - exact (proj1 (proj2 (proj2 (proj2 (C5_disk_density Scene.thickDisk)))
                      _ (vec3s 0.0) 1.0 d E)).
    - assert (HT : 0 < uDiskThickness Scene.thickDisk) by (cbn; lra).
      exact (proj1 (proj1 (proj1 (proj2 (proj2 (C5_disk_density Scene.thickDisk)))
                             _ d HT) E)). }
  - apply (proj1 (C5_disk_density Scene.thickDisk)).
    unfold scaledPos; cbn.
    replace (vdiv _ _) with (mkvec3 1 0 0) by (apply vec3_eq; simpl; lra).
    rewrite length_axis_x, Rabs_pos_eq; lra.
  - apply (proj1 (proj2 (C5_disk_density Scene.thickDisk)) 3.2 0 0 0.525).
    + cbn. lra.
    + cbn. lra.
    + rewrite Rabs_R0, Rabs_pos_eq; lra.
    + left. rewrite length_axis_x, Rabs_pos_eq by lra. cbn. lra.
    + unfold densityValue.
      destruct thickDisk_outer_sample as (d & E & Hd). rewrite E. exact Hd.
Defined.

(** C6, as stated, fails on [traceColor]: after the first iteration of
    the ray from inside the disk the direction has length 0.1. *)
Lemma C6_direction_not_unit :
  exists s : RayState,
    rayAt Scene.inDisk 1 Scene.inDiskPos Scene.inwards = Some s /\
    length (dir s) <> 1.
Proof.
  destruct (rayAt_radial Scene.inDisk 1 3.75 (-1)) as (s & Hs & _ & Hd & _).
  { intros k Hk. apply INR_bound in Hk. cbn in Hk.
    rewrite horizon_inDisk, Rabs_pos_eq; lra. }
  exists s. split; [exact Hs|].
  rewrite Hd, length_axis_x. rewrite <- Rabs_Ropp, Rabs_pos_eq; lra.
Qed.

(** C6, amended: in gravitational_lensing.glsl every [rk4Step] ends by
    normalising the velocity, which then has unit length whenever the
    integrated velocity is not the zero vector; the loop of [traceColor]
    keeps the direction scaled by the step size and only adds the
    acceleration to it. *)
Theorem C6_velocity_renormalised :
  (forall (p v : vec3 R) (dt : R),
      length (snd (Lensing.rk4Update p v dt)) <> 0 ->
      snd (Lensing.rk4Step p v dt) = normalize (snd (Lensing.rk4Update p v dt)) /\
      length (snd (Lensing.rk4Step p v dt)) = 1) /\
  (forall (u : Uniforms) (h2 : R) (s s' : RayState),
      traceStep u h2 s = Continue s' ->
      dir s' = vadd (dir s) (accel h2 (pos s))).
Proof.
  split.
  - intros p v dt H. split.
    + unfold Lensing.rk4Step. now destruct (Lensing.rk4Update p v dt).
    + now apply LensingFacts.rk4Step_unit.
  - intros u h2 s s' E. apply traceStep_Continue in E as (_ & _ & ->). reflexivity.
Qed.

(** The amended C6 at the first step of the centre ray of the front
    camera. *)
Lemma C6_witness :
  length (snd (Lensing.rk4Step (mkvec3 0 0 15) (mkvec3 0 0 (-1)) Lensing.STEP_SIZE)) = 1.
Proof.
  apply (proj1 C6_velocity_renormalised).
  rewrite LensingFacts.rk4Update_axis. cbn [snd].
  rewrite length_axis_z, <- Rabs_Ropp, Rabs_pos_eq; lra.
Defined.

(** C7, as stated, fails on kerr_postprocess.glsl: at start-up the
    direction (0, 1, 0) is mapped to [v = 0.5 - asin(1)/PI], not to
    [asin(1)/PI + 0.5]. *)
Lemma C7_background_uv_mirrored :
  length (mkvec3 0 1 0) = 1 /\
  backgroundUV Scene.inDisk (mkvec3 0 1 0) <> Spec.equirectUV (mkvec3 0 1 0).
Proof.
  split.
  - unfold length, dot; cbn [x3 y3 z3].
    replace (0 * 0 + 1 * 1 + 0 * 0) with 1 by ring. apply sqrt_1.
  - unfold backgroundUV, Spec.equirectUV.
    rewrite rotateVector_still by (cbn; lra). cbn [x3 y3 z3].
    intros E. apply (f_equal y2) in E. cbn [y2] in E.
    replace (clamp 1 (-1.0) 1.0) with 1 in E by (rewrite clamp_id; lra).
    replace (clamp 1 (-1) 1) with 1 in E by (rewrite clamp_id; lra).
    rewrite asin_1 in E. pose proof PI_RGT_0 as Hpi.
    assert (Hq : 0 < Rtrigo1.PI / 2 / PI).
    { apply Rdiv_lt_0_compat; [lra | unfold PI; lra]. }
    lra.
Qed.

(** C7, amended: the samplers of the lensing shaders map a direction to
    [u = atan2(dz, dx)/(2 PI) + 0.5], [v = asin(clamp(dy, -1, 1))/PI + 0.5]
    and the texture is read there; kerr_postprocess.glsl and
    kerr_blackhole.glsl first rotate the direction about the y axis by
    [uTime * 10] degrees and use the mirrored coordinates [1 - u] and
    [1 - v] of the rotated direction: these are the [uv] of
    [sampleBackground], and the colour it returns is the star field
    generated at them. *)
Theorem C7_background_uv :
  (forall d : vec3 R, Lensing.backgroundUV d = Spec.equirectUV d) /\
  (forall d : vec3 R, KerrLensing.backgroundUV d = Spec.equirectUV d) /\
  (forall (tex : vec2 R -> vec4 R) (d : vec3 R),
      KerrLensing.sampleBackground tex d =
        mkvec3 (x4 (tex (Spec.equirectUV d))) (y4 (tex (Spec.equirectUV d)))
               (z4 (tex (Spec.equirectUV d)))) /\
  (forall d : vec3 R,
      KerrLensing.proceduralStars d =
        vscale (vec3s (fold_left (KerrLensing.starStep (Spec.equirectUV d)) (seq 0 3) 0.0))
               0.9) /\
  (forall d : vec3 R,
      Lensing.sampleBackground d =
        vscale (vec3s (fold_left (Lensing.starStep (Spec.equirectUV d)) (seq 0 3) 0.0))
               0.9) /\
  (forall (u : Uniforms) (d : vec3 R),
      let d' := rotateVector d (mkvec3 0.0 1.0 0.0) (uTime u * 10.0) in
      x2 (backgroundUV u d) = 1 - x2 (Spec.equirectUV d') /\
      y2 (backgroundUV u d) = 1 - y2 (Spec.equirectUV d')) /\
  (forall (u : Uniforms) (d : vec3 R),
      let d' := rotateVector d (mkvec3 0.0 1.0 0.0) (uTime u * 10.0) in
      let uv := mkvec2 (1 - x2 (Spec.equirectUV d')) (1 - y2 (Spec.equirectUV d')) in
      sampleBackground u d = vscale (vec3s (fold_left (starStep uv) (seq 0 3) 0.0)) 0.9).
Proof.
  assert (E : forall d, KerrLensing.backgroundUV d = Spec.equirectUV d).
  { intros d. unfold KerrLensing.backgroundUV, Spec.equirectUV.
    f_equal; unfold KerrLensing.PI, PI.
    - replace (2.0 * 3.14159265359) with (2 * 3.14159265359) by lra. reflexivity.
    - replace (-1.0) with (-1) by lra. replace 1.0 with 1 by lra. reflexivity. }
  assert (K : forall (u : Uniforms) (d : vec3 R),
             backgroundUV u d =
               mkvec2 (1 - x2 (Spec.equirectUV
                                 (rotateVector d (mkvec3 0.0 1.0 0.0) (uTime u * 10.0))))
                      (1 - y2 (Spec.equirectUV
                                 (rotateVector d (mkvec3 0.0 1.0 0.0) (uTime u * 10.0))))).
  { intros u d. unfold backgroundUV, Spec.equirectUV; cbn [x2 y2]. f_equal.
    - replace (2.0 * PI) with (2 * PI) by lra. lra.
    - replace (-1.0) with (-1) by lra. replace 1.0 with 1 by lra. lra. }
  split; [exact E|]. split; [exact E|]. split; [|split; [|split; [|split]]].
  - intros tex d. unfold KerrLensing.sampleBackground. now rewrite E.
  - intros d. unfold KerrLensing.proceduralStars. now rewrite E.
  - intros d. unfold Lensing.sampleBackground.
    change (Lensing.backgroundUV d) with (KerrLensing.backgroundUV d). now rewrite E.
  - intros u d d'. rewrite K. cbn [x2 y2]. split; reflexivity.
  - intros u d d' uv. unfold sampleBackground. rewrite K. reflexivity.
Qed.

(** C8: [adiskColor] returns the alpha it was given, so alpha is 1 at
    every iteration of the loop of [traceColor], hence at termination, and
    every disk sample is accumulated with the weight alpha = 1. *)
Theorem C8_alpha_stays_one (u : Uniforms) :
  (forall (p c : vec3 R) (a : R), snd (adiskColor u p c a) = a) /\
  (forall (p d : vec3 R) (n : nat) (s : RayState),
      rayAt u n p d = Some s -> alpha s = 1.0) /\
  (forall (p d : vec3 R) (n : nat) (s s' : RayState),
      rayAt u n p d = Some s -> rayAt u (S n) p d = Some s' ->
      color s' = fst (adiskColor u (pos s) (color s) 1.0)).
Proof.
  split; [|split].
  - apply adiskColor_alpha.
  - intros p d n s. apply rayAt_alpha.
  - intros p d n s s' Hs Hs'.
    pose proof (rayAt_next u p d n s s' Hs Hs') as E.
    apply traceStep_Continue in E as (_ & _ & ->). simpl.
    now rewrite (rayAt_alpha u p d n s Hs).
Qed.

(** C8 at the last two iterations of the ray from inside the disk. *)
Lemma C8_witness :
  exists s s' : RayState,
    rayAt Scene.inDisk 27 Scene.inDiskPos Scene.inwards = Some s /\
    rayAt Scene.inDisk 28 Scene.inDiskPos Scene.inwards = Some s' /\
    alpha s' = 1.0 /\
    color s' = fst (adiskColor Scene.inDisk (pos s) (color s) 1.0).
Proof.
  destruct inDisk_ray as (s' & Hs' & _).
  assert (H := Hs'). unfold rayAt in H. rewrite rayState_S in H.
  destruct (rayState Scene.inDisk 27 _ _) as [s|] eqn:Hs; [|discriminate].
  exists s, s'. repeat split; try assumption.
  - exact (proj1 (proj2 (C8_alpha_stays_one Scene.inDisk)) _ _ 28%nat s' Hs').
  - exact (proj2 (proj2 (C8_alpha_stays_one Scene.inDisk)) _ _ 27%nat s s' Hs Hs').
Defined.

(** C10: a call of [adiskColor] with a non-negative alpha never lowers a
    component of the colour, and the accumulated colour of a ray is
    componentwise non-decreasing from one iteration to the next. *)
Theorem C10_colour_non_decreasing (u : Uniforms) :
  (forall (p c : vec3 R) (a : R), 0 <= a -> vle c (fst (adiskColor u p c a))) /\
  (forall (p d : vec3 R) (n : nat) (s s' : RayState),
      rayAt u n p d = Some s -> rayAt u (S n) p d = Some s' ->
      vle (color s) (color s')).
Proof.
  split.
  - apply adiskColor_mono.
  - intros p d n s s' Hs Hs'.
    pose proof (rayAt_next u p d n s s' Hs Hs') as E.
    apply traceStep_Continue in E as (_ & _ & ->). simpl.
    apply adiskColor_mono. rewrite (rayAt_alpha u p d n s Hs). lra.
Qed.

(** C10 at the first sample and at the last two iterations of the ray
    from inside the disk. *)
Lemma C10_witness :
  vle (vec3s 0.0) (fst (adiskColor Scene.inDisk Scene.inDiskPos (vec3s 0.0) 1.0)) /\
  exists s s' : RayState,
    rayAt Scene.inDisk 27 Scene.inDiskPos Scene.inwards = Some s /\
    rayAt Scene.inDisk 28 Scene.inDiskPos Scene.inwards = Some s' /\
    vle (color s) (color s').
Proof.
  split.
  - apply (proj1 (C10_colour_non_decreasing Scene.inDisk)). lra.
  - destruct inDisk_ray as (s' & Hs' & _).
    assert (H := Hs'). unfold rayAt in H. rewrite rayState_S in H.
    destruct (rayState Scene.inDisk 27 _ _) as [s|] eqn:Hs; [|discriminate].
    exists s, s'. repeat split; try assumption;
      apply (proj2 (C10_colour_non_decreasing Scene.inDisk) _ _ 27%nat s s' Hs Hs').
Defined.

(** * Part IV: further properties of the code

    Properties of the functions that the claims leave aside, and of the
    callers and callees of those they cite: the helper lemmas first, by
    source file, then the theorems. *)

(** ** Lemmas on kerr_postprocess.glsl and kerr_blackhole.glsl *)

Module KerrMore.
Import Glsl GlslFacts KerrShader KerrFacts SceneFacts ClaimFacts.

(** The acceleration is a multiple of the position. *)
Lemma accel_central (h2 : R) (p : vec3 R) :
  exists k : R, accel h2 p = sscale k p /\ (0 <= h2 -> k <= 0).
Proof.
  unfold accel. destruct (Rlt_dec _ _).
  - exists 0. split; [apply vec3_eq; simpl; lra | lra].
  - exists (-1.5 * h2 / pow (dot p p) 2.5). split.
    + apply vec3_eq; cbn [vdivs sscale map3 x3 y3 z3]; unfold Rdiv; ring.
    + intros H. pose proof (pow_nonneg (dot p p) 2.5) as Hp.
      assert (0 <= / pow (dot p p) 2.5).
      { destruct Hp as [Hp| <-]; [left; now apply Rinv_0_lt_compat | rewrite Rinv_0; lra]. }
      unfold Rdiv. nra.
Qed.

Lemma cross_step (p d : vec3 R) (k : R) :
  cross (vadd p (vadd d (sscale k p))) (vadd d (sscale k p)) = cross p d.
Proof.
  apply vec3_eq; cbn [cross vadd sscale zip3 map3 x3 y3 z3]; ring.
Qed.

Lemma traceStep_momentum (u : Uniforms) (h2 : R) (s s' : RayState) :
  traceStep u h2 s = Continue s' -> cross (pos s') (dir s') = cross (pos s) (dir s).
Proof.
  intros E. apply traceStep_Continue in E as (_ & _ & ->). cbn [pos dir].
  destruct (accel_central h2 (pos s)) as (k & -> & _). apply cross_step.
Qed.

Lemma rayState_momentum (u : Uniforms) (n : nat) (h2 : R) (s s' : RayState) :
  rayState u n h2 s = Some s' -> cross (pos s') (dir s') = cross (pos s) (dir s).
Proof.
  revert s. induction n as [|n IH]; intros s H; simpl in H.
  - now injection H as ->.
  - destruct (traceStep u h2 s) as [|s1] eqn:E; [discriminate|].
    rewrite (IH _ H). now apply traceStep_momentum with u h2.
Qed.

Lemma cross_orthogonal (a b : vec3 R) : dot (cross a b) a = 0 /\ dot (cross a b) b = 0.
Proof. unfold dot, cross; cbn [x3 y3 z3]. split; ring. Qed.

Lemma angular_momentum_conserved (u : Uniforms) (p d : vec3 R) (n : nat) (s : RayState) :
  rayAt u n p d = Some s ->
  cross (pos s) (dir s) = cross p (vscale d STEP_SIZE) /\
  dot (cross (pos s) (dir s)) (cross (pos s) (dir s)) = angularMomentum2 p d /\
  dot (cross p (vscale d STEP_SIZE)) (pos s) = 0 /\
  dot (cross p (vscale d STEP_SIZE)) (dir s) = 0.
Proof.
  intros H. apply rayState_momentum in H. cbn [initRay pos dir] in H.
  repeat split.
  - exact H.
  - rewrite H. reflexivity.
  - rewrite <- H. apply cross_orthogonal.
  - rewrite <- H. apply cross_orthogonal.
Qed.

Lemma angularMomentum2_nonneg (p d : vec3 R) : 0 <= angularMomentum2 p d.
Proof. unfold angularMomentum2. apply dot_nonneg. Qed.

Lemma accel_attractive (p d q : vec3 R) :
  cross q (accel (angularMomentum2 p d) q) = mkvec3 0 0 0 /\
  dot q (accel (angularMomentum2 p d) q) <= 0.
Proof.
  destruct (accel_central (angularMomentum2 p d) q) as (k & -> & Hk).
  specialize (Hk (angularMomentum2_nonneg p d)). split.
  - apply vec3_eq; cbn [cross sscale map3 x3 y3 z3]; ring.
  - unfold dot; cbn [sscale map3 x3 y3 z3].
    replace (x3 q * (k * x3 q) + y3 q * (k * y3 q) + z3 q * (k * z3 q))
      with (k * dot q q) by (unfold dot; ring).
    pose proof (dot_nonneg q). nra.
Qed.

(** *** The background *)

Lemma step_cases (e x : R) : step e x = 0 \/ step e x = 1.
Proof. unfold step. destruct (Rlt_dec x e); auto. Qed.

Lemma fold_stars_range (f : R -> nat -> R) :
  (forall (acc : R) (i : nat),
     exists t, (t = 0 \/ t = 1) /\ f acc i = acc + t * (1.0 - INR i * 0.25)) ->
  0 <= fold_left f (seq 0 3) 0.0 <= 2.25.
Proof.
  intros Hf. cbn [seq fold_left].
  destruct (Hf 0.0 0%nat) as (t0 & H0 & ->).
  destruct (Hf (0.0 + t0 * (1.0 - INR 0 * 0.25)) 1%nat) as (t1 & H1 & ->).
  destruct (Hf (0.0 + t0 * (1.0 - INR 0 * 0.25) + t1 * (1.0 - INR 1 * 0.25)) 2%nat)
    as (t2 & H2 & ->).
  cbn [INR].
  destruct H0 as [-> | ->], H1 as [-> | ->], H2 as [-> | ->]; lra.
Qed.

Lemma sampleBackground_range (u : Uniforms) (d : vec3 R) :
  exists g : R, sampleBackground u d = mkvec3 g g g /\ 0 <= g <= 2.025.
Proof.
  unfold sampleBackground.
  set (stars := fold_left _ _ _).
  assert (Hs : 0 <= stars <= 2.25).
  { apply fold_stars_range. intros acc i. unfold starStep.
    eexists. split; [apply step_cases | reflexivity]. }
  exists (stars * 0.9). split; [reflexivity | lra].
Qed.

Lemma traceLoop_nonneg (u : Uniforms) (n : nat) (h2 : R) (s : RayState) :
  vle (mkvec3 0 0 0) (color s) -> 0 <= alpha s ->
  vle (mkvec3 0 0 0) (traceLoop u n h2 s).
Proof.
  assert (Hbg : forall s0 : RayState,
             vle (mkvec3 0 0 0) (color s0) -> 0 <= alpha s0 ->
             vle (mkvec3 0 0 0)
               (vadd (color s0) (vscale (sampleBackground u (normalize (dir s0))) (alpha s0)))).
  { intros s0 (Hx & Hy & Hz) Ha.
    destruct (sampleBackground_range u (normalize (dir s0))) as (g & -> & Hg).
    unfold vle in *; cbn [vadd vscale zip3 map3 x3 y3 z3] in *.
    assert (0 <= g * alpha s0) by (apply Rmult_le_pos; lra). lra. }
  revert s. induction n as [|n IH]; intros s Hc Ha.
  - cbn [traceLoop]. now apply Hbg.
  - cbn [traceLoop]. destruct (traceStep u h2 s) as [c|s'] eqn:E.
    + unfold traceStep in E.
      destruct (Rlt_dec _ _); [injection E as <-; exact Hc|].
      destruct (Rlt_dec _ _); [injection E as <-; now apply Hbg|].
      destruct (adiskColor _ _ _ _); discriminate.
    + apply traceStep_Continue in E as (_ & _ & ->). apply IH; cbn [color alpha].
      * eapply vle_trans; [exact Hc | now apply adiskColor_mono].
      * now rewrite adiskColor_alpha.
Qed.

Lemma traceColor_nonneg (u : Uniforms) (p d : vec3 R) :
  vle (mkvec3 0 0 0) (traceColor u p d).
Proof.
  unfold traceColor. apply traceLoop_nonneg; cbn; unfold vle; cbn; lra.
Qed.

(** *** Rotation of the background *)

Lemma rotateVector_about_y (d : vec3 R) (angle : R) :
  let t := angle * PI / 180.0 in
  rotateVector d (mkvec3 0.0 1.0 0.0) angle =
    mkvec3 (x3 d * cos t + z3 d * sin t) (y3 d) (z3 d * cos t - x3 d * sin t).
Proof.
  intros t. unfold rotateVector, quadFromAxisAngle.
  set (h := angle * 0.5 * PI / 180.0).
  assert (Ht : t = 2 * h) by (unfold t, h; lra).
  rewrite Ht, sin_2a, cos_2a.
  pose proof (sin2_cos2 h) as Hsc. unfold Rsqr in Hsc.
  set (s := sin h) in *. set (c := cos h) in *.
  apply vec3_eq; cbn [quat_mult quadConj x3 y3 z3 x4 y4 z4 w4].
  - replace 0.0 with 0 by lra. replace 1.0 with 1 by lra. ring.
  - replace 0.0 with 0 by lra. replace 1.0 with 1 by lra.
    transitivity (y3 d * (s * s + c * c)); [ring | rewrite Hsc; ring].
  - replace 0.0 with 0 by lra. replace 1.0 with 1 by lra. ring.
Qed.

Lemma rotateVector_y_length (d : vec3 R) (angle : R) :
  length (rotateVector d (mkvec3 0.0 1.0 0.0) angle) = length d.
Proof.
  rewrite rotateVector_about_y. cbv zeta.
  set (t := angle * PI / 180.0).
  pose proof (sin2_cos2 t) as Hsc. unfold Rsqr in Hsc.
  unfold length, dot; cbn [x3 y3 z3]. f_equal.
  set (s := sin t) in *. set (c := cos t) in *.
  replace ((x3 d * c + z3 d * s) * (x3 d * c + z3 d * s) + y3 d * y3 d
           + (z3 d * c - x3 d * s) * (z3 d * c - x3 d * s))
    with ((x3 d * x3 d + z3 d * z3 d) * (s * s + c * c) + y3 d * y3 d) by ring.
  rewrite Hsc. ring.
Qed.

Lemma background_latitude (u : Uniforms) (d : vec3 R) :
  y2 (backgroundUV u d) = 0.5 - asin (clamp (y3 d) (-1.0) 1.0) / PI.
Proof.
  unfold backgroundUV. rewrite rotateVector_about_y. reflexivity.
Qed.

(** *** Spherical coordinates *)

Lemma sqrt_sum_pos (x z : R) : x <> 0 -> 0 < sqrt (x * x + z * z).
Proof. intros H. apply sqrt_lt_R0. nra. Qed.

Lemma atan_polar (x z : R) :
  0 < x ->
  sqrt (x * x + z * z) * cos (atan (z / x)) = x /\
  sqrt (x * x + z * z) * sin (atan (z / x)) = z.
Proof.
  intros Hx.
  assert (Hr : sqrt (x * x + z * z) = x * sqrt (1 + (z / x)²)).
  { rewrite <- (sqrt_square x) at 3 by lra. rewrite <- sqrt_mult_alt by nra.
    f_equal. unfold Rsqr. field. lra. }
  assert (Hq : 0 < sqrt (1 + (z / x)²)).
  { apply sqrt_lt_R0. pose proof (Rle_0_sqr (z / x)). lra. }
  rewrite cos_atan, sin_atan, Hr. split; field; lra.
Qed.

Lemma atan_polar_neg (x z : R) :
  x < 0 ->
  sqrt (x * x + z * z) * cos (atan (z / x)) = - x /\
  sqrt (x * x + z * z) * sin (atan (z / x)) = - z.
Proof.
  intros Hx. destruct (atan_polar (- x) (- z)) as [Hc Hs]; [lra|].
  replace (- x * - x + - z * - z) with (x * x + z * z) in * by ring.
  replace (- z / - x) with (z / x) in * by (field; lra).
  split; assumption.
Qed.

(** [atan(z, x)] is the polar angle of [(x, z)]. *)
Lemma atan2_polar (x z : R) :
  sqrt (x * x + z * z) * cos (atan2 z x) = x /\
  sqrt (x * x + z * z) * sin (atan2 z x) = z.
Proof.
  unfold atan2.
  destruct (Rlt_dec 0 x) as [Hx|Hx]; [now apply atan_polar|].
  destruct (Rlt_dec x 0) as [Hx'|Hx'].
  - destruct (atan_polar_neg x z Hx') as [Hc Hs].
    destruct (Rle_dec 0 z).
    + rewrite neg_cos, neg_sin. split; lra.
    + unfold Rminus. rewrite cos_plus, sin_plus, cos_neg, sin_neg, cos_PI, sin_PI.
      split; lra.
  - assert (x = 0) by lra. subst x.
    replace (0 * 0 + z * z) with (z * z) by ring.
    destruct (Rlt_dec 0 z) as [Hz|Hz].
    + rewrite sqrt_square by lra. rewrite cos_PI2, sin_PI2. split; ring.
    + destruct (Rlt_dec z 0) as [Hz'|Hz'].
      * replace (z * z) with ((- z) * (- z)) by ring. rewrite sqrt_square by lra.
        rewrite cos_neg, sin_neg, cos_PI2, sin_PI2. split; ring.
      * assert (z = 0) by lra. subst z.
        replace (0 * 0) with 0 by ring. rewrite sqrt_0. split; ring.
Qed.

Lemma elevation_polar (p : vec3 R) :
  length p * sin (asin (clamp (y3 p / length p) (-1.0) 1.0)) = y3 p /\
  length p * cos (asin (clamp (y3 p / length p) (-1.0) 1.0))
    = sqrt (x3 p * x3 p + z3 p * z3 p).
Proof.
  pose proof (length_nonneg p) as H0.
  assert (Hsq : length p * length p = x3 p * x3 p + y3 p * y3 p + z3 p * z3 p).
  { unfold length. rewrite sqrt_sqrt by apply dot_nonneg. reflexivity. }
  destruct H0 as [Hpos|Hz].
  - assert (Hy : -1 <= y3 p / length p <= 1).
    { split.
      - apply Rmult_le_reg_r with (length p); [assumption|].
        unfold Rdiv. rewrite Rmult_assoc, Rinv_l by lra. nra.
      - apply Rmult_le_reg_r with (length p); [assumption|].
        unfold Rdiv. rewrite Rmult_assoc, Rinv_l by lra. nra. }
    rewrite clamp_id by lra.
    rewrite sin_asin, cos_asin by assumption. split; [field; lra|].
    rewrite <- (sqrt_square (length p)) at 1 by lra.
    rewrite <- sqrt_mult_alt by nra. f_equal.
    replace (length p * length p * (1 - (y3 p / length p)²))
      with (length p * length p - y3 p * y3 p) by (unfold Rsqr; field; lra).
    rewrite Hsq. ring.
  - assert (x3 p = 0 /\ y3 p = 0 /\ z3 p = 0) as (Hx & Hy & Hzz) by (rewrite <- Hz in Hsq; nra).
    rewrite <- Hz, Hx, Hy, Hzz.
    replace (0 * 0 + 0 * 0) with 0 by ring. rewrite sqrt_0. split; ring.
Qed.

Lemma toSpherical_inverse (p : vec3 R) :
  let s := toSpherical p in
  x3 s * cos (z3 s) * cos (y3 s) = x3 p /\
  x3 s * sin (z3 s) = y3 p /\
  x3 s * cos (z3 s) * sin (y3 s) = z3 p /\
  0 <= x3 s.
Proof.
  cbv zeta. unfold toSpherical; cbn [x3 y3 z3].
  destruct (elevation_polar p) as [Hs Hc].
  destruct (atan2_polar (x3 p) (z3 p)) as [Hac Has].
  rewrite Hs, Hc, Hac, Has. repeat split. apply length_nonneg.
Qed.

(** *** The camera basis *)

Lemma length_sqr (v : vec3 R) : length v * length v = dot v v.
Proof. unfold length. apply sqrt_sqrt, dot_nonneg. Qed.

Lemma length_eq_dot (v w : vec3 R) : dot v v = dot w w -> length v = length w.
Proof. intros H. unfold length. now rewrite H. Qed.

Lemma length_one (v : vec3 R) : dot v v = 1 -> length v = 1.
Proof. intros H. unfold length. rewrite H. apply sqrt_1. Qed.

Lemma dot_normalize_self (v : vec3 R) : length v <> 0 -> dot (normalize v) (normalize v) = 1.
Proof.
  intros H. pose proof (length_normalize v H) as Hn.
  rewrite <- length_sqr, Hn. ring.
Qed.

Lemma dot_normalize_l (v w : vec3 R) : dot (normalize v) w = dot v w / length v.
Proof.
  unfold normalize, dot, vdivs, map3; cbn [x3 y3 z3]. unfold Rdiv. ring.
Qed.

Lemma dot_comm (v w : vec3 R) : dot v w = dot w v.
Proof. unfold dot. ring. Qed.

(** Lagrange's identity for orthogonal unit vectors. *)
Lemma cross_unit (a b : vec3 R) :
  dot a a = 1 -> dot b b = 1 -> dot a b = 0 -> dot (cross a b) (cross a b) = 1.
Proof.
  intros Ha Hb Hab.
  replace (dot (cross a b) (cross a b)) with (dot a a * dot b b - dot a b * dot a b)
    by (unfold dot, cross; cbn [x3 y3 z3]; ring).
  rewrite Ha, Hb, Hab. ring.
Qed.

Lemma mat3_mul_dot (c0 c1 c2 v : vec3 R) :
  dot c0 c0 = 1 -> dot c1 c1 = 1 -> dot c2 c2 = 1 ->
  dot c0 c1 = 0 -> dot c0 c2 = 0 -> dot c1 c2 = 0 ->
  dot (mat3_mul (c0, c1, c2) v) (mat3_mul (c0, c1, c2) v) = dot v v.
Proof.
  intros H00 H11 H22 H01 H02 H12.
  replace (dot (mat3_mul (c0, c1, c2) v) (mat3_mul (c0, c1, c2) v))
    with (x3 v * x3 v * dot c0 c0 + y3 v * y3 v * dot c1 c1 + z3 v * z3 v * dot c2 c2
          + 2 * x3 v * y3 v * dot c0 c1 + 2 * x3 v * z3 v * dot c0 c2
          + 2 * y3 v * z3 v * dot c1 c2)
    by (unfold mat3_mul, dot, vadd, vscale, zip3, map3; cbn [x3 y3 z3]; ring).
  rewrite H00, H11, H22, H01, H02, H12. unfold dot. ring.
Qed.

Lemma lookAt_orthonormal (origin target : vec3 R) (roll : R) :
  length (vsub target origin) <> 0 ->
  length (cross (normalize (vsub target origin)) (mkvec3 (sin roll) (cos roll) 0.0)) <> 0 ->
  let '(uu, vv, ww) := lookAt origin target roll in
  (dot uu uu = 1 /\ dot vv vv = 1 /\ dot ww ww = 1) /\
  (dot uu vv = 0 /\ dot uu ww = 0 /\ dot vv ww = 0) /\
  (forall v : vec3 R, length (mat3_mul (uu, vv, ww) v) = length v).
Proof.
  intros Hw Hu. unfold lookAt.
  set (rr := mkvec3 (sin roll) (cos roll) 0.0) in *.
  set (ww := normalize (vsub target origin)) in *.
  set (uu := normalize (cross ww rr)).
  set (vv := normalize (cross uu ww)).
  assert (Hww : dot ww ww = 1) by now apply dot_normalize_self.
  assert (Huu : dot uu uu = 1) by now apply dot_normalize_self.
  assert (Huw : dot uu ww = 0).
  { unfold uu. rewrite dot_normalize_l.
    replace (dot (cross ww rr) ww) with 0 by (unfold dot, cross; cbn [x3 y3 z3]; ring).
    unfold Rdiv. ring. }
  assert (Hc : dot (cross uu ww) (cross uu ww) = 1) by now apply cross_unit.
  assert (Hl : length (cross uu ww) = 1) by now apply length_one.
  assert (Hvv : dot vv vv = 1) by (apply dot_normalize_self; rewrite Hl; lra).
  assert (Huv : dot uu vv = 0).
  { rewrite dot_comm. unfold vv. rewrite dot_normalize_l.
    replace (dot (cross uu ww) uu) with 0 by (unfold dot, cross; cbn [x3 y3 z3]; ring).
    unfold Rdiv. ring. }
  assert (Hvw : dot vv ww = 0).
  { unfold vv. rewrite dot_normalize_l.
    replace (dot (cross uu ww) ww) with 0 by (unfold dot, cross; cbn [x3 y3 z3]; ring).
    unfold Rdiv. ring. }
  repeat split; try assumption.
  intros v. apply length_eq_dot. now apply mat3_mul_dot.
Qed.

(** *** Where the disk emits *)

Lemma scaled_component_bound (u : Uniforms) (p : vec3 R) :
  Rabs (y3 p / uDiskThickness u) <= length (scaledPos u p) /\
  sqrt (x3 p / uDiskOuter u * (x3 p / uDiskOuter u) + z3 p / uDiskOuter u * (z3 p / uDiskOuter u))
    <= length (scaledPos u p).
Proof.
  unfold scaledPos, length, dot, vdiv, zip3; cbn [x3 y3 z3].
  set (a := x3 p / uDiskOuter u). set (b := y3 p / uDiskThickness u).
  set (c := z3 p / uDiskOuter u). split.
  - rewrite <- sqrt_Rsqr_abs. apply sqrt_le_1_alt. unfold Rsqr. nra.
  - apply sqrt_le_1_alt. nra.
Qed.

Lemma adiskColor_None (u : Uniforms) (p c : vec3 R) (a : R) :
  diskDensity u p = None -> adiskColor u p c a = (c, a).
Proof. intros H. unfold adiskColor. now rewrite H. Qed.

Lemma disk_support (u : Uniforms) (p c : vec3 R) (a : R) :
  0 < uDiskInner u -> 0 < uDiskOuter u -> 0 < uDiskThickness u ->
  length p <= uDiskInner u \/ uDiskThickness u <= Rabs (y3 p) \/
  uDiskOuter u <= length2 (mkvec2 (x3 p) (z3 p)) ->
  adiskColor u p c a = (c, a).
Proof.
  intros Hi Ho HT H. apply adiskColor_None.
  destruct (scaled_component_bound u p) as [Hy Hxz].
  destruct H as [H | [H | H]].
  - rewrite diskDensity_unfold.
    destruct (Rlt_dec _ _); [reflexivity|].
    rewrite smoothstep_below by lra.
    destruct (Rlt_dec _ _) as [|Hn]; [reflexivity|]. exfalso. apply Hn. lra.
  - apply diskDensity_outside.
    eapply Rle_trans; [|exact Hy].
    unfold Rdiv. rewrite Rabs_mult, (Rabs_pos_eq (/ _)) by (left; now apply Rinv_0_lt_compat).
    apply Rmult_le_reg_r with (uDiskThickness u); [assumption|].
    rewrite Rmult_assoc, Rinv_l by lra. lra.
  - apply diskDensity_outside.
    eapply Rle_trans; [|exact Hxz].
    set (o := uDiskOuter u) in *.
    replace (x3 p / o * (x3 p / o) + z3 p / o * (z3 p / o))
      with ((x3 p * x3 p + z3 p * z3 p) / (o * o)) by (field; lra).
    rewrite <- sqrt_1. apply sqrt_le_1_alt.
    unfold length2, dot2 in H; cbn [x2 y2] in H.
    assert (Hsq : o * o <= x3 p * x3 p + z3 p * z3 p).
    { assert (H0 : 0 <= x3 p * x3 p + z3 p * z3 p) by nra.
      rewrite <- (sqrt_sqrt _ H0). nra. }
    apply Rmult_le_reg_r with (o * o); [nra|].
    unfold Rdiv. rewrite Rmult_assoc, Rinv_l by nra. lra.
Qed.

(** *** The animation phase *)

Lemma noiseStep_phase (u1 u2 : Uniforms) (st : R * vec3 R) (i : nat) :
  uTime u1 * uDiskRotationSpeed u1 = uTime u2 * uDiskRotationSpeed u2 ->
  noiseStep u1 st i = noiseStep u2 st i.
Proof. intros H. unfold noiseStep. destruct st as [n sc]. now rewrite H. Qed.

Lemma diskNoise_phase (u1 u2 : Uniforms) (p : vec3 R) :
  uTime u1 * uDiskRotationSpeed u1 = uTime u2 * uDiskRotationSpeed u2 ->
  diskNoise u1 p = diskNoise u2 p.
Proof.
  intros H. unfold diskNoise. cbn [seq fold_left].
  now rewrite !(noiseStep_phase u1 u2 _ _ H).
Qed.

Lemma adiskColor_phase (u1 u2 : Uniforms) (p c : vec3 R) (a : R) :
  uDiskInner u1 = uDiskInner u2 -> uDiskOuter u1 = uDiskOuter u2 ->
  uDiskThickness u1 = uDiskThickness u2 ->
  uTime u1 * uDiskRotationSpeed u1 = uTime u2 * uDiskRotationSpeed u2 ->
  adiskColor u1 p c a = adiskColor u2 p c a.
Proof.
  intros Hi Ho HT H. unfold adiskColor.
  assert (Hd : diskDensity u1 p = diskDensity u2 p).
  { unfold diskDensity. now rewrite Hi, Ho, HT. }
  assert (Hc : diskColor u1 p = diskColor u2 p).
  { unfold diskColor. now rewrite Hi, Ho, H. }
  now rewrite Hd, Hc, (diskNoise_phase u1 u2 p H).
Qed.


End KerrMore.

(** ** Lemmas on gravitational_lensing.glsl *)

Module LensingMore.
Import Glsl GlslFacts Predicates Lensing LensingFacts.

(** *** The value noise *)

Lemma fract_range (x : R) : 0 <= fract x < 1.
Proof.
  unfold fract. pose proof (Zfloor_bound x). lra.
Qed.

Lemma hash_range (p : vec2 R) : 0 <= hash p < 1.
Proof. unfold hash. apply fract_range. Qed.

Lemma fade_range (t : R) : 0 <= t <= 1 -> 0 <= t * t * (3.0 - 2.0 * t) <= 1.
Proof.
  intros [H0 H1]. split.
  - apply Rmult_le_pos; [apply Rmult_le_pos; assumption | lra].
  - assert (H : 0 <= (1 - t) * (1 - t) * (1 + 2 * t)).
    { apply Rmult_le_pos; [apply Rmult_le_pos; lra | lra]. }
    replace (t * t * (3.0 - 2.0 * t)) with (1 - (1 - t) * (1 - t) * (1 + 2 * t)) by lra.
    lra.
Qed.

Lemma mix_range (a b t : R) :
  0 <= a < 1 -> 0 <= b < 1 -> 0 <= t <= 1 -> 0 <= mix a b t < 1.
Proof.
  intros [Ha0 Ha1] [Hb0 Hb1] [Ht0 Ht1]. unfold mix. split.
  - apply Rplus_le_le_0_compat; apply Rmult_le_pos; lra.
  - assert (a * (1 - t) <= 1 * (1 - t)) by (apply Rmult_le_compat_r; lra).
    assert (b * t <= 1 * t) by (apply Rmult_le_compat_r; lra).
    destruct (Req_dec t 0) as [->|Ht]; [lra|].
    assert (b * t < 1 * t) by (apply Rmult_lt_compat_r; lra).
    lra.
Qed.

Lemma noise_range (p : vec2 R) : 0 <= noise p < 1.
Proof.
  unfold noise; cbn [x2 y2].
  assert (Hx := fract_range (x2 p)). assert (Hy := fract_range (y2 p)).
  assert (Hfx := fade_range (fract (x2 p))). assert (Hfy := fade_range (fract (y2 p))).
  apply mix_range; [apply mix_range | apply mix_range | ];
    try apply hash_range; try (apply Hfx; lra); apply Hfy; lra.
Qed.

(** *** Geodesic acceleration *)

(** Outside the guard of [geodesicAcceleration] the divisor of [factor]
    is positive. *)
Lemma factor_divisor_pos (r : R) :
  ~ r < SCHWARZSCHILD_RADIUS * 1.01 -> 0 < r * r * metricCoeff r.
Proof.
  unfold metricCoeff, SCHWARZSCHILD_RADIUS. intros H.
  assert (Hr : 2.02 <= r) by lra.
  replace 1.0 with 1 by lra. replace 2.0 with 2 by lra.
  replace (r * r * (1 - 2 / r)) with (r * (r - 2)) by (field; lra).
  apply Rmult_lt_0_compat; lra.
Qed.

Lemma geodesicAcceleration_inside (p v : vec3 R) :
  length p < SCHWARZSCHILD_RADIUS * 1.01 -> geodesicAcceleration p v = mkvec3 0 0 0.
Proof.
  intros H. unfold geodesicAcceleration. destruct (Rlt_dec _ _); [|contradiction].
  apply vec3_eq; simpl; lra.
Qed.

(** The acceleration is a combination of position and velocity. *)
Lemma geodesicAcceleration_span (p v : vec3 R) :
  exists a b : R, geodesicAcceleration p v = vadd (sscale a p) (sscale b v).
Proof.
  unfold geodesicAcceleration. destruct (Rlt_dec _ _) as [|Hr].
  - exists 0, 0. apply vec3_eq; simpl; lra.
  - set (r := length p). set (f := SCHWARZSCHILD_RADIUS / _).
    set (vr := dot v (vdivs p r)).
    exists ((- f * (dot v v - vr * vr) + f * 2.0 * vr * vr) / r), (- f * 2.0 * vr).
    clearbody vr f.
    apply vec3_eq; unfold vadd, vsub, sscale, vdivs, zip3, map3; cbn [x3 y3 z3];
      unfold Rdiv; ring.
Qed.

Lemma inPlane_comb (n p v : vec3 R) (a b : R) :
  inPlane n p -> inPlane n v -> inPlane n (vadd (sscale a p) (sscale b v)).
Proof.
  unfold inPlane. intros Hp Hv.
  replace (dot n (vadd (sscale a p) (sscale b v))) with (a * dot n p + b * dot n v)
    by (unfold dot, vadd, sscale, zip3, map3; cbn [x3 y3 z3]; ring).
  rewrite Hp, Hv. ring.
Qed.

Lemma inPlane_add_scaled (n p v : vec3 R) (b : R) :
  inPlane n p -> inPlane n v -> inPlane n (vadd p (sscale b v)).
Proof.
  unfold inPlane. intros Hp Hv.
  replace (dot n (vadd p (sscale b v))) with (dot n p + b * dot n v)
    by (unfold dot, vadd, sscale, zip3, map3; cbn [x3 y3 z3]; ring).
  rewrite Hp, Hv. ring.
Qed.

Lemma inPlane_add (n p v : vec3 R) :
  inPlane n p -> inPlane n v -> inPlane n (vadd p v).
Proof.
  unfold inPlane. intros Hp Hv.
  replace (dot n (vadd p v)) with (dot n p + dot n v)
    by (unfold dot, vadd, zip3; cbn [x3 y3 z3]; ring).
  rewrite Hp, Hv. ring.
Qed.

Lemma inPlane_sscale (n v : vec3 R) (b : R) : inPlane n v -> inPlane n (sscale b v).
Proof.
  unfold inPlane. intros Hv.
  replace (dot n (sscale b v)) with (b * dot n v)
    by (unfold dot, sscale, map3; cbn [x3 y3 z3]; ring).
  rewrite Hv. ring.
Qed.

Lemma inPlane_normalize (n v : vec3 R) : inPlane n v -> inPlane n (normalize v).
Proof.
  unfold inPlane. intros Hv.
  replace (dot n (normalize v)) with (dot n v / length v)
    by (unfold dot, normalize, vdivs, map3; cbn [x3 y3 z3]; unfold Rdiv; ring).
  rewrite Hv. unfold Rdiv. ring.
Qed.

Lemma inPlane_acceleration (n p v : vec3 R) :
  inPlane n p -> inPlane n v -> inPlane n (geodesicAcceleration p v).
Proof.
  intros Hp Hv. destruct (geodesicAcceleration_span p v) as (a & b & ->).
  now apply inPlane_comb.
Qed.

Create HintDb plane.

#[local] Hint Resolve inPlane_acceleration inPlane_add_scaled inPlane_add inPlane_sscale
  inPlane_normalize : plane.

Lemma inPlane_rk4Update (n p v : vec3 R) (dt : R) :
  inPlane n p -> inPlane n v ->
  inPlane n (fst (rk4Update p v dt)) /\ inPlane n (snd (rk4Update p v dt)).
Proof.
  intros Hp Hv. unfold rk4Update. cbn [fst snd].
  split; auto 20 with plane.
Qed.

Lemma inPlane_rk4Step (n p v : vec3 R) (dt : R) :
  inPlane n p -> inPlane n v ->
  inPlane n (fst (rk4Step p v dt)) /\ inPlane n (snd (rk4Step p v dt)).
Proof.
  intros Hp Hv. destruct (inPlane_rk4Update n p v dt Hp Hv) as [H1 H2].
  unfold rk4Step. destruct (rk4Update p v dt) as [p' v']; cbn [fst snd] in *.
  split; [assumption | now apply inPlane_normalize].
Qed.

Lemma marchStep_Continue (u : Uniforms) (p v p' v' : vec3 R) :
  marchStep u p v = Continue p' v' ->
  p' = fst (rk4Step p v STEP_SIZE) /\ v' = snd (rk4Step p v STEP_SIZE).
Proof.
  unfold marchStep.
  destruct (Rlt_dec _ _); [discriminate|].
  destruct (Rlt_dec _ _); [discriminate|].
  destruct (intersectDisk u p); [discriminate|].
  destruct (rk4Step p v STEP_SIZE) as [a b]. intros H. injection H as <- <-. now split.
Qed.

Lemma marchState_plane (u : Uniforms) (nrm : vec3 R) (n : nat) :
  forall p v p' v' : vec3 R,
  inPlane nrm p -> inPlane nrm v ->
  marchState u n p v = Some (p', v') -> inPlane nrm p' /\ inPlane nrm v'.
Proof.
  induction n as [|n IH]; intros p v p' v' Hp Hv H; cbn [marchState] in H.
  - injection H as <- <-. now split.
  - destruct (marchStep u p v) as [|q w] eqn:E; [discriminate|].
    apply marchStep_Continue in E. destruct E as [-> ->].
    destruct (inPlane_rk4Step nrm p v STEP_SIZE Hp Hv) as [H1 H2].
    exact (IH _ _ _ _ H1 H2 H).
Qed.

Lemma cross_inPlane (p v : vec3 R) : inPlane (cross p v) p /\ inPlane (cross p v) v.
Proof. unfold inPlane, dot, cross; cbn [x3 y3 z3]. split; ring. Qed.

(** *** Attraction *)

Lemma cauchy_schwarz (a b : vec3 R) : dot a b * dot a b <= dot a a * dot b b.
Proof.
  replace (dot a a * dot b b) with (dot a b * dot a b + dot (cross a b) (cross a b))
    by (unfold dot, cross; cbn [x3 y3 z3]; ring).
  pose proof (dot_nonneg (cross a b)). lra.
Qed.

Lemma geodesicAcceleration_attractive (p v : vec3 R) :
  dot p (geodesicAcceleration p v) <= 0.
Proof.
  unfold geodesicAcceleration. destruct (Rlt_dec _ _) as [|Hr].
  - unfold dot, vec3s; cbn [x3 y3 z3]. lra.
  - pose proof (factor_divisor_pos _ Hr) as Hd.
    set (r := length p) in *.
    assert (Hr0 : 0 < r) by (unfold SCHWARZSCHILD_RADIUS in Hr; lra).
    assert (Hf : 0 < SCHWARZSCHILD_RADIUS / (r * r * metricCoeff r)).
    { apply Rdiv_lt_0_compat; [unfold SCHWARZSCHILD_RADIUS; lra | assumption]. }
    set (f := SCHWARZSCHILD_RADIUS / _) in *. clearbody f.
    assert (Hrr : r * r = dot p p) by apply KerrMore.length_sqr.
    assert (Hvr : dot v (vdivs p r) = dot p v / r)
      by (unfold dot, vdivs, map3; cbn [x3 y3 z3]; unfold Rdiv; ring).
    rewrite Hvr. set (s := dot p v) in *.
    replace (dot p (vadd (sscale (- f * (dot v v - s / r * (s / r))) (vdivs p r))
                         (sscale (- f * 2.0 * (s / r)) (vsub v (sscale (s / r) (vdivs p r))))))
      with (- f * (dot v v - s / r * (s / r)) * (dot p p / r)
            + - f * 2.0 * (s / r) * (s - s / r * (dot p p / r)))
      by (unfold s, dot, vadd, vsub, sscale, vdivs, zip3, map3; cbn [x3 y3 z3];
          unfold Rdiv; ring).
    rewrite <- Hrr.
    replace (- f * (dot v v - s / r * (s / r)) * (r * r / r)
             + - f * 2.0 * (s / r) * (s - s / r * (r * r / r)))
      with (- (f * ((r * r * dot v v - s * s) / r))) by (field; lra).
    assert (Hcs : 0 <= r * r * dot v v - s * s).
    { rewrite Hrr. pose proof (cauchy_schwarz p v). fold s in H. lra. }
    assert (0 <= (r * r * dot v v - s * s) / r).
    { apply Rmult_le_pos; [assumption | left; now apply Rinv_0_lt_compat]. }
    assert (0 <= f * ((r * r * dot v v - s * s) / r)) by (apply Rmult_le_pos; lra).
    lra.
Qed.

(** *** Radial rays *)

Lemma parallel_decompose (p v : vec3 R) :
  cross p v = mkvec3 0 0 0 -> sscale (dot p p) v = sscale (dot p v) p.
Proof.
  destruct p as [px py pz], v as [vx vy vz]. intros H.
  assert (Hx := f_equal x3 H). assert (Hy := f_equal y3 H). assert (Hz := f_equal z3 H).
  unfold cross in Hx, Hy, Hz; cbn [x3 y3 z3] in Hx, Hy, Hz.
  apply vec3_eq; unfold sscale, dot, map3; cbn [x3 y3 z3]; apply Rminus_diag_uniq.
  - transitivity (- py * (px * vy - py * vx) + pz * (pz * vx - px * vz)); [ring|].
    rewrite Hz, Hy. ring.
  - transitivity (px * (px * vy - py * vx) - pz * (py * vz - pz * vy)); [ring|].
    rewrite Hz, Hx. ring.
  - transitivity (- px * (pz * vx - px * vz) + py * (py * vz - pz * vy)); [ring|].
    rewrite Hy, Hx. ring.
Qed.

Lemma geodesicAcceleration_radial (p v : vec3 R) :
  cross p v = mkvec3 0 0 0 -> geodesicAcceleration p v = mkvec3 0 0 0.
Proof.
  intros Hc. unfold geodesicAcceleration. destruct (Rlt_dec _ _) as [|Hr].
  - apply vec3_eq; simpl; lra.
  - set (r := length p) in *.
    assert (Hr0 : 0 < r) by (unfold SCHWARZSCHILD_RADIUS in Hr; lra).
    assert (Hrr : r * r = dot p p) by apply KerrMore.length_sqr.
    pose proof (parallel_decompose p v Hc) as Hd. rewrite <- Hrr in Hd.
    assert (Hv : v = sscale (dot p v / (r * r)) p).
    { assert (Hx := f_equal x3 Hd). assert (Hy := f_equal y3 Hd). assert (Hz := f_equal z3 Hd).
      unfold sscale, map3 in Hx, Hy, Hz; cbn [x3 y3 z3] in Hx, Hy, Hz.
      apply vec3_eq; unfold sscale, map3; cbn [x3 y3 z3].
      - apply Rmult_eq_reg_l with (r * r); [|nra]. rewrite Hx. field. lra.
      - apply Rmult_eq_reg_l with (r * r); [|nra]. rewrite Hy. field. lra.
      - apply Rmult_eq_reg_l with (r * r); [|nra]. rewrite Hz. field. lra. }
    set (k := dot p v / (r * r)) in *. clearbody k.
    set (f := SCHWARZSCHILD_RADIUS / _). clearbody f.
    rewrite Hv.
    assert (Hvr : dot (sscale k p) (vdivs p r) = k * r).
    { replace (dot (sscale k p) (vdivs p r)) with (k * dot p p / r)
        by (unfold dot, sscale, vdivs, map3; cbn [x3 y3 z3]; unfold Rdiv; ring).
      rewrite <- Hrr. field. lra. }
    rewrite Hvr.
    assert (Hvv : dot (sscale k p) (sscale k p) = k * r * (k * r)).
    { replace (dot (sscale k p) (sscale k p)) with (k * k * dot p p)
        by (unfold dot, sscale, map3; cbn [x3 y3 z3]; ring).
      rewrite <- Hrr. ring. }
    rewrite Hvv.
    apply vec3_eq; unfold vadd, vsub, sscale, vdivs, zip3, map3; cbn [x3 y3 z3];
      field; lra.
Qed.

Lemma cross_shift (p v : vec3 R) (c : R) :
  cross p v = mkvec3 0 0 0 -> cross (vadd p (sscale c v)) v = mkvec3 0 0 0.
Proof.
  intros H. rewrite <- H.
  apply vec3_eq; unfold cross, vadd, sscale, zip3, map3; cbn [x3 y3 z3]; ring.
Qed.

Lemma vadd_zero (v : vec3 R) (c : R) : vadd v (sscale c (mkvec3 0 0 0)) = v.
Proof.
  destruct v as [a b d].
  apply vec3_eq; unfold vadd, sscale, zip3, map3; cbn [x3 y3 z3]; ring.
Qed.

Lemma rk4Update_radial (p v : vec3 R) (dt : R) :
  cross p v = mkvec3 0 0 0 -> rk4Update p v dt = (vadd p (sscale dt v), v).
Proof.
  intros Hc. unfold rk4Update.
  rewrite (geodesicAcceleration_radial p v Hc), !vadd_zero.
  rewrite (geodesicAcceleration_radial _ v (cross_shift p v (0.5 * dt) Hc)), !vadd_zero.
  rewrite (geodesicAcceleration_radial _ v (cross_shift p v (0.5 * dt) Hc)), !vadd_zero.
  rewrite (geodesicAcceleration_radial _ v (cross_shift p v dt Hc)).
  replace 6.0 with 6 by lra. replace 2.0 with 2 by lra.
  f_equal; destruct p as [px py pz], v as [vx vy vz]; apply vec3_eq;
    unfold vadd, sscale, zip3, map3; cbn [x3 y3 z3]; field.
Qed.

Lemma rk4Step_radial (p v : vec3 R) (dt : R) :
  cross p v = mkvec3 0 0 0 ->
  rk4Step p v dt = (vadd p (sscale dt v), normalize v) /\
  cross (vadd p (sscale dt v)) (normalize v) = mkvec3 0 0 0.
Proof.
  intros Hc. unfold rk4Step. rewrite (rk4Update_radial p v dt Hc). split; [reflexivity|].
  pose proof (cross_shift p v dt Hc) as H.
  assert (Hx := f_equal x3 H). assert (Hy := f_equal y3 H). assert (Hz := f_equal z3 H).
  set (q := vadd p (sscale dt v)) in *.
  unfold cross in Hx, Hy, Hz; cbn [x3 y3 z3] in Hx, Hy, Hz.
  apply vec3_eq; unfold cross, normalize, vdivs, map3; cbn [x3 y3 z3]; unfold Rdiv.
  - replace (y3 q * (z3 v * / length v) - z3 q * (y3 v * / length v))
      with ((y3 q * z3 v - z3 q * y3 v) * / length v) by ring. rewrite Hx. ring.
  - replace (z3 q * (x3 v * / length v) - x3 q * (z3 v * / length v))
      with ((z3 q * x3 v - x3 q * z3 v) * / length v) by ring. rewrite Hy. ring.
  - replace (x3 q * (y3 v * / length v) - y3 q * (x3 v * / length v))
      with ((x3 q * y3 v - y3 q * x3 v) * / length v) by ring. rewrite Hz. ring.
Qed.

(** *** The sky *)

Lemma lensing_sampleBackground_range (d : vec3 R) :
  exists g : R, sampleBackground d = mkvec3 g g g /\ 0 <= g <= 2.025.
Proof.
  unfold sampleBackground. set (uv := backgroundUV d).
  cbn [seq fold_left]. unfold starStep. cbn [INR].
  destruct (KerrMore.step_cases (0.995 - 0 * 0.003)
              (noise (mkvec2 (x2 uv * 30.0 * pow 2.0 0) (y2 uv * 30.0 * pow 2.0 0)))) as [-> | ->];
  destruct (KerrMore.step_cases (0.995 - 1 * 0.003)
              (noise (mkvec2 (x2 uv * 30.0 * pow 2.0 1) (y2 uv * 30.0 * pow 2.0 1)))) as [-> | ->];
  destruct (KerrMore.step_cases (0.995 - (1 + 1) * 0.003)
              (noise (mkvec2 (x2 uv * 30.0 * pow 2.0 (1 + 1)) (y2 uv * 30.0 * pow 2.0 (1 + 1)))))
    as [-> | ->];
  eexists; (split; [unfold vscale, vec3s, map3; cbn [x3 y3 z3]; reflexivity | lra]).
Qed.

(** *** The colours of the march *)

Lemma nonneg3_vscale (c : vec3 R) (s : R) : nonneg3 c -> 0 <= s -> nonneg3 (vscale c s).
Proof.
  unfold nonneg3, vle, vscale, map3; cbn [x3 y3 z3]. intros (Hx & Hy & Hz) Hs.
  repeat split; apply Rmult_le_pos; assumption.
Qed.

Lemma nonneg3_vadd (c d : vec3 R) : nonneg3 c -> nonneg3 d -> nonneg3 (vadd c d).
Proof.
  unfold nonneg3, vle, vadd, zip3; cbn [x3 y3 z3]. intros (Hx & Hy & Hz) (Hx' & Hy' & Hz').
  repeat split; lra.
Qed.

Lemma nonneg3_mix (c d : vec3 R) (t : R) :
  nonneg3 c -> nonneg3 d -> 0 <= t <= 1 -> nonneg3 (zip3 (fun a b => mix a b t) c d).
Proof.
  unfold nonneg3, vle, zip3; cbn [x3 y3 z3]. intros (Hx & Hy & Hz) (Hx' & Hy' & Hz') Ht.
  repeat split; apply mix_nonneg; assumption.
Qed.

Lemma nonneg3_lit (a b c : R) : 0 <= a -> 0 <= b -> 0 <= c -> nonneg3 (mkvec3 a b c).
Proof. unfold nonneg3, vle; cbn [x3 y3 z3]. auto. Qed.

Lemma getDiskColor_nonneg (u : Uniforms) (h : vec3 R) :
  0 <= uGlowIntensity u -> nonneg3 (getDiskColor u h).
Proof.
  intros Hg. unfold getDiskColor.
  set (r := length2 _). set (angle := atan2 _ _).
  set (temp := pow (smoothstep (uDiskOuter u) (uDiskInner u) r) 0.75).
  assert (Ht : 0 <= temp <= 1).
  { split; [apply pow_nonneg | apply pow_le_1; [apply smoothstep_bounds | lra]]. }
  set (d := sin _). assert (Hd : -1 <= d <= 1) by apply SIN_bound.
  set (turb := noise _). assert (Hn : 0 <= turb < 1) by apply noise_range.
  assert (Hi := smoothstep_bounds (uDiskInner u - 0.2) (uDiskInner u + 0.3) r).
  assert (Ho := smoothstep_bounds (uDiskOuter u - 0.5) (uDiskOuter u + 0.1) r).
  clearbody temp d turb.
  apply nonneg3_vadd.
  - apply nonneg3_vscale; [apply nonneg3_vscale; [apply nonneg3_vscale|]|].
    + apply nonneg3_mix; [| apply nonneg3_lit; lra | lra].
      destruct (Rlt_dec 0.0 d); apply nonneg3_mix; try (apply nonneg3_lit; lra); lra.
    + apply Rmult_le_pos; lra.
    + lra.
    + apply Rmult_le_pos; lra.
  - apply nonneg3_vscale; [apply nonneg3_lit; lra|].
    apply Rmult_le_pos; [left; apply exp_pos | assumption].
Qed.

Lemma sampleBackground_nonneg (d : vec3 R) : nonneg3 (sampleBackground d).
Proof.
  destruct (lensing_sampleBackground_range d) as (g & -> & Hg). apply nonneg3_lit; lra.
Qed.

Lemma marchStep_Break (u : Uniforms) (p v c : vec3 R) :
  marchStep u p v = Break c ->
  c = mkvec3 0 0 0 \/ c = sampleBackground (normalize v) \/
  exists h, intersectDisk u p = Some h /\ c = getDiskColor u h.
Proof.
  unfold marchStep.
  destruct (Rlt_dec _ _).
  { intros H. injection H as <-. left. apply vec3_eq; simpl; lra. }
  destruct (Rlt_dec _ _).
  { intros H. injection H as <-. right; left. reflexivity. }
  destruct (intersectDisk u p) as [h|].
  { intros H. injection H as <-. right; right. now exists h. }
  destruct (rk4Step p v STEP_SIZE). discriminate.
Qed.

Lemma march_nonneg (u : Uniforms) (n : nat) :
  0 <= uGlowIntensity u -> forall p v : vec3 R, nonneg3 (march u n p v).
Proof.
  intros Hg. induction n as [|n IH]; intros p v; cbn [march].
  - apply sampleBackground_nonneg.
  - destruct (marchStep u p v) as [c|p' v'] eqn:E; [|apply IH].
    apply marchStep_Break in E. destruct E as [-> | [-> | (h & _ & ->)]].
    + apply nonneg3_lit; lra.
    + apply sampleBackground_nonneg.
    + now apply getDiskColor_nonneg.
Qed.

(** *** A disk with no extent *)

Lemma intersectDisk_empty (u : Uniforms) (p : vec3 R) :
  uDiskThickness u <= 0 \/ uDiskOuter u < uDiskInner u -> intersectDisk u p = None.
Proof.
  intros H. unfold intersectDisk.
  destruct (Rlt_dec _ _) as [Hz|]; [|reflexivity].
  destruct (Rle_dec _ _) as [Hi|]; [|reflexivity].
  destruct (Rle_dec _ _) as [Ho|]; [|reflexivity].
  exfalso. pose proof (Rabs_pos (z3 p)). lra.
Qed.

Lemma march_without_disk (u : Uniforms) (n : nat) :
  uDiskThickness u <= 0 \/ uDiskOuter u < uDiskInner u ->
  forall p v : vec3 R, exists g : R, march u n p v = mkvec3 g g g /\ 0 <= g <= 2.025.
Proof.
  intros Hd. induction n as [|n IH]; intros p v; cbn [march].
  - apply lensing_sampleBackground_range.
  - destruct (marchStep u p v) as [c|p' v'] eqn:E; [|apply IH].
    apply marchStep_Break in E. destruct E as [-> | [-> | (h & Hh & _)]].
    + exists 0. split; [reflexivity | lra].
    + apply lensing_sampleBackground_range.
    + rewrite (intersectDisk_empty u p Hd) in Hh. discriminate.
Qed.

End LensingMore.

(** ** Lemmas on lib/blackhole/physics.ts *)

Module PhysicsFacts.
Import Physics.

Lemma sqrt3_bounds : 1 < sqrt 3 < 2.
Proof.
  split.
  - rewrite <- sqrt_1 at 1. apply sqrt_lt_1; lra.
  - replace 2 with (sqrt 4) by (replace 4 with (2 * 2) by ring; apply sqrt_square; lra).
    apply sqrt_lt_1; lra.
Qed.

Lemma radii_ordered (mass : R) :
  0 < mass ->
  0 < schwarzschildRadius mass /\
  schwarzschildRadius mass < photonSphereRadius mass /\
  photonSphereRadius mass < criticalImpactParameter mass.
Proof.
  intros Hm. unfold schwarzschildRadius, photonSphereRadius, criticalImpactParameter.
  pose proof sqrt3_bounds as [Hs _].
  repeat split; try lra.
  assert (3.0 * 1 * mass < 3.0 * sqrt 3 * mass); [|lra].
  apply Rmult_lt_compat_r; [assumption | lra].
Qed.

Lemma isPhotonCaptured_spec (b mass : R) :
  isPhotonCaptured b mass = true <-> b < criticalImpactParameter mass.
Proof.
  unfold isPhotonCaptured. destruct (Rlt_dec _ _); split; intros; try assumption;
    try reflexivity; try discriminate; contradiction.
Qed.

Lemma captured_inside_photon_sphere (b mass : R) :
  0 < mass -> b <= photonSphereRadius mass -> isPhotonCaptured b mass = true.
Proof.
  intros Hm Hb. apply isPhotonCaptured_spec.
  destruct (radii_ordered mass Hm) as (_ & _ & H). lra.
Qed.

(** *** Redshift *)

Lemma redshift_arg (r mass : R) :
  0 < mass -> schwarzschildRadius mass < r ->
  0 < 1.0 - schwarzschildRadius mass / r < 1.
Proof.
  unfold schwarzschildRadius. intros Hm Hr.
  assert (H0 : 0 < r) by lra.
  assert (Hq : 0 < 2.0 * mass / r) by (apply Rdiv_lt_0_compat; lra).
  assert (Hq1 : 2.0 * mass / r < 1).
  { apply Rmult_lt_reg_r with r; [assumption|].
    unfold Rdiv. rewrite Rmult_assoc, Rinv_l by lra. lra. }
  lra.
Qed.

Lemma gravitationalRedshift_range (r mass : R) :
  0 < mass ->
  0 <= gravitationalRedshift r mass < 1 /\
  (gravitationalRedshift r mass = 0 <-> r <= schwarzschildRadius mass).
Proof.
  intros Hm. unfold gravitationalRedshift.
  destruct (Rle_dec r (schwarzschildRadius mass)) as [Hle|Hgt].
  - split; [lra | tauto].
  - assert (Hr : schwarzschildRadius mass < r) by lra.
    destruct (redshift_arg r mass Hm Hr) as [H0 H1].
    pose proof (sqrt_lt_R0 _ H0) as Hs.
    split; [split; [lra|] | split; [lra | contradiction]].
    rewrite <- sqrt_1. apply sqrt_lt_1; lra.
Qed.

Lemma gravitationalRedshift_mono (r1 r2 mass : R) :
  0 < mass -> r1 <= r2 ->
  gravitationalRedshift r1 mass <= gravitationalRedshift r2 mass.
Proof.
  intros Hm Hr.
  destruct (gravitationalRedshift_range r2 mass Hm) as [[H2 _] _].
  unfold gravitationalRedshift in *.
  destruct (Rle_dec r1 (schwarzschildRadius mass)) as [|Hn1]; [assumption|].
  destruct (Rle_dec r2 (schwarzschildRadius mass)) as [|Hn2]; [lra|].
  assert (Hr1 : schwarzschildRadius mass < r1) by lra.
  destruct (redshift_arg r1 mass Hm Hr1) as [H0 H1].
  apply sqrt_le_1_alt.
  assert (Hrs : 0 < schwarzschildRadius mass) by (unfold schwarzschildRadius; lra).
  assert (schwarzschildRadius mass / r2 <= schwarzschildRadius mass / r1); [|lra].
  unfold Rdiv. apply Rmult_le_compat_l; [lra|].
  apply Rinv_le_contravar; lra.
Qed.

Lemma redshift_normalized (r mass : R) :
  0 < mass -> schwarzschildRadius mass < r ->
  1 < normalizeRadius r mass /\
  gravitationalRedshift r mass = sqrt (1 - / normalizeRadius r mass).
Proof.
  intros Hm Hr. unfold gravitationalRedshift, normalizeRadius.
  assert (Hrs : 0 < schwarzschildRadius mass) by (unfold schwarzschildRadius; lra).
  destruct (Rle_dec _ _); [lra|]. split.
  - apply Rmult_lt_reg_r with (schwarzschildRadius mass); [assumption|].
    unfold Rdiv. rewrite Rmult_assoc, Rinv_l by lra. lra.
  - f_equal. replace 1.0 with 1 by lra. field. lra.
Qed.

(** *** The Kerr horizon *)

Lemma kerr_discriminant (mass spin : R) :
  -1 <= spin <= 1 ->
  0 <= mass * mass - spin * mass * (spin * mass) <= mass * mass.
Proof.
  intros Hs.
  replace (mass * mass - spin * mass * (spin * mass))
    with (mass * mass * (1 - spin * spin)) by ring.
  assert (0 <= mass * mass) by nra.
  assert (0 <= spin * spin <= 1) by nra.
  split; [apply Rmult_le_pos; lra | nra].
Qed.

Lemma physics_kerrEventHorizon_bounds (mass spin : R) :
  0 <= mass -> -1 <= spin <= 1 ->
  mass <= kerrEventHorizon mass spin <= schwarzschildRadius mass.
Proof.
  intros Hm Hs. unfold kerrEventHorizon, schwarzschildRadius.
  destruct (kerr_discriminant mass spin Hs) as [H0 H1].
  pose proof (sqrt_pos (mass * mass - spin * mass * (spin * mass))) as Hp.
  assert (Hq : sqrt (mass * mass - spin * mass * (spin * mass)) <= mass).
  { apply Rle_trans with (sqrt (mass * mass)); [now apply sqrt_le_1_alt|].
    rewrite (sqrt_square mass Hm). lra. }
  lra.
Qed.

Lemma kerrEventHorizon_extremal (mass : R) :
  kerrEventHorizon mass 1 = mass /\ kerrEventHorizon mass (-1) = mass.
Proof.
  unfold kerrEventHorizon. split.
  - replace (mass * mass - 1 * mass * (1 * mass)) with 0 by ring. rewrite sqrt_0. ring.
  - replace (mass * mass - -1 * mass * (-1 * mass)) with 0 by ring. rewrite sqrt_0. ring.
Qed.

Lemma kerrEventHorizon_decreasing (mass s1 s2 : R) :
  0 <= s1 <= s2 -> s2 <= 1 ->
  kerrEventHorizon mass s2 <= kerrEventHorizon mass s1.
Proof.
  intros [H0 H12] H2. unfold kerrEventHorizon.
  apply Rplus_le_compat_l, sqrt_le_1_alt.
  assert (0 <= mass * mass) by nra.
  assert (s1 * s1 <= s2 * s2) by nra.
  nra.
Qed.

(** *** The prograde ISCO *)

Lemma Math_pow_1 (y : R) : Math_pow 1 y = 1.
Proof.
  unfold Math_pow, Glsl.pow. destruct (Rlt_dec 0 1); [|lra].
  unfold Rpower. rewrite ln_1, Rmult_0_r. apply exp_0.
Qed.

Lemma Math_pow_0 (y : R) : Math_pow 0 y = 0.
Proof. unfold Math_pow, Glsl.pow. destruct (Rlt_dec 0 0); [lra | reflexivity]. Qed.

Lemma sqrt_sq_lit (x y : R) : 0 <= y -> x = y * y -> sqrt x = y.
Proof. intros Hy ->. now apply sqrt_square. Qed.

Lemma kerrISCOPrograde_spin0 (mass : R) :
  mass <> 0 -> kerrISCOPrograde mass 0 = 6 * mass.
Proof.
  intros Hm. unfold kerrISCOPrograde.
  replace (0 * mass) with 0 by ring.
  replace (1 - 0 * 0 / (mass * mass)) with 1 by (field; assumption).
  replace (1 + 0 / mass) with 1 by (field; assumption).
  replace (1 - 0 / mass) with 1 by (field; assumption).
  replace (3 * 0 * 0 / (mass * mass)) with 0 by (field; assumption).
  rewrite !Math_pow_1.
  replace (1 + 1 * (1 + 1)) with 3 by ring.
  rewrite (sqrt_sq_lit (0 + 3 * 3) 3) by lra.
  replace ((3 - 3) * (3 + 3 + 2 * 3)) with 0 by ring.
  rewrite sqrt_0. ring.
Qed.

Lemma kerrISCOPrograde_spin1 (mass : R) :
  mass <> 0 -> kerrISCOPrograde mass 1 = mass.
Proof.
  intros Hm. unfold kerrISCOPrograde.
  replace (1 - 1 * mass * (1 * mass) / (mass * mass)) with 0 by (field; assumption).
  replace (3 * (1 * mass) * (1 * mass) / (mass * mass)) with 3 by (field; assumption).
  rewrite Math_pow_0.
  replace (1 + 0 * (Math_pow (1 + 1 * mass / mass) (1 / 3) + Math_pow (1 - 1 * mass / mass) (1 / 3)))
    with 1 by ring.
  rewrite (sqrt_sq_lit (3 + 1 * 1) 2) by lra.
  rewrite (sqrt_sq_lit ((3 - 1) * (3 + 1 + 2 * 2)) 4) by lra.
  ring.
Qed.

(** *** Frame dragging *)

Lemma frameDragging_denominator (r mass spin : R) :
  0 < r -> 0 <= mass ->
  r * r * r <=
    r * r * r + spin * mass * (spin * mass) * r + 2 * mass * (spin * mass) * (spin * mass).
Proof.
  intros Hr Hm.
  assert (0 <= spin * mass * (spin * mass)) by nra.
  assert (0 <= spin * mass * (spin * mass) * r) by (apply Rmult_le_pos; lra).
  assert (0 <= 2 * mass * (spin * mass) * (spin * mass)).
  { replace (2 * mass * (spin * mass) * (spin * mass))
      with (2 * mass * (spin * mass * (spin * mass))) by ring.
    apply Rmult_le_pos; lra. }
  lra.
Qed.

Lemma frameDraggingOmega_odd (r mass spin : R) :
  frameDraggingOmega r mass (- spin) = - frameDraggingOmega r mass spin.
Proof.
  unfold frameDraggingOmega.
  replace (r * r * r + - spin * mass * (- spin * mass) * r
           + 2 * mass * (- spin * mass) * (- spin * mass))
    with (r * r * r + spin * mass * (spin * mass) * r
          + 2 * mass * (spin * mass) * (spin * mass)) by ring.
  unfold Rdiv. ring.
Qed.

Lemma frameDraggingOmega_bounds (r mass spin : R) :
  0 < r -> 0 <= mass -> 0 <= spin ->
  0 <= frameDraggingOmega r mass spin <= 2 * mass * (spin * mass) / (r * r).
Proof.
  intros Hr Hm Hs. unfold frameDraggingOmega.
  pose proof (frameDragging_denominator r mass spin Hr Hm) as Hd.
  set (d := r * r * r + _ + _) in *.
  assert (Hr3 : 0 < r * r * r) by (apply Rmult_lt_0_compat; [apply Rmult_lt_0_compat|]; lra).
  assert (Hn : 0 <= 2 * mass * (spin * mass)).
  { apply Rmult_le_pos; [lra | apply Rmult_le_pos; lra]. }
  assert (Hnr : 0 <= 2 * mass * (spin * mass) * r) by (apply Rmult_le_pos; lra).
  split.
  - apply Rmult_le_pos; [assumption | left; apply Rinv_0_lt_compat; lra].
  - replace (2 * mass * (spin * mass) / (r * r))
      with (2 * mass * (spin * mass) * r * / (r * r * r)) by (field; lra).
    unfold Rdiv. apply Rmult_le_compat_l; [assumption|].
    apply Rinv_le_contravar; lra.
Qed.

(** *** Weak-field deflection *)

Lemma deflectionAngle_guard (b mass : R) : b < 0.01 -> deflectionAngle b mass = Rtrigo1.PI.
Proof. intros H. unfold deflectionAngle. destruct (Rlt_dec _ _); [reflexivity | contradiction]. Qed.

Lemma deflectionAngle_weak (b mass : R) :
  0 <= mass -> 0.01 <= b ->
  deflectionAngle b mass = 4.0 * mass / b /\
  0 <= deflectionAngle b mass <= 400 * mass.
Proof.
  intros Hm Hb. unfold deflectionAngle. destruct (Rlt_dec _ _); [lra|].
  split; [reflexivity|].
  assert (Hi : 0 < / b) by (apply Rinv_0_lt_compat; lra).
  assert (Hi2 : / b <= 100).
  { replace 100 with (/ 0.01) by lra. apply Rinv_le_contravar; lra. }
  unfold Rdiv. split; [apply Rmult_le_pos; lra|].
  replace (400 * mass) with (4.0 * mass * 100) by lra.
  apply Rmult_le_compat_l; lra.
Qed.

Lemma deflectionAngle_decreasing (b1 b2 mass : R) :
  0 <= mass -> 0.01 <= b1 <= b2 ->
  deflectionAngle b2 mass <= deflectionAngle b1 mass.
Proof.
  intros Hm [H1 H12]. unfold deflectionAngle.
  destruct (Rlt_dec b1 0.01); [lra|]. destruct (Rlt_dec b2 0.01); [lra|].
  unfold Rdiv. apply Rmult_le_compat_l; [lra|].
  apply Rinv_le_contravar; lra.
Qed.

End PhysicsFacts.

(** ** Lemmas on the Kerr variant of gravitational_lensing.glsl *)

Module KerrLensingFacts.
Import Glsl GlslFacts KerrLensing.

Lemma spin_clamped (s : R) : 0 <= clamp s 0.0 0.999 <= 0.999.
Proof. pose proof (clamp_bounds s 0.0 0.999). lra. Qed.

Lemma mass_floor (M : R) : 0.0001 <= Rmax M 0.0001 /\ M <= Rmax M 0.0001.
Proof. split; [apply Rmax_r | apply Rmax_l]. Qed.

Lemma horizon_discriminant (m a : R) :
  0 <= a <= 0.999 -> 0 <= m * m - a * m * (a * m) <= m * m.
Proof.
  intros Ha.
  replace (m * m - a * m * (a * m)) with (m * m * (1 - a * a)) by ring.
  assert (0 <= m * m) by nra.
  assert (0 <= a * a <= 1) by nra.
  split; [apply Rmult_le_pos; lra | nra].
Qed.

Lemma shader_kerrEventHorizon_bounds (uMass uSpin : R) :
  Rmax uMass 0.0001 <= kerrEventHorizon uMass uSpin <= 2 * Rmax uMass 0.0001.
Proof.
  unfold kerrEventHorizon.
  destruct (mass_floor uMass) as [Hm _]. set (m := Rmax uMass 0.0001) in *.
  pose proof (spin_clamped uSpin) as Ha. set (a := clamp uSpin 0.0 0.999) in *.
  destruct (horizon_discriminant m a Ha) as [H0 H1].
  rewrite Rmax_left by lra.
  pose proof (sqrt_pos (m * m - a * m * (a * m))).
  assert (sqrt (m * m - a * m * (a * m)) <= m).
  { apply Rle_trans with (sqrt (m * m)); [now apply sqrt_le_1_alt|].
    rewrite sqrt_square; lra. }
  lra.
Qed.

Lemma kerrEventHorizon_physics (uMass uSpin : R) :
  0.0001 <= uMass -> 0 <= uSpin <= 0.999 ->
  kerrEventHorizon uMass uSpin = Physics.kerrEventHorizon uMass uSpin.
Proof.
  intros Hm Hs. unfold kerrEventHorizon, Physics.kerrEventHorizon.
  rewrite (clamp_id uSpin) by lra. rewrite (Rmax_left uMass) by lra.
  destruct (horizon_discriminant uMass uSpin Hs) as [H0 _].
  rewrite Rmax_left by lra.
  reflexivity.
Qed.

(** *** The photon sphere *)

Lemma acos_nonneg_arg (a : R) : 0 <= a <= 1 -> 0 <= acos a <= Rtrigo1.PI / 2.
Proof.
  intros Ha. pose proof (acos_bound a) as [H0 H1]. split; [assumption|].
  destruct (Rle_dec (acos a) (Rtrigo1.PI / 2)) as [|Hn]; [assumption|]. exfalso.
  assert (Hc : cos (acos a) < 0).
  { apply cos_lt_0; [lra|]. pose proof PI_RGT_0. lra. }
  rewrite cos_acos in Hc by lra. lra.
Qed.

Lemma photon_cosine (a : R) :
  0 <= a <= 0.999 -> -1 / 2 <= cos (2.0 / 3.0 * acos (- a)) <= 1 / 2.
Proof.
  intros Ha. rewrite acos_opp.
  pose proof (acos_nonneg_arg a) as Hb. assert (Hb' : 0 <= acos a <= Rtrigo1.PI / 2) by (apply Hb; lra).
  pose proof PI_RGT_0 as Hpi.
  set (t := 2.0 / 3.0 * (Rtrigo1.PI - acos a)).
  assert (Ht : Rtrigo1.PI / 3 <= t <= 2 * (Rtrigo1.PI / 3)) by (unfold t; lra).
  split.
  - rewrite <- cos_2PI3. apply cos_decr_1; lra.
  - rewrite <- cos_PI3. apply cos_decr_1; lra.
Qed.

Lemma kerrPhotonSphere_bounds (uMass uSpin : R) :
  Rmax uMass 0.0001 <= kerrPhotonSphere uMass uSpin <= 3 * Rmax uMass 0.0001.
Proof.
  unfold kerrPhotonSphere.
  destruct (mass_floor uMass) as [Hm _]. set (m := Rmax uMass 0.0001) in *.
  pose proof (photon_cosine _ (spin_clamped uSpin)) as Hc.
  set (c := cos _) in *. clearbody c m. nra.
Qed.

Lemma kerrPhotonSphere_no_spin (uMass uSpin : R) :
  uSpin <= 0 -> kerrPhotonSphere uMass uSpin = 3 * Rmax uMass 0.0001.
Proof.
  intros Hs. unfold kerrPhotonSphere.
  assert (Ha : clamp uSpin 0.0 0.999 = 0).
  { unfold clamp. rewrite Rmax_right by lra. rewrite Rmin_left; lra. }
  rewrite Ha, Ropp_0, acos_0.
  replace (2.0 / 3.0 * (Rtrigo1.PI / 2)) with (Rtrigo1.PI / 3) by lra.
  rewrite cos_PI3. lra.
Qed.

(** *** The bending term *)

Lemma kerrEventHorizon_no_spin (uMass uSpin : R) :
  uSpin <= 0 -> kerrEventHorizon uMass uSpin = 2 * Rmax uMass 0.0001.
Proof.
  intros Hs. unfold kerrEventHorizon.
  assert (Ha : clamp uSpin 0.0 0.999 = 0).
  { unfold clamp. rewrite Rmax_right by lra. rewrite Rmin_left; lra. }
  rewrite Ha. destruct (mass_floor uMass) as [Hm _]. set (m := Rmax uMass 0.0001) in *.
  replace (m * m - 0 * m * (0 * m)) with (m * m) by ring.
  rewrite Rmax_left by nra. rewrite sqrt_square by lra. ring.
Qed.

Lemma bending_divisor_eq (uMass r : R) :
  r <> 0 -> r * r * metricCoeff uMass r + 0.001 = r * (r - 2 * uMass) + 0.001.
Proof.
  intros Hr. unfold metricCoeff, schwarzschildRadius.
  replace 1.0 with 1 by lra. replace 2.0 with 2 by lra.
  replace (r * r * (1 - 2 * uMass / r)) with (r * (r - 2 * uMass)) by (field; assumption).
  reflexivity.
Qed.

Lemma bending_divisor_pos (uMass uSpin r : R) :
  ~ r < kerrEventHorizon uMass uSpin * 1.01 ->
  uSpin <= 0 \/ 2 * uMass <= r ->
  0.001 <= r * r * metricCoeff uMass r + 0.001.
Proof.
  intros Hg H.
  pose proof (shader_kerrEventHorizon_bounds uMass uSpin) as [Hlo _].
  destruct (mass_floor uMass) as [Hm HM].
  assert (Hr : 0 < r) by lra.
  rewrite bending_divisor_eq by lra.
  assert (0 <= r * (r - 2 * uMass)); [|lra].
  apply Rmult_le_pos; [lra|].
  destruct H as [Hs | Hr2]; [|lra].
  rewrite (kerrEventHorizon_no_spin uMass uSpin Hs) in Hg. lra.
Qed.

(** Between the guard and r = 2M the divisor vanishes at one radius. *)
Lemma bending_divisor_root (uMass : R) :
  1 <= uMass ->
  let r0 := uMass + sqrt (uMass * uMass - 0.001) in
  1.999 * uMass <= r0 /\ r0 * r0 * metricCoeff uMass r0 + 0.001 = 0.
Proof.
  intros HM r0. unfold r0.
  set (s := sqrt (uMass * uMass - 0.001)).
  assert (Hq : 0 <= uMass * uMass - 0.001) by nra.
  assert (Hs : s * s = uMass * uMass - 0.001) by (now apply sqrt_sqrt).
  assert (Hp : 0 <= s) by apply sqrt_pos.
  assert (Hlo : 0.999 * uMass <= s).
  { rewrite <- (sqrt_square (0.999 * uMass)) by lra. apply sqrt_le_1_alt. nra. }
  split; [lra|].
  rewrite bending_divisor_eq by lra.
  replace ((uMass + s) * (uMass + s - 2 * uMass)) with (s * s - uMass * uMass) by ring.
  rewrite Hs. lra.
Qed.

Lemma guard_below_root (uMass uSpin : R) :
  1 <= uMass -> 0.3 <= uSpin ->
  kerrEventHorizon uMass uSpin * 1.01 <= 1.999 * uMass.
Proof.
  intros HM Hs. unfold kerrEventHorizon.
  rewrite (Rmax_left uMass) by lra.
  pose proof (spin_clamped uSpin) as Ha.
  assert (Ha3 : 0.3 <= clamp uSpin 0.0 0.999).
  { unfold clamp, Rmin, Rmax.
    destruct (Rle_dec uSpin 0.0); destruct (Rle_dec _ _); lra. }
  set (a := clamp uSpin 0.0 0.999) in *. clearbody a.
  destruct (horizon_discriminant uMass a Ha) as [H0 _].
  rewrite Rmax_left by lra.
  assert (Hq : sqrt (uMass * uMass - a * uMass * (a * uMass)) <= 0.954 * uMass).
  { rewrite <- (sqrt_square (0.954 * uMass)) by lra. apply sqrt_le_1_alt.
    assert (Ha2 : 0.09 <= a * a) by nra.
    assert (HM2 : 0 <= uMass * uMass) by nra.
    pose proof (Rmult_le_pos _ (a * a - 0.09) HM2 ltac:(lra)). nra. }
  lra.
Qed.

(** *** The sky *)

Lemma proceduralStars_lensing (d : vec3 R) :
  proceduralStars d = Lensing.sampleBackground d.
Proof. reflexivity. Qed.

Lemma sampleSky_dominates (tex : vec2 R -> vec4 R) (d : vec3 R) :
  vle (sampleBackground tex d) (sampleSky tex d) /\
  vle (proceduralStars d) (sampleSky tex d).
Proof.
  unfold sampleSky, vle, zip3; cbn [x3 y3 z3].
  repeat split; (apply Rmax_l || apply Rmax_r).
Qed.

Lemma sampleSky_dark_texture (tex : vec2 R -> vec4 R) (d : vec3 R) :
  vle (sampleBackground tex d) (mkvec3 0 0 0) ->
  sampleSky tex d = Lensing.sampleBackground d.
Proof.
  intros (Hx & Hy & Hz). cbn [x3 y3 z3] in *.
  unfold sampleSky. rewrite proceduralStars_lensing.
  destruct (LensingMore.lensing_sampleBackground_range d) as (g & Hg & Hr).
  rewrite Hg. apply vec3_eq; unfold zip3; cbn [x3 y3 z3]; apply Rmax_right; lra.
Qed.

End KerrLensingFacts.

(** ** Concrete rays and parameters for the instances *)

Module Instances.
Import Predicates.

(** One iteration of [traceColor] from (15, 0, 0) along z, a ray that is
    not radial. *)
Lemma tangent_ray :
  exists s : RayState, rayAt Scene.farAway 1 Scene.farPos (mkvec3 0 0 1) = Some s.
Proof.
  unfold rayAt. cbn [rayState].
  rewrite traceStep_active; [eexists; reflexivity | |];
    cbn [initRay pos]; unfold Scene.farPos;
    rewrite ?horizon_farAway, length_axis_x, Rabs_pos_eq; lra.
Qed.

(** One iteration of the lensing march from (0, 0, 15) along x. *)
Lemma tangent_march :
  Lensing.marchState Scene.lensFront 1 (mkvec3 0 0 15) (mkvec3 1 0 0) =
    Some (fst (Lensing.rk4Step (mkvec3 0 0 15) (mkvec3 1 0 0) Lensing.STEP_SIZE),
          snd (Lensing.rk4Step (mkvec3 0 0 15) (mkvec3 1 0 0) Lensing.STEP_SIZE)).
Proof.
  cbn [Lensing.marchState].
  rewrite LensingFacts.marchStep_active; [reflexivity | | |].
  - rewrite length_axis_z, Rabs_pos_eq; unfold Lensing.SCHWARZSCHILD_RADIUS; lra.
  - rewrite length_axis_z, Rabs_pos_eq; lra.
  - apply LensingFacts.intersectDisk_off_plane. cbn. rewrite Rabs_pos_eq; lra.
Qed.

Lemma length_camera : length (vsub (mkvec3 0 0 0) (mkvec3 0 0 15)) = 15.
Proof.
  replace (vsub (mkvec3 0 0 0) (mkvec3 0 0 15)) with (mkvec3 0 0 (-15))
    by (apply vec3_eq; cbn; lra).
  rewrite length_axis_z, <- Rabs_Ropp, Rabs_pos_eq; lra.
Qed.

Lemma camera_basis_regular :
  length (cross (normalize (vsub (mkvec3 0 0 0) (mkvec3 0 0 15)))
                (mkvec3 (sin 0) (cos 0) 0.0)) <> 0.
Proof.
  unfold normalize. rewrite length_camera, sin_0, cos_0.
  replace (cross _ _) with (mkvec3 1 0 0)
    by (apply vec3_eq; cbn; lra).
  rewrite length_axis_x, Rabs_pos_eq; lra.
Qed.

End Instances.

(** ** The theorems *)


(** ** kerr_postprocess.glsl and kerr_blackhole.glsl *)

(** X1: the acceleration that [traceColor] adds to the direction is
    central and attractive: with [h2] the squared angular momentum of a
    ray, [accel] is parallel to the position and never has an outward
    component. *)
Theorem X1_accel_central_attractive (p d q : vec3 R) :
  cross q (accel (angularMomentum2 p d) q) = mkvec3 0 0 0 /\
  dot q (accel (angularMomentum2 p d) q) <= 0.
Proof. apply KerrMore.accel_attractive. Qed.

(** X2: the loop of [traceColor] conserves the angular momentum: at every
    iteration that is reached, [pos x dir] is the initial
    [pos x (dir * STEP_SIZE)], its squared length is the [h2] computed before
    the loop, and position and direction stay in the plane through the
    centre that contains the initial ray. *)
Theorem X2_angular_momentum_conserved
    (u : Uniforms) (p d : vec3 R) (n : nat) (s : RayState) :
  rayAt u n p d = Some s ->
  cross (pos s) (dir s) = cross p (vscale d STEP_SIZE) /\
  dot (cross (pos s) (dir s)) (cross (pos s) (dir s)) = angularMomentum2 p d /\
  dot (cross p (vscale d STEP_SIZE)) (pos s) = 0 /\
  dot (cross p (vscale d STEP_SIZE)) (dir s) = 0.
Proof. apply KerrMore.angular_momentum_conserved. Qed.

(** X2 after one iteration of the ray from (15, 0, 0) along z. *)
Lemma X2_witness :
  exists s : RayState,
    rayAt Scene.farAway 1 Scene.farPos (mkvec3 0 0 1) = Some s /\
    cross (pos s) (dir s) = cross Scene.farPos (vscale (mkvec3 0 0 1) STEP_SIZE).
Proof.
  destruct Instances.tangent_ray as (s & Hs).
  exists s. split; [exact Hs|].
  exact (proj1 (X2_angular_momentum_conserved _ _ _ _ s Hs)).
Defined.

(** X3: the colour returned by [traceColor] has no negative component,
    for all uniforms, positions and directions. *)
Theorem X3_traceColor_nonnegative (u : Uniforms) (p d : vec3 R) :
  vle (mkvec3 0 0 0) (traceColor u p d).
Proof. apply KerrMore.traceColor_nonneg. Qed.

(** X4: [sampleBackground] returns a grey value, the same in the three
    channels, between 0 and 2.025 = 0.9 * (1 + 0.75 + 0.5). *)
Theorem X4_background_grey (u : Uniforms) (d : vec3 R) :
  exists g : R, sampleBackground u d = mkvec3 g g g /\ 0 <= g <= 2.025.
Proof. apply KerrMore.sampleBackground_range. Qed.

(** X5: about the y axis, the quaternion product of [rotateVector] is the
    plane rotation by [angle] degrees (with the PI of the shader): y is
    kept, x and z turn, and the length is unchanged. *)
Theorem X5_rotation_about_y (d : vec3 R) (angle : R) :
  let t := angle * KerrShader.PI / 180.0 in
  rotateVector d (mkvec3 0.0 1.0 0.0) angle =
    mkvec3 (x3 d * cos t + z3 d * sin t) (y3 d) (z3 d * cos t - x3 d * sin t) /\
  length (rotateVector d (mkvec3 0.0 1.0 0.0) angle) = length d.
Proof.
  split; [apply KerrMore.rotateVector_about_y | apply KerrMore.rotateVector_y_length].
Qed.

(** X6: the rotation of the sky with time leaves the vertical texture
    coordinate alone: it is [0.5 - asin(clamp(dir.y, -1, 1)) / PI] of the
    direction before rotation, the same whatever the uniforms. *)
Theorem X6_background_latitude (u1 u2 : Uniforms) (d : vec3 R) :
  y2 (backgroundUV u1 d) = 0.5 - asin (clamp (y3 d) (-1.0) 1.0) / KerrShader.PI /\
  y2 (backgroundUV u1 d) = y2 (backgroundUV u2 d).
Proof.
  split; [apply KerrMore.background_latitude|].
  now rewrite !KerrMore.background_latitude.
Qed.

(** X7: away from the origin (where [toSpherical] divides by
    [rho = 0]) the function can be inverted: from (rho, theta, phi) the
    point is (rho cos phi cos theta, rho sin phi, rho cos phi sin theta),
    and rho is not negative. *)
Theorem X7_toSpherical_inverse (p : vec3 R) :
  p <> mkvec3 0 0 0 ->
  let s := toSpherical p in
  x3 s * cos (z3 s) * cos (y3 s) = x3 p /\
  x3 s * sin (z3 s) = y3 p /\
  x3 s * cos (z3 s) * sin (y3 s) = z3 p /\
  0 <= x3 s.
Proof. intros _. apply KerrMore.toSpherical_inverse. Qed.

(** X7 at the point (3, 0, 4). *)
Lemma X7_witness :
  x3 (toSpherical (mkvec3 3 0 4)) * sin (z3 (toSpherical (mkvec3 3 0 4))) = 0.
Proof.
  apply (X7_toSpherical_inverse (mkvec3 3 0 4)).
  intros E. apply (f_equal x3) in E. cbn in E. lra.
Defined.

(** X8: when the camera is not at the target and does not look along the
    roll-up vector, the columns of [lookAt] are orthonormal, the matrix
    keeps the length of every vector, and the ray direction that [shade]
    passes to [traceColor] has length 1. *)
Theorem X8_lookAt_orthonormal (origin target : vec3 R) (roll : R) :
  length (vsub target origin) <> 0 ->
  length (cross (normalize (vsub target origin)) (mkvec3 (sin roll) (cos roll) 0.0)) <> 0 ->
  let '(uu, vv, ww) := lookAt origin target roll in
  (dot uu uu = 1 /\ dot vv vv = 1 /\ dot ww ww = 1) /\
  (dot uu vv = 0 /\ dot uu ww = 0 /\ dot vv ww = 0) /\
  (forall v : vec3 R, length (mat3_mul (uu, vv, ww) v) = length v) /\
  (forall screenUv : vec2 R,
     length (mat3_mul (uu, vv, ww)
               (normalize (mkvec3 (- x2 screenUv) (y2 screenUv) 1.0))) = 1).
Proof.
  intros H1 H2. pose proof (KerrMore.lookAt_orthonormal origin target roll H1 H2) as H.
  destruct (lookAt origin target roll) as [[uu vv] ww].
  destruct H as (Hn & Ho & Hi).
  split; [exact Hn|]. split; [exact Ho|]. split; [exact Hi|].
  intros s. rewrite Hi. apply length_normalize.
  intros E. unfold length in E. apply sqrt_eq_0 in E; [|apply dot_nonneg].
  unfold dot in E; cbn [x3 y3 z3] in E. nra.
Qed.

(** X8 for the camera at (0, 0, 15) looking at the centre without roll. *)
Lemma X8_witness :
  let '(uu, vv, ww) := lookAt (mkvec3 0 0 15) (mkvec3 0 0 0) 0 in
  dot uu vv = 0 /\ dot uu ww = 0 /\ dot vv ww = 0.
Proof.
  pose proof (X8_lookAt_orthonormal (mkvec3 0 0 15) (mkvec3 0 0 0) 0) as H.
  destruct (lookAt (mkvec3 0 0 15) (mkvec3 0 0 0) 0) as [[uu vv] ww].
  apply H.
  - rewrite Instances.length_camera. lra.
  - apply Instances.camera_basis_regular.
Defined.

(** X9: [adiskColor] adds nothing and leaves colour and alpha as they
    are at every point within the inner radius of the centre, at least the
    disk thickness away from the plane y = 0, or at least the outer radius
    away from the y axis. *)
Theorem X9_disk_support (u : Uniforms) (p c : vec3 R) (a : R) :
  0 < uDiskInner u -> 0 < uDiskOuter u -> 0 < uDiskThickness u ->
  length p <= uDiskInner u \/ uDiskThickness u <= Rabs (y3 p) \/
  uDiskOuter u <= length2 (mkvec2 (x3 p) (z3 p)) ->
  adiskColor u p c a = (c, a).
Proof. apply KerrMore.disk_support. Qed.

(** X9 in the thick disk (inner radius 2.4, thickness 1.75), two units
    above the plane. *)
Lemma X9_witness :
  adiskColor Scene.thickDisk (mkvec3 3 2 0) (mkvec3 0 0 0) 1 = (mkvec3 0 0 0, 1).
Proof.
  apply (X9_disk_support Scene.thickDisk (mkvec3 3 2 0) (mkvec3 0 0 0) 1); cbn; try lra.
  right; left. rewrite Rabs_pos_eq; lra.
Defined.

(** X10: the disk depends on the time only through the phase
    [uTime * uDiskRotationSpeed]: two sets of uniforms with the same disk
    radii and thickness and the same phase give the same [adiskColor]; in
    particular a disk with rotation speed 0 does not change with time. *)
Theorem X10_disk_phase (u1 u2 : Uniforms) (p c : vec3 R) (a : R) :
  uDiskInner u1 = uDiskInner u2 -> uDiskOuter u1 = uDiskOuter u2 ->
  uDiskThickness u1 = uDiskThickness u2 ->
  uTime u1 * uDiskRotationSpeed u1 = uTime u2 * uDiskRotationSpeed u2 ->
  adiskColor u1 p c a = adiskColor u2 p c a.
Proof. apply KerrMore.adiskColor_phase. Qed.

(** X10 for the disk of the default configuration at time 2 and speed
    0.25 and at time 1 and speed 0.5. *)
Lemma X10_witness :
  adiskColor
    (mkUniforms (mkvec2 1920 1080) (mkvec3 0 0 15) 2 1 0 3 9 0.3 0.25 1.2 Scene.noTexture)
    (mkvec3 4 0.1 0) (mkvec3 0 0 0) 1 =
  adiskColor
    (mkUniforms (mkvec2 1920 1080) (mkvec3 0 0 15) 1 1 0 3 9 0.3 0.5 1.2 Scene.noTexture)
    (mkvec3 4 0.1 0) (mkvec3 0 0 0) 1.
Proof.
  apply X10_disk_phase; cbn; try reflexivity; lra.
Defined.

(** ** gravitational_lensing.glsl *)

(** X11: [hash] and the value noise [noise] built from it lie in [0, 1)
    at every point. *)
Theorem X11_noise_range (p : vec2 R) :
  0 <= Lensing.hash p < 1 /\ 0 <= Lensing.noise p < 1.
Proof. split; [apply LensingMore.hash_range | apply LensingMore.noise_range]. Qed.

(** X12: [geodesicAcceleration] never has an outward radial component,
    and past its guard [r < 2.02] the divisor [r * r * metricCoeff(r)] of
    [factor] is positive. *)
Theorem X12_geodesic_attractive (p v : vec3 R) :
  dot p (Lensing.geodesicAcceleration p v) <= 0 /\
  (~ length p < Lensing.SCHWARZSCHILD_RADIUS * 1.01 ->
   0 < length p * length p * Lensing.metricCoeff (length p)).
Proof.
  split; [apply LensingMore.geodesicAcceleration_attractive|].
  apply LensingMore.factor_divisor_pos.
Qed.

(** X12 at the camera position (0, 0, 15). *)
Lemma X12_witness :
  0 < length (mkvec3 0 0 15) * length (mkvec3 0 0 15)
      * Lensing.metricCoeff (length (mkvec3 0 0 15)).
Proof.
  apply (proj2 (X12_geodesic_attractive (mkvec3 0 0 15) (mkvec3 1 0 0))).
  rewrite length_axis_z, Rabs_pos_eq; unfold Lensing.SCHWARZSCHILD_RADIUS; lra.
Defined.

(** X13: the march of [main] is planar: the RK4 steps keep position and
    velocity in the plane through the centre spanned by the initial
    position and velocity. *)
Theorem X13_march_planar
    (u : Lensing.Uniforms) (n : nat) (p v p' v' : vec3 R) :
  Lensing.marchState u n p v = Some (p', v') ->
  dot (cross p v) p' = 0 /\ dot (cross p v) v' = 0.
Proof.
  destruct (LensingMore.cross_inPlane p v) as [Hp Hv].
  exact (LensingMore.marchState_plane u (cross p v) n p v p' v' Hp Hv).
Qed.

(** X13 after one step from (0, 0, 15) along x. *)
Lemma X13_witness :
  dot (cross (mkvec3 0 0 15) (mkvec3 1 0 0))
      (fst (Lensing.rk4Step (mkvec3 0 0 15) (mkvec3 1 0 0) Lensing.STEP_SIZE)) = 0.
Proof.
  exact (proj1 (X13_march_planar Scene.lensFront 1 _ _ _ _ Instances.tangent_march)).
Defined.

(** X14: a ray whose velocity is parallel to its position is not bent:
    [rk4Step] moves the position by [dt * vel], only normalises the
    velocity, and the ray stays radial. *)
Theorem X14_radial_ray_straight (p v : vec3 R) (dt : R) :
  cross p v = mkvec3 0 0 0 ->
  Lensing.rk4Step p v dt = (vadd p (sscale dt v), normalize v) /\
  cross (vadd p (sscale dt v)) (normalize v) = mkvec3 0 0 0.
Proof. apply LensingMore.rk4Step_radial. Qed.

(** X14 for the ray from (3, 0, 4) towards the centre. *)
Lemma X14_witness :
  Lensing.rk4Step (mkvec3 3 0 4) (mkvec3 (-0.6) 0 (-0.8)) 0.1 =
    (vadd (mkvec3 3 0 4) (sscale 0.1 (mkvec3 (-0.6) 0 (-0.8))),
     normalize (mkvec3 (-0.6) 0 (-0.8))).
Proof.
  apply (X14_radial_ray_straight (mkvec3 3 0 4) (mkvec3 (-0.6) 0 (-0.8)) 0.1).
  apply vec3_eq; cbn; lra.
Defined.

(** X15: the procedural sky of [sampleBackground] is grey and between 0
    and 2.025. *)
Theorem X15_lensing_background_grey (d : vec3 R) :
  exists g : R, Lensing.sampleBackground d = mkvec3 g g g /\ 0 <= g <= 2.025.
Proof. apply LensingMore.lensing_sampleBackground_range. Qed.

(** X16: with a glow intensity that is not negative, [getDiskColor] and
    the colour that the march of [main] ends with have no negative
    component. *)
Theorem X16_march_nonnegative (u : Lensing.Uniforms) :
  0 <= Lensing.uGlowIntensity u ->
  (forall h : vec3 R, vle (mkvec3 0 0 0) (Lensing.getDiskColor u h)) /\
  (forall (n : nat) (p v : vec3 R), vle (mkvec3 0 0 0) (Lensing.march u n p v)).
Proof.
  intros Hg. split.
  - intros h. now apply LensingMore.getDiskColor_nonneg.
  - intros n. now apply LensingMore.march_nonneg.
Qed.

(** X16 for the default configuration, from the camera along x. *)
Lemma X16_witness :
  vle (mkvec3 0 0 0)
      (Lensing.march Scene.lensFront Lensing.MAX_STEPS (mkvec3 0 0 15) (mkvec3 1 0 0)).
Proof.
  apply (proj2 (X16_march_nonnegative Scene.lensFront ltac:(cbn; lra))).
Defined.

(** X17: a disk without extent is never shown: when the thickness is not
    positive or the inner radius exceeds the outer one, [intersectDisk]
    fails everywhere and the march ends with black or with a sample of the
    sky, a grey value in [0, 2.025]. *)
Theorem X17_march_without_disk (u : Lensing.Uniforms) :
  Lensing.uDiskThickness u <= 0 \/ Lensing.uDiskOuter u < Lensing.uDiskInner u ->
  (forall p : vec3 R, Lensing.intersectDisk u p = None) /\
  (forall (n : nat) (p v : vec3 R),
     exists g : R, Lensing.march u n p v = mkvec3 g g g /\ 0 <= g <= 2.025).
Proof.
  intros H. split.
  - intros p. now apply LensingMore.intersectDisk_empty.
  - intros n. now apply LensingMore.march_without_disk.
Qed.

(** X17 for a disk of thickness 0. *)
Lemma X17_witness :
  Lensing.intersectDisk
    (Lensing.mkUniforms 0 (mkvec2 1920 1080) (mkvec3 0 0 15) 1 0 3 9 0 0.1 1.2
       Scene.noTexture)
    (mkvec3 4 0 0) = None.
Proof.
  apply (proj1 (X17_march_without_disk
                  (Lensing.mkUniforms 0 (mkvec2 1920 1080) (mkvec3 0 0 15) 1 0 3 9 0 0.1 1.2
                     Scene.noTexture)
                  ltac:(left; cbn; lra))).
Defined.

(** ** lib/blackhole/physics.ts *)

(** X18: for a positive mass the characteristic radii are ordered,
    0 < r_s < r_ph < b_crit, and [isPhotonCaptured] holds exactly below
    the critical impact parameter, hence for every impact parameter up to
    the photon sphere radius. *)
Theorem X18_radii_ordered (mass : R) :
  0 < mass ->
  (0 < Physics.schwarzschildRadius mass /\
   Physics.schwarzschildRadius mass < Physics.photonSphereRadius mass /\
   Physics.photonSphereRadius mass < Physics.criticalImpactParameter mass) /\
  (forall b : R,
     Physics.isPhotonCaptured b mass = true <-> b < Physics.criticalImpactParameter mass) /\
  (forall b : R,
     b <= Physics.photonSphereRadius mass -> Physics.isPhotonCaptured b mass = true).
Proof.
  intros Hm. split; [now apply PhysicsFacts.radii_ordered|]. split.
  - intros b. apply PhysicsFacts.isPhotonCaptured_spec.
  - intros b. now apply PhysicsFacts.captured_inside_photon_sphere.
Qed.

(** X18 at mass 1. *)
Lemma X18_witness : Physics.isPhotonCaptured 3 1 = true.
Proof.
  apply (proj2 (proj2 (X18_radii_ordered 1 ltac:(lra)))).
  unfold Physics.photonSphereRadius. lra.
Defined.

(** X19: for a positive mass [gravitationalRedshift] lies in [0, 1), is 0
    exactly at and inside the Schwarzschild radius, and does not decrease
    with the radius. *)
Theorem X19_redshift_factor (mass : R) :
  0 < mass ->
  (forall r : R, 0 <= Physics.gravitationalRedshift r mass < 1) /\
  (forall r : R,
     Physics.gravitationalRedshift r mass = 0 <-> r <= Physics.schwarzschildRadius mass) /\
  (forall r1 r2 : R,
     r1 <= r2 ->
     Physics.gravitationalRedshift r1 mass <= Physics.gravitationalRedshift r2 mass).
Proof.
  intros Hm. split; [|split].
  - intros r. now apply PhysicsFacts.gravitationalRedshift_range.
  - intros r. now apply PhysicsFacts.gravitationalRedshift_range.
  - intros r1 r2. now apply PhysicsFacts.gravitationalRedshift_mono.
Qed.

(** X19 at mass 1, between the photon sphere and the ISCO. *)
Lemma X19_witness :
  Physics.gravitationalRedshift 3 1 <= Physics.gravitationalRedshift 6 1.
Proof.
  apply (proj2 (proj2 (X19_redshift_factor 1 ltac:(lra)))). lra.
Defined.

(** X20: in the units of [normalizeRadius] the horizon is at 1 and the
    photon sphere at 1.5 for every positive mass, and outside the horizon
    the redshift factor is [sqrt(1 - 1/x)] at the normalised radius
    [x > 1]. *)
Theorem X20_schwarzschild_units (mass : R) :
  0 < mass ->
  Physics.normalizeRadius (Physics.schwarzschildRadius mass) mass = 1 /\
  Physics.normalizeRadius (Physics.photonSphereRadius mass) mass = 1.5 /\
  (forall r : R,
     Physics.schwarzschildRadius mass < r ->
     1 < Physics.normalizeRadius r mass /\
     Physics.gravitationalRedshift r mass = sqrt (1 - / Physics.normalizeRadius r mass)).
Proof.
  intros Hm. split; [|split].
  - unfold Physics.normalizeRadius, Physics.schwarzschildRadius.
    replace 2.0 with 2 by lra. field. lra.
  - unfold Physics.normalizeRadius, Physics.schwarzschildRadius, Physics.photonSphereRadius.
    replace 2.0 with 2 by lra. replace 3.0 with 3 by lra. replace 1.5 with (3 / 2) by lra.
    field. lra.
  - intros r. now apply PhysicsFacts.redshift_normalized.
Qed.

(** X20 at mass 1 and radius 6. *)
Lemma X20_witness : 1 < Physics.normalizeRadius 6 1.
Proof.
  apply (proj2 (proj2 (X20_schwarzschild_units 1 ltac:(lra))) 6).
  unfold Physics.schwarzschildRadius. lra.
Defined.

(** X21: for a mass that is not negative and a spin in [-1, 1] the
    horizon radius of [kerrEventHorizon] lies between the mass and the
    Schwarzschild radius, it is the mass at the extremal spins 1 and -1,
    and it does not increase with the spin on [0, 1]. *)
Theorem X21_kerr_horizon (mass : R) :
  0 <= mass ->
  (forall spin : R,
     -1 <= spin <= 1 ->
     mass <= Physics.kerrEventHorizon mass spin <= Physics.schwarzschildRadius mass) /\
  (Physics.kerrEventHorizon mass 1 = mass /\ Physics.kerrEventHorizon mass (-1) = mass) /\
  (forall s1 s2 : R,
     0 <= s1 <= s2 -> s2 <= 1 ->
     Physics.kerrEventHorizon mass s2 <= Physics.kerrEventHorizon mass s1).
Proof.
  intros Hm. split; [|split].
  - intros spin. now apply PhysicsFacts.physics_kerrEventHorizon_bounds.
  - apply PhysicsFacts.kerrEventHorizon_extremal.
  - intros s1 s2. apply PhysicsFacts.kerrEventHorizon_decreasing.
Qed.

(** X21 at mass 1, spins 0.5 and 0.998. *)
Lemma X21_witness :
  Physics.kerrEventHorizon 1 0.998 <= Physics.kerrEventHorizon 1 0.5.
Proof.
  apply (proj2 (proj2 (X21_kerr_horizon 1 ltac:(lra)))); lra.
Defined.

(** X22: [kerrISCOPrograde] gives the Schwarzschild value [ISCO * mass =
    6 mass] at spin 0 and [ISCO_PROGRADE_EXTREMAL * mass = mass] at spin 1,
    for every mass other than 0. *)
Theorem X22_isco_endpoints (mass : R) :
  mass <> 0 ->
  Physics.kerrISCOPrograde mass 0 = Physics.ISCO * mass /\
  Physics.kerrISCOPrograde mass 1 = Physics.ISCO_PROGRADE_EXTREMAL * mass.
Proof.
  intros Hm.
  rewrite PhysicsFacts.kerrISCOPrograde_spin0, PhysicsFacts.kerrISCOPrograde_spin1
    by assumption.
  unfold Physics.ISCO, Physics.ISCO_PROGRADE_EXTREMAL. split; lra.
Qed.

(** X22 at mass 1. *)
Lemma X22_witness : Physics.kerrISCOPrograde 1 0 = Physics.ISCO * 1.
Proof. apply (proj1 (X22_isco_endpoints 1 ltac:(lra))). Defined.

(** X23: at a positive radius and for a mass that is not negative,
    [frameDraggingOmega] changes sign with the spin, and for a spin that is
    not negative it lies between 0 and [2 M a / r^2]; it is 0 without
    spin. *)
Theorem X23_frame_dragging (r mass : R) :
  0 < r -> 0 <= mass ->
  (forall spin : R,
     Physics.frameDraggingOmega r mass (- spin) = - Physics.frameDraggingOmega r mass spin) /\
  (forall spin : R,
     0 <= spin ->
     0 <= Physics.frameDraggingOmega r mass spin <= 2 * mass * (spin * mass) / (r * r)) /\
  Physics.frameDraggingOmega r mass 0 = 0.
Proof.
  intros Hr Hm. split; [|split].
  - intros spin. apply PhysicsFacts.frameDraggingOmega_odd.
  - intros spin. now apply PhysicsFacts.frameDraggingOmega_bounds.
  - unfold Physics.frameDraggingOmega. unfold Rdiv. ring.
Qed.

(** X23 at radius 6, mass 1 and spin 0.998. *)
Lemma X23_witness : 0 <= Physics.frameDraggingOmega 6 1 0.998.
Proof.
  apply (proj1 (proj2 (X23_frame_dragging 6 1 ltac:(lra) ltac:(lra))) 0.998 ltac:(lra)).
Defined.

(** X24: [deflectionAngle] is pi below the impact parameter 0.01 (so it
    never divides by 0), and from 0.01 on it is [4 M / b], between 0 and
    [400 M] and not increasing with [b], for a mass that is not
    negative. *)
Theorem X24_deflection_angle (mass : R) :
  0 <= mass ->
  (forall b : R, b < 0.01 -> Physics.deflectionAngle b mass = Rtrigo1.PI) /\
  (forall b : R,
     0.01 <= b ->
     Physics.deflectionAngle b mass = 4.0 * mass / b /\
     0 <= Physics.deflectionAngle b mass <= 400 * mass) /\
  (forall b1 b2 : R,
     0.01 <= b1 <= b2 ->
     Physics.deflectionAngle b2 mass <= Physics.deflectionAngle b1 mass).
Proof.
  intros Hm. split; [|split].
  - intros b. apply PhysicsFacts.deflectionAngle_guard.
  - intros b. now apply PhysicsFacts.deflectionAngle_weak.
  - intros b1 b2. now apply PhysicsFacts.deflectionAngle_decreasing.
Qed.

(** X24 at mass 1 and impact parameter 0. *)
Lemma X24_witness : Physics.deflectionAngle 0 1 = Rtrigo1.PI.
Proof.
  apply (proj1 (X24_deflection_angle 1 ltac:(lra))). lra.
Defined.

(** ** The Kerr variant of gravitational_lensing.glsl *)

(** X25: the horizon of the shader lies between [m] and [2 m] with
    [m = max(uMass, 0.0001)] for all uniforms, so it is never below 0.0001,
    and for [uMass >= 0.0001] and a spin in [0, 0.999] it is the value of
    [kerrEventHorizon] of physics.ts. *)
Theorem X25_shader_horizon (uMass uSpin : R) :
  (Rmax uMass 0.0001 <= KerrLensing.kerrEventHorizon uMass uSpin
     <= 2 * Rmax uMass 0.0001) /\
  (0.0001 <= uMass -> 0 <= uSpin <= 0.999 ->
   KerrLensing.kerrEventHorizon uMass uSpin = Physics.kerrEventHorizon uMass uSpin).
Proof.
  split.
  - apply KerrLensingFacts.shader_kerrEventHorizon_bounds.
  - apply KerrLensingFacts.kerrEventHorizon_physics.
Qed.

(** X25 for the Interstellar configuration: mass 1, spin 0.998. *)
Lemma X25_witness :
  KerrLensing.kerrEventHorizon 1 0.998 = Physics.kerrEventHorizon 1 0.998.
Proof.
  apply (proj2 (X25_shader_horizon 1 0.998)); lra.
Defined.

(** X26: [kerrPhotonSphere] lies between [m] and [3 m] with
    [m = max(uMass, 0.0001)]; without spin it is [3 m], the value of
    [photonSphereRadius] of physics.ts from [uMass = 0.0001] on. *)
Theorem X26_photon_sphere (uMass uSpin : R) :
  (Rmax uMass 0.0001 <= KerrLensing.kerrPhotonSphere uMass uSpin
     <= 3 * Rmax uMass 0.0001) /\
  (uSpin <= 0 -> KerrLensing.kerrPhotonSphere uMass uSpin = 3 * Rmax uMass 0.0001) /\
  (uSpin <= 0 -> 0.0001 <= uMass ->
   KerrLensing.kerrPhotonSphere uMass uSpin = Physics.photonSphereRadius uMass).
Proof.
  split; [apply KerrLensingFacts.kerrPhotonSphere_bounds|]. split.
  - apply KerrLensingFacts.kerrPhotonSphere_no_spin.
  - intros Hs Hm. rewrite KerrLensingFacts.kerrPhotonSphere_no_spin by assumption.
    rewrite Rmax_left by lra. unfold Physics.photonSphereRadius. lra.
Qed.

(** X26 for the default configuration: mass 1, spin 0. *)
Lemma X26_witness : KerrLensing.kerrPhotonSphere 1 0 = Physics.photonSphereRadius 1.
Proof.
  apply (proj2 (proj2 (X26_photon_sphere 1 0))); lra.
Defined.

(** X27: past the guard [r < 1.01 * kerrEventHorizon()] of
    [geodesicAcceleration], the divisor [r * r * metricCoeff(r) + 0.001] of
    [factor] is at least 0.001 when there is no spin, and for any spin from
    [r = 2 uMass] on. *)
Theorem X27_bending_divisor_positive (uMass uSpin r : R) :
  ~ r < KerrLensing.kerrEventHorizon uMass uSpin * 1.01 ->
  uSpin <= 0 \/ 2 * uMass <= r ->
  0.001 <= r * r * KerrLensing.metricCoeff uMass r + 0.001.
Proof. apply KerrLensingFacts.bending_divisor_pos. Qed.

(** X27 for mass 1 without spin at radius 2.5. *)
Lemma X27_witness : 0.001 <= 2.5 * 2.5 * KerrLensing.metricCoeff 1 2.5 + 0.001.
Proof.
  apply (X27_bending_divisor_positive 1 0 2.5).
  - rewrite kerrLensing_horizon_spin0, Rmax_left by lra. lra.
  - left. lra.
Defined.

(** X28: with spin the guard does not keep the divisor away from 0: for
    [uMass >= 1] and [uSpin >= 0.3] the radius
    [r0 = uMass + sqrt(uMass^2 - 0.001)] passes the guard of
    [geodesicAcceleration] and [r0 * r0 * metricCoeff(r0) + 0.001] is 0
    there. *)
Theorem X28_bending_divisor_zero (uMass uSpin : R) :
  1 <= uMass -> 0.3 <= uSpin ->
  let r0 := uMass + sqrt (uMass * uMass - 0.001) in
  ~ r0 < KerrLensing.kerrEventHorizon uMass uSpin * 1.01 /\
  r0 * r0 * KerrLensing.metricCoeff uMass r0 + 0.001 = 0.
Proof.
  intros HM Hs r0.
  destruct (KerrLensingFacts.bending_divisor_root uMass HM) as [Hlo Hz].
  pose proof (KerrLensingFacts.guard_below_root uMass uSpin HM Hs) as Hg.
  split; [fold r0 in Hlo; lra | exact Hz].
Qed.

(** X28 for the Interstellar configuration: mass 1, spin 0.998. *)
Lemma X28_witness :
  (1 + sqrt (1 * 1 - 0.001)) * (1 + sqrt (1 * 1 - 0.001))
    * KerrLensing.metricCoeff 1 (1 + sqrt (1 * 1 - 0.001)) + 0.001 = 0.
Proof.
  apply (proj2 (X28_bending_divisor_zero 1 0.998 ltac:(lra) ltac:(lra))).
Defined.

(** X29: [sampleSky] is at least the texture sample and at least the
    procedural stars in every channel; where the texture is black (as when
    none is bound) it is the star field, which is the [sampleBackground] of
    the Schwarzschild shader. *)
Theorem X29_sky (tex : vec2 R -> vec4 R) (d : vec3 R) :
  vle (KerrLensing.sampleBackground tex d) (KerrLensing.sampleSky tex d) /\
  vle (KerrLensing.proceduralStars d) (KerrLensing.sampleSky tex d) /\
  (vle (KerrLensing.sampleBackground tex d) (mkvec3 0 0 0) ->
   KerrLensing.sampleSky tex d = Lensing.sampleBackground d).
Proof.
  destruct (KerrLensingFacts.sampleSky_dominates tex d) as [H1 H2].
  split; [exact H1|]. split; [exact H2|].
  apply KerrLensingFacts.sampleSky_dark_texture.
Qed.

(** X29 without a texture, looking along x. *)
Lemma X29_witness :
  KerrLensing.sampleSky Scene.noTexture (mkvec3 1 0 0) =
    Lensing.sampleBackground (mkvec3 1 0 0).
Proof.
  apply (proj2 (proj2 (X29_sky Scene.noTexture (mkvec3 1 0 0)))).
  unfold vle; cbn. lra.
Defined.
